(** * Verification of the password engine of the autofill extension

    The development embeds the generation-and-analysis engine found in
    [src/options.js] (the part headed "password-engine.js"): the bounded
    random primitives, the inclusion-exclusion counters, the three sampling
    tiers, the shuffler and the entropy analyser.  It also embeds the pure
    helpers of the options page in the same file: the escaping of text, the
    lists of selectors and of URL patterns, and the upgrade of a stored
    record.

    JavaScript numbers that the engine only ever uses as integers (lengths,
    indices, bit masks) are embedded as [Z]; BigInt values are [Z] as well;
    numbers that carry logarithms are binary64 floats ([PrimFloat.float]).
    The entropy analyser is exported and takes any number for its length and
    pool size, so it is embedded a second time on binary64 arguments.
    Strings that are indexed character by character are [list ascii]; the
    strings of the options page, which hold any text, are lists of UTF-16
    code units. *)

From Stdlib Require Import ZArith List Lia Bool Ascii String Floats Permutation.
From stdpp Require Import base list gmap.

Open Scope Z_scope.

(** ** Outcomes of JavaScript computations *)

Inductive exn : Type :=
| RangeError
| TypeError
| CryptoError.

(** A computation either returns, throws, or does not finish. *)
Inductive result (A : Type) : Type :=
| Ok (a : A)
| Throw (e : exn)
| Diverge.

Arguments Ok {A} a.
Arguments Throw {A} e.
Arguments Diverge {A}.

Definition rbind {A B} (r : result A) (f : A -> result B) : result B :=
  match r with
  | Ok a => f a
  | Throw e => Throw e
  | Diverge => Diverge
  end.

(** ** 32-bit integer operators

    The operators [<<], [&], [|] and [^] convert their operands with
    ToInt32 and produce a signed 32-bit result; the shift count is taken
    modulo 32. *)

Definition ToInt32 (z : Z) : Z := (z + 2 ^ 31) mod 2 ^ 32 - 2 ^ 31.

Definition js_shl (a b : Z) : Z := ToInt32 (Z.shiftl (ToInt32 a) (b mod 32)).
Definition js_and (a b : Z) : Z := ToInt32 (Z.land (ToInt32 a) (ToInt32 b)).
Definition js_or (a b : Z) : Z := ToInt32 (Z.lor (ToInt32 a) (ToInt32 b)).
Definition js_xor (a b : Z) : Z := ToInt32 (Z.lxor (ToInt32 a) (ToInt32 b)).

(** ** Combinatorics: [countValidSequences] *)

(** [setSizes.reduce((sum, s) => sum + s, 0n)] *)
Definition reduce_sum (sizes : list Z) : Z := fold_left Z.add sizes 0.

(** One entry of the explicit stack: [{ i, missing, parity }]. *)
Record frame : Type := Frame { frame_i : nat; frame_missing : Z; frame_parity : Z }.

(** The [while (stack.length)] loop.  The head of the list is the top of the
    stack.  [fuel] bounds the number of pops. *)
Fixpoint subsetLoop (fuel : nat) (L : Z) (sizes : list Z) (poolSize : Z)
    (stack : list frame) (totalValid : Z) : result Z :=
  match stack with
  | [] => Ok totalValid
  | Frame i missing parity :: stack' =>
    match fuel with
    | O => Diverge
    | S fuel' =>
      if Nat.eqb i (length sizes) then
        let remaining := poolSize - missing in
        if 0 <=? remaining then
          let term := remaining ^ L in
          subsetLoop fuel' L sizes poolSize stack'
            (totalValid + (if parity =? 0 then term else - term))
        else subsetLoop fuel' L sizes poolSize stack' totalValid
      else
        match sizes !! i with
        | Some s_i =>
          subsetLoop fuel' L sizes poolSize
            (Frame (S i) (missing + s_i) (js_xor parity 1)
               :: Frame (S i) missing parity :: stack')
            totalValid
        | None => Throw TypeError
        end
    end
  end.

(** [countValidSequences(len, setSizes)].  The arguments are integers; a
    negative length or a negative size raises [RangeError]. *)
Definition countValidSequences (len : Z) (setSizes : list Z) : result Z :=
  if len <? 0 then Throw RangeError
  else if existsb (fun x => x <? 0) setSizes then Throw RangeError
  else
    let poolSize := reduce_sum setSizes in
    subsetLoop (2 ^ S (length setSizes))%nat len setSizes poolSize
      [Frame 0 0 0] 0.

(** ** The inclusion-exclusion formula, as the specification words it *)

Fixpoint subsets {A : Type} (l : list A) : list (list A) :=
  match l with
  | [] => [[]]
  | x :: l' => subsets l' ++ map (cons x) (subsets l')
  end.

Definition sum_list (l : list Z) : Z := fold_right Z.add 0 l.

(** Sum over all subsets [S] of the class indices of
    [(-1)^|S| * (N - sum of sizes[i] for i in S)^L]. *)
Definition inclusion_exclusion (L : Z) (sizes : list Z) : Z :=
  let N := sum_list sizes in
  sum_list
    (map (fun ss : list nat =>
            (-1) ^ Z.of_nat (length ss)
            * (N - sum_list (map (fun i => nth i sizes 0) ss)) ^ L)
         (subsets (seq 0 (length sizes)))).

(** A recursive form of the same sum, restricted to the classes flagged as
    still needed: each needed class either stays or is removed from the pool. *)
Fixpoint pie (R : Z) (cls : list (Z * bool)) (base : Z) : Z :=
  match cls with
  | [] => base ^ R
  | (s, need) :: cls' =>
    pie R cls' base - (if need then pie R cls' (base - s) else 0)
  end.

Definition all_needed (sizes : list Z) : list (Z * bool) :=
  map (fun s => (s, true)) sizes.

(** ** Combinatorics: [countRemaining] *)

(** The inner [for (let i = 0; i < k; i++)] loop: the pair
    [(missingSize, bits)] for the subset [sub]. *)
Definition missingOf (sizes : list Z) (sub : Z) : Z * Z :=
  fold_left
    (fun (acc : Z * Z) (i : nat) =>
       if js_and sub (js_shl 1 (Z.of_nat i)) =? 0 then acc
       else (fst acc + nth i sizes 0, snd acc + 1))
    (seq 0 (length sizes)) (0, 0).

(** The loop [for (let sub = neededMask; ; sub = (sub - 1) & neededMask)].
    A [continue] goes straight to the update of [sub]; the [break] test is
    the last statement of the body. *)
Fixpoint submaskLoop (fuel : nat) (R : Z) (sizes : list Z)
    (poolSize neededMask sub total : Z) : result Z :=
  match fuel with
  | O => Diverge
  | S fuel' =>
    let '(missingSize, bits) := missingOf sizes sub in
    let remainingSize := poolSize - missingSize in
    if remainingSize <? 0 then
      submaskLoop fuel' R sizes poolSize neededMask
        (js_and (sub - 1) neededMask) total
    else
      let term := remainingSize ^ R in
      let total' := if Z.rem bits 2 =? 0 then total + term else total - term in
      if sub =? 0 then Ok total'
      else
        submaskLoop fuel' R sizes poolSize neededMask
          (js_and (sub - 1) neededMask) total'
  end.

(** A value met where a number is expected: a number, or an array. *)
Inductive jsarg : Type :=
| ANum (n : Z)
| AArray (a : list Z).

(** [countRemaining(remLen, setSizes, currentMask)].  The mask check begins
    with [!Number.isInteger(currentMask)], which holds of every array. *)
Definition countRemaining (remLen : Z) (setSizes : list Z)
    (currentMask : jsarg) : result Z :=
  if remLen <? 0 then Throw RangeError
  else if existsb (fun x => x <? 0) setSizes then Throw RangeError
  else
    let k := Z.of_nat (length setSizes) in
    let allMask := js_shl 1 k - 1 in
    match currentMask with
    | AArray _ => Throw RangeError
    | ANum currentMask =>
      if (currentMask <? 0) || (allMask <? currentMask) then Throw RangeError
      else
        let poolSize := reduce_sum setSizes in
        let neededMask := js_xor allMask currentMask in
        submaskLoop (S (Z.to_nat neededMask)) remLen setSizes poolSize
          neededMask neededMask 0
    end.

(** The classes of [sizes], each flagged as still needed when its bit is
    unset in [mask]. *)
Definition needed_classes (sizes : list Z) (mask : Z) : list (Z * bool) :=
  imap (fun i s => (s, negb (Z.testbit mask (Z.of_nat i)))) sizes.

(** The number of completions the formula assigns to [remLen] further
    positions when the classes of [mask] are already satisfied. *)
Definition remaining_count (remLen : Z) (sizes : list Z) (mask : Z) : Z :=
  pie remLen (needed_classes sizes mask) (sum_list sizes).

(** The submasks of a [k]-bit mask [m], in decreasing order. *)
Fixpoint submasks (k : nat) (m : Z) : list Z :=
  match k with
  | O => [0]
  | S k' =>
    let l' := submasks k' (m / 2) in
    if Z.odd m then flat_map (fun s => [2 * s + 1; 2 * s]) l'
    else map (fun s => 2 * s) l'
  end.

Inductive chain (m : Z) : Z -> list Z -> Prop :=
| chain_zero : chain m 0 [0]
| chain_step (a : Z) (l : list Z) :
    0 < a -> Z.land a m = a -> chain m (Z.land (a - 1) m) l -> chain m a (a :: l).

(** The pair computed by [missingOf], by recursion on the classes. *)
Fixpoint miss (sizes : list Z) (t : Z) : Z :=
  match sizes with
  | [] => 0
  | s :: rest => (if Z.odd t then s else 0) + miss rest (t / 2)
  end.

Fixpoint popc (sizes : list Z) (t : Z) : Z :=
  match sizes with
  | [] => 0
  | _ :: rest => (if Z.odd t then 1 else 0) + popc rest (t / 2)
  end.

Definition subset_term (R : Z) (sizes : list Z) (base : Z) (t : Z) : Z :=
  if Z.rem (popc sizes t) 2 =? 0 then (base - miss sizes t) ^ R
  else - (base - miss sizes t) ^ R.

(** ** Strings, arrays and the number conversions the engine relies on *)

(** A JavaScript string indexed by position. *)
Abbreviation jsstring := (list ascii) (only parsing).

(** An array element: a one-character string, or [undefined] ([None]). *)
Abbreviation elem := (option ascii) (only parsing).

(** [a[i]] for a number [i]; out of range it is [undefined]. *)
Definition js_get {A : Type} (a : list A) (i : Z) : option A :=
  if i <? 0 then None else a !! Z.to_nat i.

(** [a[i] = v] on an array: in range it overwrites, past the end it extends
    the array with holes, and a negative index leaves the elements alone. *)
Definition js_set (a : list elem) (i : Z) (v : elem) : list elem :=
  if i <? 0 then a
  else
    let n := Z.to_nat i in
    if (n <? length a)%nat then <[n := v]> a
    else a ++ replicate (n - length a)%nat None ++ [v].

(** [String(undefined)] *)
Definition undefined_text : jsstring := list_ascii_of_string "undefined".

(** The text appended by [result += e]. *)
Definition elem_text (e : elem) : jsstring :=
  match e with
  | Some c => [c]
  | None => undefined_text
  end.

(** [array.join('')]: [undefined] elements contribute nothing. *)
Definition join (a : list elem) : jsstring :=
  flat_map (fun e => match e with Some c => [c] | None => [] end) a.

Fixpoint isPrefix (p s : jsstring) : bool :=
  match p, s with
  | [], _ => true
  | _ :: _, [] => false
  | a :: p', b :: s' => Ascii.eqb a b && isPrefix p' s'
  end.

Fixpoint isSubstring (p s : jsstring) : bool :=
  isPrefix p s || match s with [] => false | _ :: s' => isSubstring p s' end.

(** [set.includes(char)] for an array element [char]. *)
Definition includes (set : jsstring) (char : elem) : bool :=
  match char with
  | Some c => existsb (Ascii.eqb c) set
  | None => isSubstring undefined_text set
  end.

(** *** [parseInt] *)

Definition isWhiteSpace (c : ascii) : bool :=
  let n := nat_of_ascii c in
  ((9 <=? n) && (n <=? 13) || (n =? 32) || (n =? 160))%nat.

Definition digitValue (c : ascii) : option Z :=
  let n := Z.of_nat (nat_of_ascii c) in
  if (48 <=? n) && (n <=? 57) then Some (n - 48)
  else if (97 <=? n) && (n <=? 122) then Some (n - 87)
  else if (65 <=? n) && (n <=? 90) then Some (n - 55)
  else None.

(** The longest prefix of digits of the radix; [None] when there is none. *)
Fixpoint parseDigits (radix : Z) (s : jsstring) (acc : option Z) : option Z :=
  match s with
  | [] => acc
  | c :: s' =>
    match digitValue c with
    | Some d =>
      if d <? radix
      then parseDigits radix s' (Some (default 0 acc * radix + d))
      else acc
    | None => acc
    end
  end.

Fixpoint trimStart (s : jsstring) : jsstring :=
  match s with
  | c :: s' => if isWhiteSpace c then trimStart s' else s
  | [] => []
  end.

(** [parseInt(s, radix)]; radix [0] stands for an absent radix.  [None] is
    [NaN].  The value is the mathematical integer of the digits. *)
Definition parseInt (s : jsstring) (radix : Z) : option Z :=
  let s := trimStart s in
  let '(sign, s) :=
    match s with
    | "-"%char :: s' => (-1, s')
    | "+"%char :: s' => (1, s')
    | _ => (1, s)
    end in
  if negb (radix =? 0) && ((radix <? 2) || (36 <? radix)) then None
  else
    let strip := (radix =? 0) || (radix =? 16) in
    let R := if radix =? 0 then 10 else radix in
    let '(R, s) :=
      match s with
      | "0"%char :: "x"%char :: s' => if strip then (16, s') else (R, s)
      | "0"%char :: "X"%char :: s' => if strip then (16, s') else (R, s)
      | _ => (R, s)
      end in
    option_map (Z.mul sign) (parseDigits R s None).

(** *** [n.toString(16)] for a positive BigInt *)

Definition hexChars : jsstring := list_ascii_of_string "0123456789abcdef".

Fixpoint hexLoop (fuel : nat) (n : Z) (acc : jsstring) : jsstring :=
  let c := default "0"%char (js_get hexChars (n mod 16)) in
  match fuel with
  | O => c :: acc
  | S fuel' => if n <? 16 then c :: acc else hexLoop fuel' (n / 16) (c :: acc)
  end.

Definition toString16 (n : Z) : jsstring :=
  hexLoop (Z.to_nat (Z.log2 n)) n [].

(** *** Numbers as binary64 floats *)

(** [Number(n)] for an integer: round to nearest, ties to even. *)
Definition Number_of_Z (n : Z) : float :=
  SF2Prim (binary_normalize prec emax n 0 false).

(** [Math.floor(x)] as an integer; [None] for [NaN] and the infinities. *)
Definition floorZ (x : float) : option Z :=
  match Prim2SF x with
  | S754_zero _ => Some 0
  | S754_finite s m e =>
    let v := if 0 <=? e then Z.pos m * 2 ^ e else Z.pos m / 2 ^ (- e) in
    let exact := (0 <=? e) || (Z.pos m mod 2 ^ (- e) =? 0) in
    Some (if s then (if exact then - v else - v - 1) else v)
  | _ => None
  end.

(** The transcendental functions of the runtime's [Math] object. *)
Record MathLib : Type := {
  Math_log2 : float -> float;
  Math_log : float -> float;
  Math_log1p : float -> float;
  Math_exp : float -> float
}.

(** [Math.max(a, b)] *)
Definition Math_max (a b : float) : float :=
  if PrimFloat.is_nan a then a
  else if PrimFloat.is_nan b then b
  else if PrimFloat.ltb a b then b
  else if PrimFloat.eqb a b && PrimFloat.get_sign a then b
  else a.

(** ** Entropy analysis *)

(** [bigIntLog2(n)] *)
Definition bigIntLog2 (math : MathLib) (n : Z) : result float :=
  if n <=? 0 then Ok 0%float
  else
    let hex := toString16 n in
    match parseInt (take 1 hex) 16 with
    | None => Throw RangeError
    | Some firstNibble =>
      match floorZ (Math_log2 math (Number_of_Z firstNibble)) with
      | None => Throw RangeError
      | Some fl =>
        let firstBits := fl + 1 in
        let bitLen := (Z.of_nat (length hex) - 1) * 4 + firstBits in
        if bitLen <=? 53 then Ok (Math_log2 math (Number_of_Z n))
        else
          let shift := bitLen - 53 in
          let top := Number_of_Z (Z.shiftr n shift) in
          Ok (Math_log2 math top + Number_of_Z shift)%float
      end
    end.

(** [lnFact[0..n]]: the table of [ln(i!)]. *)
Fixpoint lnFactTable (math : MathLib) (n : nat) : list float :=
  match n with
  | O => [0%float]
  | S n' =>
    let t := lnFactTable math n' in
    t ++ [(default 0%float (last t)
           + Math_log math (Number_of_Z (Z.of_nat n)))%float]
  end.

(** [lnProb] for index [j] of the binomial sum. *)
Definition lnProbAt (lnFact : list float) (n : Z) (logP log1P : float) (j : Z)
    : float :=
  let at_ (i : Z) : float := default nan (js_get lnFact i) in
  let fn := at_ n in
  let fj := at_ j in
  let fnj := at_ (n - j) in
  let nj := Number_of_Z (n - j) in
  (((fn - fj - fnj) + Number_of_Z j * logP) + nj * log1P)%float.

(** [E[log2(X + 1)]] subtracted for one class of size [size]. *)
Definition subtractExpectation (math : MathLib) (lnFact : list float)
    (n N : Z) (entropy : float) (size : Z) : float :=
  let p := (Number_of_Z size / Number_of_Z N)%float in
  if PrimFloat.leb p 0%float then entropy
  else if PrimFloat.leb 1%float p then
    let l := Math_log2 math (Number_of_Z (n + 1)) in (entropy - l)%float
  else
    let logP := Math_log math p in
    let log1P := Math_log1p math (- p)%float in
    let js := map Z.of_nat (seq 0 (S (Z.to_nat n))) in
    let maxLn :=
      fold_left
        (fun m j =>
           let lnProb := lnProbAt lnFact n logP log1P j in
           if PrimFloat.ltb m lnProb then lnProb else m)
        js neg_infinity in
    let '(sumW, sumWL) :=
      fold_left
        (fun (acc : float * float) j =>
           let lnProb := lnProbAt lnFact n logP log1P j in
           let w := Math_exp math (lnProb - maxLn)%float in
           let l := Math_log2 math (Number_of_Z (j + 1)) in
           ((fst acc + w)%float, (snd acc + w * l)%float))
        js (0%float, 0%float) in
    if PrimFloat.ltb 0%float sumW then (entropy - sumWL / sumW)%float
    else entropy.

(** [calculateShannonEntropyGuaranteed(L, setSizes)] *)
Definition calculateShannonEntropyGuaranteed (math : MathLib) (L : Z)
    (setSizes : list Z) : float :=
  let k := Z.of_nat (length setSizes) in
  let N := reduce_sum setSizes in
  if (k =? 0) || (N <=? 0) || (L <? k) then 0%float
  else if L <? 0 then 0%float
  else if existsb (fun s => s <=? 0) setSizes then 0%float
  else
    let n := L - k in
    let entropy :=
      fold_left
        (fun e i => (e + Math_log2 math (Number_of_Z i))%float)
        (map (fun d => L - k + 1 + Z.of_nat d) (seq 0 (Z.to_nat k)))
        0%float in
    let entropy :=
      (entropy + Number_of_Z n * Math_log2 math (Number_of_Z N))%float in
    let entropy :=
      fold_left
        (fun e size =>
           if 0 <? size then (e + Math_log2 math (Number_of_Z size))%float
           else e)
        setSizes entropy in
    let lnFact := lnFactTable math (Z.to_nat n) in
    let entropy :=
      fold_left (subtractExpectation math lnFact n N) setSizes entropy in
    Math_max 0%float entropy.

(** The three method tags. *)
Definition pure_random : string := "pure_random".
Definition rejection_sampling : string := "rejection_sampling".
Definition combinatorial_sampling : string := "combinatorial_sampling".
Definition guaranteed_inclusion : string := "guaranteed_inclusion".

(** [calculateEntropy(len, poolSize, setSizes, forceEach, method)] on
    integer-valued [len] and [poolSize]. *)
Definition calculateEntropy (math : MathLib) (len poolSize : Z)
    (setSizes : list Z) (forceEach : bool) (method : string) : result float :=
  if (len <=? 0) || (poolSize <=? 0) then Ok 0%float
  else if String.eqb method guaranteed_inclusion && forceEach then
    Ok (calculateShannonEntropyGuaranteed math len setSizes)
  else if negb forceEach then
    let totalAll := poolSize ^ len in
    bigIntLog2 math totalAll
  else
    rbind (countValidSequences len setSizes)
      (fun totalValid =>
         if totalValid <=? 0 then Ok 0%float
         else bigIntLog2 math totalValid).

(** ** Entropy analysis on any number

    [calculateEntropy] is exported; [len] and [poolSize] may be any number:
    a fraction, an infinity or [NaN].  The sizes of the classes stay
    integers. *)

(** [Number.isFinite(x)] *)
Definition Number_isFinite (x : float) : bool :=
  match Prim2SF x with
  | S754_zero _ | S754_finite _ _ _ => true
  | _ => false
  end.

(** The integer that a number is: [Some n] when [Number.isInteger(x)] holds,
    [n] being the value of [x]; [None] for a fraction, an infinity and
    [NaN]. *)
Definition integerValue (x : float) : option Z :=
  match Prim2SF x with
  | S754_zero _ => Some 0
  | S754_finite s m e =>
    if (0 <=? e) || (Z.pos m mod 2 ^ (- e) =? 0) then
      let v := if 0 <=? e then Z.pos m * 2 ^ e else Z.pos m / 2 ^ (- e) in
      Some (if s then - v else v)
    else None
  | _ => None
  end.

(** [BigInt(x)] for a number: a [RangeError] unless [x] is an integer. *)
Definition BigInt (x : float) : result Z :=
  match integerValue x with
  | Some n => Ok n
  | None => Throw RangeError
  end.

(** [countValidSequences(len, setSizes)] for a number [len]: the first test
    throws unless [len] is a finite integer, which [BigInt(len)] then
    converts. *)
Definition countValidSequences_num (len : float) (setSizes : list Z)
    : result Z :=
  match integerValue len with
  | None => Throw RangeError
  | Some L => countValidSequences L setSizes
  end.

(** [calculateShannonEntropyGuaranteed(L, setSizes)] for a number [L]: when
    [L] is no integer the function leaves with [0], at
    [k === 0 || N <= 0 || L < k] or at [!Number.isInteger(L) || L < 0]. *)
Definition calculateShannonEntropyGuaranteed_num (math : MathLib) (L : float)
    (setSizes : list Z) : float :=
  match integerValue L with
  | None => 0%float
  | Some l => calculateShannonEntropyGuaranteed math l setSizes
  end.

(** [calculateEntropy(len, poolSize, setSizes, forceEach, method)] for
    numbers [len] and [poolSize]. *)
Definition calculateEntropy_num (math : MathLib) (len poolSize : float)
    (setSizes : list Z) (forceEach : bool) (method : string) : result float :=
  if negb (Number_isFinite len) || negb (Number_isFinite poolSize)
     || PrimFloat.leb len 0 || PrimFloat.leb poolSize 0 then Ok 0%float
  else if String.eqb method guaranteed_inclusion && forceEach then
    Ok (calculateShannonEntropyGuaranteed_num math len setSizes)
  else if negb forceEach then
    rbind (BigInt poolSize) (fun p =>
    rbind (BigInt len) (fun l =>
      let totalAll := p ^ l in
      bigIntLog2 math totalAll))
  else
    rbind (countValidSequences_num len setSizes)
      (fun totalValid =>
         if totalValid <=? 0 then Ok 0%float
         else bigIntLog2 math totalValid).

(** ** The random source and the sampling monad *)

(** [window.crypto]: whether [getRandomValues] exists, and what its [n]-th
    call does: it throws ([None]) or fills the typed array it is given,
    element [j] receiving [f j] reduced modulo the width of the element. *)
Record RandomSource : Type := {
  crypto_available : bool;
  getRandomValues : nat -> option (nat -> Z)
}.

(** The state threaded through a generation: the number of calls made to
    [getRandomValues], and a ghost history of the bounds that were passed to
    [getSecureRandomInt]. *)
Record rstate : Type := { calls : nat; asked : list Z }.

Definition initial_state : rstate := {| calls := 0; asked := [] |}.

Inductive outcome (A : Type) : Type :=
| Ret (a : A) (s : rstate)
| Raise (e : exn) (s : rstate)
| Hang (s : rstate).

Arguments Ret {A} a s.
Arguments Raise {A} e s.
Arguments Hang {A} s.

Definition M (A : Type) : Type := rstate -> outcome A.

Definition ret {A} (a : A) : M A := fun s => Ret a s.

Definition bindM {A B} (m : M A) (f : A -> M B) : M B :=
  fun s =>
    match m s with
    | Ret a s' => f a s'
    | Raise e s' => Raise e s'
    | Hang s' => Hang s'
    end.

Notation "x <- m ;; k" := (bindM m (fun x => k))
  (at level 100, m at next level, right associativity).

(** [try { m } catch (e) { h }] *)
Definition try_catch {A} (m : M A) (h : exn -> M A) : M A :=
  fun s =>
    match m s with
    | Raise e s' => h e s'
    | o => o
    end.

Definition lift {A} (r : result A) : M A :=
  fun s =>
    match r with
    | Ok a => Ret a s
    | Throw e => Raise e s
    | Diverge => Hang s
    end.

Definition RANGE : Z := 2 ^ 32.

(** The [do { ... } while (x >= limit)] loop over a [Uint32Array(1)]. *)
Fixpoint drawBelow (crypto : RandomSource) (fuel : nat) (limit max : Z)
    : M Z :=
  fun s =>
    match fuel with
    | O => Hang s
    | S fuel' =>
      let s' := {| calls := S (calls s); asked := asked s |} in
      match getRandomValues crypto (calls s) with
      | None => Raise CryptoError s'
      | Some f =>
        let x := f 0%nat mod 2 ^ 32 in
        if limit <=? x then drawBelow crypto fuel' limit max s'
        else Ret (Z.rem x max) s'
      end
    end.

(** [getSecureRandomInt(max)] for an integer [max]. *)
Definition getSecureRandomInt (crypto : RandomSource) (fuel : nat) (max : Z)
    : M Z :=
  fun s =>
    let s := {| calls := calls s; asked := max :: asked s |} in
    if max <=? 0 then Ret 0 s
    else if max =? 1 then Ret 0 s
    else
      let limit := RANGE / max * max in
      drawBelow crypto fuel limit max s.

(** [for (const b of buf) x = (x << 8n) + BigInt(b)] over a [Uint8Array]. *)
Definition bytesToBigInt (f : nat -> Z) (nBytes : nat) : Z :=
  fold_left (fun x j => Z.shiftl x 8 + f j mod 256) (seq 0 nBytes) 0.

(** The [while (true)] loop of [getSecureRandomBigInt]. *)
Fixpoint drawBigBelow (crypto : RandomSource) (fuel : nat) (nBytes : nat)
    (limit maxExclusive : Z) : M Z :=
  fun s =>
    match fuel with
    | O => Hang s
    | S fuel' =>
      let s' := {| calls := S (calls s); asked := asked s |} in
      match getRandomValues crypto (calls s) with
      | None => Raise CryptoError s'
      | Some f =>
        let x := bytesToBigInt f nBytes in
        if x <? limit then Ret (Z.rem x maxExclusive) s'
        else drawBigBelow crypto fuel' nBytes limit maxExclusive s'
      end
    end.

(** [getSecureRandomBigInt(maxExclusive)] *)
Definition getSecureRandomBigInt (crypto : RandomSource) (fuel : nat)
    (maxExclusive : Z) : M Z :=
  if maxExclusive <=? 1 then ret 0
  else
    let hex := toString16 (maxExclusive - 1) in
    let hexLength :=
      if Nat.even (length hex) then length hex else S (length hex) in
    let nBytes := (hexLength / 2)%nat in
    let range := Z.shiftl 1 (8 * Z.of_nat nBytes) in
    let limit := Z.quot range maxExclusive * maxExclusive in
    drawBigBelow crypto fuel nBytes limit maxExclusive.

(** The [for] loop of [fisherYatesShuffle]; [i] is the current index. *)
Fixpoint shuffleLoop (crypto : RandomSource) (fuel : nat) (i : nat)
    (array : list elem) : M (list elem) :=
  match i with
  | O => ret array
  | S i' =>
    j <- getSecureRandomInt crypto fuel (Z.of_nat i + 1) ;;
    let ai := default None (js_get array (Z.of_nat i)) in
    let aj := default None (js_get array j) in
    shuffleLoop crypto fuel i' (js_set (js_set array (Z.of_nat i) aj) j ai)
  end.

(** [fisherYatesShuffle(array)] *)
Definition fisherYatesShuffle (crypto : RandomSource) (fuel : nat)
    (array : list elem) : M (list elem) :=
  shuffleLoop crypto fuel (length array - 1) array.

(** [fisherYatesShuffleStr(str)] *)
Definition fisherYatesShuffleStr (crypto : RandomSource) (fuel : nat)
    (str : jsstring) : M jsstring :=
  a <- fisherYatesShuffle crypto fuel (map Some str) ;;
  ret (join a).

(** [ensureCrypto()] *)
Definition ensureCrypto (crypto : RandomSource) : M unit :=
  if crypto_available crypto then ret tt else lift (Throw CryptoError).

(** ** Character classes and options *)

Definition dquote : ascii := ascii_of_nat 34.

Definition LOWER : jsstring := list_ascii_of_string "abcdefghijklmnopqrstuvwxyz".
Definition UPPER : jsstring := list_ascii_of_string "ABCDEFGHIJKLMNOPQRSTUVWXYZ".
Definition NUMS : jsstring := list_ascii_of_string "0123456789".
Definition SYMBOLS : jsstring :=
  list_ascii_of_string "'" ++ [dquote]
  ++ list_ascii_of_string "\!@#$%^&*()_+~`|}{[]:;?><,./-=".
Definition AMBIGUOUS : jsstring := list_ascii_of_string "il1I|Lo0O2Z5S8B".
Definition CODE_UNSAFE : jsstring :=
  list_ascii_of_string "'" ++ [dquote]
  ++ list_ascii_of_string "\$^*()+~|}{[]?><./".

(** A value given for [length]: an integer-valued number below [10^21] in
    magnitude (its string form is its decimal expansion), a string, or a
    value whose string form holds no leading integer ([undefined], [null],
    [NaN], an object). *)
Inductive lengthValue : Type :=
| LNum (n : Z)
| LStr (s : jsstring)
| LOther.

(** The options object; an absent field is [None]. *)
Record Options : Type := {
  opt_length : option lengthValue;
  opt_upper : option bool;
  opt_lower : option bool;
  opt_nums : option bool;
  opt_symbols : option bool;
  opt_forceEach : option bool;
  opt_ambig : option bool;
  opt_unsafe : option bool
}.

(** [parseInt(opts.length)] *)
Definition parseLength (v : lengthValue) : option Z :=
  match v with
  | LNum n => Some n
  | LStr s => parseInt s 0
  | LOther => None
  end.

Record ActiveSetConfiguration : Type := {
  cfg_length : Z;
  cfg_activeSets : list jsstring;
  cfg_forceEach : bool
}.

(** [applyFilters(baseSet, isSymbol)] *)
Definition applyFilters (ambig unsafe : bool) (baseSet : jsstring)
    (isSymbol : bool) : jsstring :=
  let filtered :=
    if ambig
    then List.filter (fun c => negb (includes AMBIGUOUS (Some c))) baseSet
    else baseSet in
  if isSymbol && unsafe
  then List.filter (fun c => negb (includes CODE_UNSAFE (Some c))) filtered
  else filtered.

(** [prepareActiveSets(options)], with [DEFAULT_OPTIONS] merged in. *)
Definition prepareActiveSets (options : Options) : ActiveSetConfiguration :=
  let len := default (LNum 18) (opt_length options) in
  let upper := default true (opt_upper options) in
  let lower := default true (opt_lower options) in
  let nums := default true (opt_nums options) in
  let symbols := default true (opt_symbols options) in
  let forceEach := default true (opt_forceEach options) in
  let ambig := default false (opt_ambig options) in
  let unsafe := default false (opt_unsafe options) in
  let sets :=
    (if upper then [applyFilters ambig unsafe UPPER false] else [])
    ++ (if lower then [applyFilters ambig unsafe LOWER false] else [])
    ++ (if nums then [applyFilters ambig unsafe NUMS false] else [])
    ++ (if symbols then [applyFilters ambig unsafe SYMBOLS true] else []) in
  let parsed :=
    match parseLength len with
    | Some n => if n =? 0 then 16 else n
    | None => 16
    end in
  {| cfg_length := Z.max 5 (Z.min 128 parsed);
     cfg_activeSets := List.filter (fun s => (0 <? length s)%nat) sets;
     cfg_forceEach := forceEach |}.

(** ** Sampling strategies *)

(** [activeSets.some(set => !temp.some(char => set.includes(char)))] *)
Definition isMissing (activeSets : list jsstring) (temp : list elem) : bool :=
  existsb (fun set => negb (existsb (fun char => includes set char) temp))
    activeSets.

(** [length] pushes of [pool[getSecureRandomInt(pool.length)]]. *)
Fixpoint drawChars (crypto : RandomSource) (fuel : nat) (n : nat)
    (pool : jsstring) (temp : list elem) : M (list elem) :=
  match n with
  | O => ret temp
  | S n' =>
    i <- getSecureRandomInt crypto fuel (Z.of_nat (length pool)) ;;
    drawChars crypto fuel n' pool (temp ++ [js_get pool i])
  end.

(** The [while (attempts < 1000)] loop; [null] is [None]. *)
Fixpoint attemptLoop (crypto : RandomSource) (fuel : nat) (attempts : nat)
    (len : Z) (pool : jsstring) (activeSets : list jsstring)
    (forceEach : bool) : M (option (list elem)) :=
  match attempts with
  | O => ret None
  | S attempts' =>
    temp <- drawChars crypto fuel (Z.to_nat len) pool [] ;;
    if forceEach && isMissing activeSets temp
    then attemptLoop crypto fuel attempts' len pool activeSets forceEach
    else ret (Some temp)
  end.

(** [tryRandomSampling(length, pool, activeSets, forceEach)] *)
Definition tryRandomSampling (crypto : RandomSource) (fuel : nat) (len : Z)
    (pool : jsstring) (activeSets : list jsstring) (forceEach : bool)
    : M (option (list elem)) :=
  attemptLoop crypto fuel 1000 len pool activeSets forceEach.

(** The [activeSets.forEach] of [generateGuaranteed]. *)
Fixpoint pickEach (crypto : RandomSource) (fuel : nat)
    (sets : list jsstring) (passwordArr : list elem) : M (list elem) :=
  match sets with
  | [] => ret passwordArr
  | set :: sets' =>
    i <- getSecureRandomInt crypto fuel (Z.of_nat (length set)) ;;
    pickEach crypto fuel sets' (passwordArr ++ [js_get set i])
  end.

(** [generateGuaranteed(length, pool, activeSets)] *)
Definition generateGuaranteed (crypto : RandomSource) (fuel : nat) (len : Z)
    (pool : jsstring) (activeSets : list jsstring) : M (list elem) :=
  passwordArr <- pickEach crypto fuel activeSets [] ;;
  drawChars crypto fuel (Z.to_nat (len - Z.of_nat (length passwordArr)))
    pool passwordArr.

(** *** Combinatorial unranking *)

(** The variables of the unranking loop. *)
Record unranking : Type := {
  u_rank : Z;
  u_mask : Z;
  u_result : jsstring;
  u_memo : gmap (Z * list Z) Z
}.

(** The key [`${r}|${m}`] of the memo map: the text of a one-element array is
    the text of its element. *)
Definition memoKey (r : Z) (m : jsarg) : Z * list Z :=
  (r, match m with ANum n => [n] | AArray a => a end).

(** [countRem(r, m)]: [countRemaining] behind the [memo] map. *)
Definition countRem (setSizes : list Z) (memo : gmap (Z * list Z) Z) (r : Z)
    (m : jsarg) : result (Z * gmap (Z * list Z) Z) :=
  match memo !! memoKey r m with
  | Some v => Ok (v, memo)
  | None =>
    rbind (countRemaining r setSizes m)
      (fun v => Ok (v, <[memoKey r m := v]> memo))
  end.

(** The loop over [sIdx]; the boolean is [found].  [countRem] takes the two
    parameters [(r, m)] and is called as [countRem(remLen, setSizes, nextMask)]:
    [m] is bound to the array [setSizes] and [nextMask] is dropped. *)
Fixpoint classLoop (activeSets : list jsstring) (setSizes : list Z)
    (remLen : Z) (sIdxs : list nat) (u : unranking)
    : result (bool * unranking) :=
  match sIdxs with
  | [] => Ok (false, u)
  | sIdx :: rest =>
    let nextMask := js_or (u_mask u) (js_shl 1 (Z.of_nat sIdx)) in
    rbind (countRem setSizes (u_memo u) remLen (AArray setSizes))
      (fun '(waysWithThisSet, memo) =>
         let u := {| u_rank := u_rank u; u_mask := u_mask u;
                     u_result := u_result u; u_memo := memo |} in
         if waysWithThisSet =? 0
         then classLoop activeSets setSizes remLen rest u
         else
           match setSizes !! sIdx, activeSets !! sIdx with
           | Some size, Some set =>
             let totalWaysForThisCategory := size * waysWithThisSet in
             if u_rank u <? totalWaysForThisCategory then
               let charIdx := Z.quot (u_rank u) waysWithThisSet in
               Ok (true,
                   {| u_rank := Z.rem (u_rank u) waysWithThisSet;
                      u_mask := nextMask;
                      u_result := u_result u ++ elem_text (js_get set charIdx);
                      u_memo := memo |})
             else
               classLoop activeSets setSizes remLen rest
                 {| u_rank := u_rank u - totalWaysForThisCategory;
                    u_mask := u_mask u;
                    u_result := u_result u; u_memo := memo |}
           | _, _ => Throw TypeError
           end)
  end.

(** The loop over the positions [i]; [None] is the [return null]. *)
Fixpoint positionLoop (activeSets : list jsstring) (setSizes : list Z)
    (len : Z) (positions : list nat) (u : unranking)
    : result (option unranking) :=
  match positions with
  | [] => Ok (Some u)
  | i :: rest =>
    let remLen := len - 1 - Z.of_nat i in
    rbind (classLoop activeSets setSizes remLen
             (seq 0 (length activeSets)) u)
      (fun '(found, u') =>
         if found then positionLoop activeSets setSizes len rest u'
         else Ok None)
  end.

(** The part of [generateCombinatorial] that follows the draw of [rank]:
    the characters of [result], or [None] for [null]. *)
Definition unrank (len : Z) (activeSets : list jsstring) (rank : Z)
    : result (option jsstring) :=
  let setSizes := map (fun s => Z.of_nat (length s)) activeSets in
  rbind (positionLoop activeSets setSizes len (seq 0 (Z.to_nat len))
           {| u_rank := rank; u_mask := 0; u_result := [];
              u_memo := ∅ |})
    (fun r => Ok (option_map u_result r)).

(** [generateCombinatorial(length, activeSets)] *)
Definition generateCombinatorial (crypto : RandomSource) (fuel : nat)
    (len : Z) (activeSets : list jsstring) : M (option (list elem)) :=
  let setSizes := map (fun s => Z.of_nat (length s)) activeSets in
  totalValid <- lift (countValidSequences len setSizes) ;;
  rank <- getSecureRandomBigInt crypto fuel totalValid ;;
  r <- lift (unrank len activeSets rank) ;;
  ret (option_map (map Some) r).

(** ** The public entry point *)

Inductive configError : Type :=
| NoClassSelected
| LengthBelowMinimum (required : nat).

(** The record returned by [generatePassword]: either [error] is present
    (and there is no [method]), or [method] is. *)
Record GenerationResult : Type := {
  password : jsstring;
  entropy : float;
  method : option string;
  error : option configError
}.

(** [!passwordArr || passwordArr.length === 0] *)
Definition noPassword (passwordArr : option (list elem)) : bool :=
  match passwordArr with
  | None => true
  | Some a => (length a =? 0)%nat
  end.

(** [generatePassword(rawOptions)] *)
Definition generatePassword (math : MathLib) (crypto : RandomSource)
    (fuel : nat) (rawOptions : Options) : M GenerationResult :=
  _ <- ensureCrypto crypto ;;
  let cfg := prepareActiveSets rawOptions in
  let len := cfg_length cfg in
  let activeSets := cfg_activeSets cfg in
  let forceEach := cfg_forceEach cfg in
  if (length activeSets =? 0)%nat then
    ret {| password := []; entropy := 0%float; method := None;
           error := Some NoClassSelected |}
  else if forceEach && (len <? Z.of_nat (length activeSets)) then
    ret {| password := []; entropy := 0%float; method := None;
           error := Some (LengthBelowMinimum (length activeSets)) |}
  else
    let pool := concat activeSets in
    let setSizes := map (fun s => Z.of_nat (length s)) activeSets in
    passwordArr <-
      try_catch (tryRandomSampling crypto fuel len pool activeSets forceEach)
        (fun _ => ret None) ;;
    tier2 <-
      (if negb (noPassword passwordArr) then
         ret (passwordArr, rejection_sampling)
       else if forceEach then
         try_catch
           (a <- generateCombinatorial crypto fuel len activeSets ;;
            ret (a, combinatorial_sampling))
           (fun _ => ret (None, pure_random))
       else ret (passwordArr, pure_random)) ;;
    tier3 <-
      (if noPassword (fst tier2) then
         a <- try_catch (generateGuaranteed crypto fuel len pool activeSets)
                (fun _ => ret []) ;;
         ret (a, guaranteed_inclusion)
       else ret (default [] (fst tier2), snd tier2)) ;;
    shuffled <- fisherYatesShuffle crypto fuel (fst tier3) ;;
    let password := join shuffled in
    entropy <-
      lift (calculateEntropy math len (Z.of_nat (length pool)) setSizes
              forceEach (snd tier3)) ;;
    ret {| password := password; entropy := entropy;
           method := Some (snd tier3); error := None |}.

(** The options of [generateMasterPassword]. *)
Definition masterOptions : Options :=
  {| opt_length := Some (LNum 12); opt_upper := Some true;
     opt_lower := Some true; opt_nums := Some true;
     opt_symbols := Some false; opt_forceEach := Some true;
     opt_ambig := Some true; opt_unsafe := None |}.

(** [generateMasterPassword()] *)
Definition generateMasterPassword (math : MathLib) (crypto : RandomSource)
    (fuel : nat) : M GenerationResult :=
  generatePassword math crypto fuel masterOptions.

(** The class [c] marked as satisfied. *)
Definition satisfy (c : nat) (cls : list (Z * bool)) : list (Z * bool) :=
  alter (fun p => (fst p, false)) c cls.

(** All sequences of length [n] over [pool]. *)
Fixpoint all_seqs {A : Type} (n : nat) (pool : list A) : list (list A) :=
  match n with
  | O => [[]]
  | S n' => flat_map (fun a => map (cons a) (all_seqs n' pool)) pool
  end.

(** Some position of [seq] holds a character of the class [cls]. *)
Definition hits {A : Type} `{EqDecision A} (seq cls : list A) : bool :=
  existsb (fun ch => bool_decide (ch ∈ cls)) seq.

(** Every class flagged in [needed] is hit by [seq]. *)
Definition covers {A : Type} `{EqDecision A} (classes : list (list A))
    (needed : list bool) (seq : list A) : bool :=
  forallb (fun p => negb (snd p) || hits seq (fst p)) (zip classes needed).

(** Every class is hit by [seq]. *)
Definition covers_all {A : Type} `{EqDecision A} (classes : list (list A))
    (seq : list A) : bool :=
  forallb (hits seq) classes.

(** The flags left once the character [a] has been placed. *)
Definition after_char {A : Type} `{EqDecision A} (classes : list (list A))
    (needed : list bool) (a : A) : list bool :=
  zip_with (fun cls nd => nd && negb (bool_decide (a ∈ cls))) classes needed.

(** The sizes of a list of classes. *)
Definition class_sizes {A : Type} (classes : list (list A)) : list Z :=
  map (fun cls => Z.of_nat (length cls)) classes.

(** The alphabet of a list of class sizes: class [c] holds the characters
    [(c, 0) .. (c, size - 1)]. *)
Definition tagged_classes (sizes : list Z) : list (list (nat * nat)) :=
  imap (fun c s => map (pair c) (seq 0 (Z.to_nat s))) sizes.

(** The formula of [countRemaining] as the specification words it: the
    inclusion-exclusion sum over the subsets of the classes whose bit is
    unset in [mask]. *)
Definition restricted_inclusion_exclusion (R : Z) (sizes : list Z) (mask : Z)
    : Z :=
  let N := sum_list sizes in
  let unset :=
    List.filter (fun i => negb (Z.testbit mask (Z.of_nat i)))
      (seq 0 (length sizes)) in
  sum_list
    (map (fun ss : list nat =>
            (-1) ^ Z.of_nat (length ss)
            * (N - sum_list (map (fun i => nth i sizes 0) ss)) ^ R)
         (subsets unset)).

(** ** Vocabulary for the properties of the sampling pipeline *)

Definition final_state {A : Type} (o : outcome A) : rstate :=
  match o with
  | Ret _ s => s
  | Raise _ s => s
  | Hang s => s
  end.

(** No call to [getRandomValues] throws. *)
Definition reliable (crypto : RandomSource) : Prop :=
  forall n, is_Some (getRandomValues crypto n).

(** Among any [W] consecutive calls, one delivers a first element below half
    of its range, as a 32-bit word and as a byte. *)
Definition fair (crypto : RandomSource) (W : nat) : Prop :=
  forall n, exists j f,
    (j < W)%nat /\ getRandomValues crypto (n + j) = Some f
    /\ f 0%nat mod 2 ^ 32 < 2 ^ 31 /\ f 0%nat mod 256 < 128.

(** A property of states kept by every call to [getRandomValues] and by
    every request whose bound is at most [B]. *)
Record invariant (B : Z) (I : rstate -> Prop) : Prop := {
  inv_call : forall s, I s -> I {| calls := S (calls s); asked := asked s |};
  inv_ask : forall s max, max <= B -> I s ->
                          I {| calls := calls s; asked := max :: asked s |}
}.

(** From a state satisfying [I], [m] ends in a state satisfying [I], and a
    returned value satisfies [Q]. *)
Definition post {A : Type} (I : rstate -> Prop) (m : M A) (Q : A -> Prop)
    : Prop :=
  forall s, I s ->
    match m s with
    | Ret a s' => I s' /\ Q a
    | Raise _ s' => I s'
    | Hang s' => I s'
    end.

(** [m] never hangs. *)
Definition halts {A : Type} (m : M A) : Prop :=
  forall s, match m s with Hang _ => False | _ => True end.

(** [m] never throws. *)
Definition noraise {A : Type} (m : M A) : Prop :=
  forall s, match m s with Raise _ _ => False | _ => True end.

(** The requested length after [parseInt(opts.length) || 16]. *)
Definition requestedLength (options : Options) : Z :=
  match parseLength (default (LNum 18) (opt_length options)) with
  | Some n => if n =? 0 then 16 else n
  | None => 16
  end.

(** The array covers the class: one of its elements is a character of it. *)
Definition array_hits (a : list elem) (set : jsstring) : Prop :=
  exists c, Some c ∈ a /\ c ∈ set.

(** ** Concrete environments, used to run the engine *)

(** A crude [Math] object: logarithms rounded down to an integer. *)
Definition integerMath : MathLib :=
  {| Math_log2 := fun x => Number_of_Z (Z.log2 (default 0 (floorZ x)));
     Math_log := fun x => Number_of_Z (Z.log2 (default 0 (floorZ x)));
     Math_log1p := fun x => x;
     Math_exp := fun _ => 1%float |}.

(** A source that cycles through values by a linear congruence. *)
Definition lcgSource : RandomSource :=
  {| crypto_available := true;
     getRandomValues := fun n =>
       Some (fun j => 1103515245 * (Z.of_nat n * 7 + Z.of_nat j) + 12345) |}.

(** A source that only ever delivers zeros. *)
Definition zeroSource : RandomSource :=
  {| crypto_available := true;
     getRandomValues := fun _ => Some (fun _ => 0) |}.

(** A source whose [getRandomValues] exists but throws at every call. *)
Definition brokenSource : RandomSource :=
  {| crypto_available := true; getRandomValues := fun _ => None |}.

(** [{}]: every option absent. *)
Definition noOptions : Options :=
  {| opt_length := None; opt_upper := None; opt_lower := None;
     opt_nums := None; opt_symbols := None; opt_forceEach := None;
     opt_ambig := None; opt_unsafe := None |}.

(** [{ length: n }] *)
Definition lengthOnly (v : lengthValue) : Options :=
  {| opt_length := Some v; opt_upper := None; opt_lower := None;
     opt_nums := None; opt_symbols := None; opt_forceEach := None;
     opt_ambig := None; opt_unsafe := None |}.

(** [{length:3, upper:true, lower:true, nums:true, symbols:true,
      forceEach:true}] *)
Definition shortOptions : Options :=
  {| opt_length := Some (LNum 3); opt_upper := Some true;
     opt_lower := Some true; opt_nums := Some true;
     opt_symbols := Some true; opt_forceEach := Some true;
     opt_ambig := None; opt_unsafe := None |}.

Definition index_below (max x : Z) : Prop :=
  (max <= 1 /\ x = 0) \/ (1 < max /\ 0 <= x < max).

Definition sampled (len : Z) (pool : jsstring) (activeSets : list jsstring)
    (forceEach : bool) (temp : list elem) : Prop :=
  exists chars,
    temp = map Some chars /\ length chars = Z.to_nat len
    /\ Forall (fun c => c ∈ pool) chars
    /\ (forceEach = true -> isMissing activeSets temp = false).

Definition guaranteed (len : Z) (activeSets : list jsstring) (a : list elem)
    : Prop :=
  exists chars,
    a = map Some chars
    /\ (length chars
        = length activeSets + Z.to_nat (len - Z.of_nat (length activeSets)))%nat
    /\ Forall (fun set => exists c, c ∈ chars /\ c ∈ set) activeSets.

Definition covering (activeSets : list jsstring) (chars : list ascii) : Prop :=
  Forall (fun set => exists c, c ∈ chars /\ c ∈ set) activeSets.

(** The array handed to the shuffler: empty after a failure of all three
    tiers, which takes a source that throws; otherwise characters of the
    clamped length, covering every class when [forceEach] holds. *)
Definition delivered (crypto : RandomSource) (cfg : ActiveSetConfiguration)
    (a : list elem) : Prop :=
  (a = [] /\ ~ reliable crypto)
  \/ exists chars,
       a ≡ₚ map Some chars
       /\ length chars = Z.to_nat (cfg_length cfg)
       /\ (cfg_forceEach cfg = true -> covering (cfg_activeSets cfg) chars).

Definition generated (crypto : RandomSource) (options : Options)
    (r : GenerationResult) : Prop :=
  let cfg := prepareActiveSets options in
  match error r with
  | Some NoClassSelected => cfg_activeSets cfg = []
  | Some (LengthBelowMinimum _) =>
    cfg_forceEach cfg = true
    /\ cfg_length cfg < Z.of_nat (length (cfg_activeSets cfg))
  | None =>
    cfg_activeSets cfg <> []
    /\ exists a, password r = join a /\ delivered crypto cfg a
  end.

(** The first tier fails: it throws, or returns [null] or an empty array. *)
Definition tier1_fails (crypto : RandomSource) (fuel : nat)
    (cfg : ActiveSetConfiguration) (s s1 : rstate) : Prop :=
  let o := tryRandomSampling crypto fuel (cfg_length cfg)
             (concat (cfg_activeSets cfg)) (cfg_activeSets cfg)
             (cfg_forceEach cfg) s in
  (exists e, o = Raise e s1) \/ (exists r, o = Ret r s1 /\ noPassword r = true).

(** The second tier fails: it is skipped (no [forceEach]), throws, or returns
    [null] or an empty array. *)
Definition tier2_fails (crypto : RandomSource) (fuel : nat)
    (cfg : ActiveSetConfiguration) (s1 s2 : rstate) : Prop :=
  if cfg_forceEach cfg then
    let o := generateCombinatorial crypto fuel (cfg_length cfg)
               (cfg_activeSets cfg) s1 in
    (exists e, o = Raise e s2)
    \/ (exists r, o = Ret r s2 /\ noPassword r = true)
  else s2 = s1.

(** The third tier fails: it throws. *)
Definition tier3_fails (crypto : RandomSource) (fuel : nat)
    (cfg : ActiveSetConfiguration) (s2 s3 : rstate) : Prop :=
  exists e,
    generateGuaranteed crypto fuel (cfg_length cfg)
      (concat (cfg_activeSets cfg)) (cfg_activeSets cfg) s2
    = Raise e s3.

(** The character of the hexadecimal digit [d]. *)
Definition hexChar (d : Z) : ascii := default "0"%char (js_get hexChars d).

(** [Math.log2] has the right integer part on the hexadecimal digits. *)
Definition log2_floor_ok (math : MathLib) : Prop :=
  forall v, 1 <= v <= 15 ->
    floorZ (Math_log2 math (Number_of_Z v)) = Some (Z.log2 v).

(** [Math.log2] is finite on the hexadecimal digits. *)
Definition log2_finite (math : MathLib) : Prop :=
  forall v, 1 <= v <= 15 ->
    is_Some (floorZ (Math_log2 math (Number_of_Z v))).

(** [Math.log2] is exact on the powers of two that fit a mantissa. *)
Definition log2_exact_on_powers (math : MathLib) : Prop :=
  forall e, 0 <= e <= 52 ->
    Math_log2 math (Number_of_Z (2 ^ e)) = Number_of_Z e.

(** The float [x] is exactly the integer [n]. *)
Definition exactly (x : float) (n : Z) : Prop :=
  match Prim2SF x with
  | S754_zero _ => n = 0
  | S754_finite s m e =>
    -1074 <= e
    /\ (if s then - Z.pos m else Z.pos m) * 2 ^ (e + 1074) = n * 2 ^ 1074
  | _ => False
  end.

(** The number of bits of a positive integer. *)
Definition bitLength (n : Z) : Z := Z.log2 n + 1.

(** A configuration that passed the two checks of [generatePassword]. *)
Definition usable (cfg : ActiveSetConfiguration) : Prop :=
  0 < cfg_length cfg <= 128
  /\ Z.of_nat (length (cfg_activeSets cfg)) <= cfg_length cfg
  /\ cfg_activeSets cfg <> []
  /\ Forall (fun set => set <> [] /\ Z.of_nat (length set) <= 128)
       (cfg_activeSets cfg)
  /\ Z.of_nat (length (concat (cfg_activeSets cfg))) <= 128.

(** The three tiers of [generatePassword], as it chains them. *)
Definition firstTier (crypto : RandomSource) (fuel : nat)
    (cfg : ActiveSetConfiguration) : M (option (list elem)) :=
  try_catch
    (tryRandomSampling crypto fuel (cfg_length cfg)
       (concat (cfg_activeSets cfg)) (cfg_activeSets cfg) (cfg_forceEach cfg))
    (fun _ => ret None).

Definition secondTier (crypto : RandomSource) (fuel : nat)
    (cfg : ActiveSetConfiguration) (passwordArr : option (list elem))
    : M (option (list elem) * string) :=
  if negb (noPassword passwordArr) then
    ret (passwordArr, rejection_sampling)
  else if cfg_forceEach cfg then
    try_catch
      (a <- generateCombinatorial crypto fuel (cfg_length cfg)
              (cfg_activeSets cfg) ;;
       ret (a, combinatorial_sampling))
      (fun _ => ret (None, pure_random))
  else ret (passwordArr, pure_random).

Definition thirdTier (crypto : RandomSource) (fuel : nat)
    (cfg : ActiveSetConfiguration) (tier2 : option (list elem) * string)
    : M (list elem * string) :=
  if noPassword (fst tier2) then
    a <- try_catch
           (generateGuaranteed crypto fuel (cfg_length cfg)
              (concat (cfg_activeSets cfg)) (cfg_activeSets cfg))
           (fun _ => ret []) ;;
    ret (a, guaranteed_inclusion)
  else ret (default [] (fst tier2), snd tier2).

(** ** Invariant of the stack loop of [countValidSequences] *)

(** The sign carried by a frame. *)
Definition sign_of (parity : Z) : Z := if parity =? 0 then 1 else -1.

(** What the subtree below a frame contributes to the total. *)
Definition frame_val (L : Z) (sizes : list Z) (poolSize : Z) (f : frame) : Z :=
  sign_of (frame_parity f)
  * pie L (all_needed (drop (frame_i f) sizes)) (poolSize - frame_missing f).

(** The number of pops a subtree of depth [d] takes. *)
Fixpoint tree_weight (d : nat) : nat :=
  match d with
  | O => 1
  | S d' => S (2 * tree_weight d')
  end.

Definition frame_weight (sizes : list Z) (f : frame) : nat :=
  tree_weight (length sizes - frame_i f).

Definition frame_ok (sizes : list Z) (f : frame) : Prop :=
  (frame_i f <= length sizes)%nat
  /\ (frame_parity f = 0 \/ frame_parity f = 1)
  /\ frame_missing f <= sum_list (take (frame_i f) sizes).

Definition stack_val (L : Z) (sizes : list Z) (poolSize : Z) (st : list frame) : Z :=
  sum_list (map (frame_val L sizes poolSize) st).

Definition stack_weight (sizes : list Z) (st : list frame) : nat :=
  fold_right Nat.add 0%nat (map (frame_weight sizes) st).

(** ** Vocabulary for further properties of the engine *)



(** The number of elements of [l] that satisfy [P]. *)
Definition count_if {A : Type} (P : A -> bool) (l : list A) : Z :=
  Z.of_nat (length (List.filter P l)).

(** The number of bytes [getSecureRandomBigInt(maxExclusive)] draws at each
    pass, and its acceptance threshold. *)
Definition byteCount (maxExclusive : Z) : nat :=
  let hex := toString16 (maxExclusive - 1) in
  let hexLength :=
    if Nat.even (length hex) then length hex else S (length hex) in
  (hexLength / 2)%nat.

Definition bigLimit (maxExclusive : Z) : Z :=
  let range := Z.shiftl 1 (8 * Z.of_nat (byteCount maxExclusive)) in
  Z.quot range maxExclusive * maxExclusive.

(** Whatever its outcome, [m] passes at most [n] bounds to
    [getSecureRandomInt]. *)
Definition asks {A : Type} (m : M A) (n : nat) : Prop :=
  forall s, (length (asked (final_state (m s))) <= length (asked s) + n)%nat.

(** No class is selected: [upper], [lower], [nums] and [symbols] are all
    false once the defaults are merged in. *)
Definition noClass (options : Options) : bool :=
  negb (default true (opt_upper options))
  && negb (default true (opt_lower options))
  && negb (default true (opt_nums options))
  && negb (default true (opt_symbols options)).

(** A list of characters without repetition, as a test. *)
Fixpoint nodupb (l : jsstring) : bool :=
  match l with
  | [] => true
  | c :: l' => negb (existsb (Ascii.eqb c) l') && nodupb l'
  end.

(** The facts checked on the classes of every combination of options. *)
Definition classes_ok (ambig unsafe : bool) (sets : list jsstring) : bool :=
  forallb (fun s : jsstring => negb (Nat.eqb (length s) 0)) sets
  && nodupb (concat sets)
  && forallb (fun c => includes (UPPER ++ LOWER ++ NUMS ++ SYMBOLS) (Some c))
       (concat sets)
  && (negb ambig
      || forallb (fun c => negb (includes AMBIGUOUS (Some c))) (concat sets))
  && (negb unsafe
      || forallb (fun c => negb (includes CODE_UNSAFE (Some c))) (concat sets)).

(** The array handed to the shuffler, with the method tag: the array of the
    first tier, or the one of the third tier (empty if it threw). *)
Definition handed (crypto : RandomSource) (cfg : ActiveSetConfiguration)
    (t3 : list elem * string) : Prop :=
  (snd t3 = rejection_sampling /\ fst t3 <> []
   /\ sampled (cfg_length cfg) (concat (cfg_activeSets cfg))
        (cfg_activeSets cfg) (cfg_forceEach cfg) (fst t3))
  \/ (snd t3 = guaranteed_inclusion
      /\ (fst t3 = []
          \/ exists picks fill,
               fst t3 = map Some (picks ++ fill)
               /\ Forall2 (fun set c => c ∈ set) (cfg_activeSets cfg) picks
               /\ Forall (fun c => c ∈ concat (cfg_activeSets cfg)) fill)).

(** The base classes that the options switch off are absent from the
    classes, as a test. *)
Definition classes_selected (upper lower nums symbols : bool)
    (sets : list jsstring) : bool :=
  (upper || forallb (fun c => negb (includes UPPER (Some c))) (concat sets))
  && (lower || forallb (fun c => negb (includes LOWER (Some c))) (concat sets))
  && (nums || forallb (fun c => negb (includes NUMS (Some c))) (concat sets))
  && (symbols
      || forallb (fun c => negb (includes SYMBOLS (Some c))) (concat sets)).

(** ** Strings and values of the options page *)

(** A string as the sequence of its UTF-16 code units. *)
Abbreviation ustring := (list N) (only parsing).

(** The code units of a string literal made of ASCII characters. *)
Definition codes (s : string) : ustring :=
  map N_of_ascii (list_ascii_of_string s).

(** A value met where a string is expected: a string; a falsy value that is
    no string ([undefined], [null], [0], [false], [NaN]); or any other
    value, given with the string that [String(value)] makes of it. *)
Inductive jsvalue : Type :=
| VStr (s : ustring)
| VFalsy
| VTruthy (text : ustring).

(** [String(v || "")] *)
Definition text_of (v : jsvalue) : ustring :=
  match v with
  | VStr s => s
  | VFalsy => []
  | VTruthy text => text
  end.

(** [s.replaceAll(pattern, replacement)] for a pattern of one code unit and
    a replacement that holds no [$]. *)
Definition replaceAll (pattern : N) (replacement : ustring) (s : ustring)
    : ustring :=
  flat_map (fun c => if N.eqb c pattern then replacement else [c]) s.

(** [escapeHtml(s)]; the code units are those of [&], [<], [>], the double
    quote and the apostrophe. *)
Definition escapeHtml (s : jsvalue) : ustring :=
  replaceAll 39 (codes "&#39;")
    (replaceAll 34 (codes "&quot;")
       (replaceAll 62 (codes "&gt;")
          (replaceAll 60 (codes "&lt;")
             (replaceAll 38 (codes "&amp;") (text_of s))))).

(** [escapeAttr(s)]; [10] is the line feed. *)
Definition escapeAttr (s : jsvalue) : ustring :=
  replaceAll 10 (codes " ") (escapeHtml s).

(** [str.charCodeAt(i)]; [None] is the [NaN] of an index out of range. *)
Definition charCodeAt (str : ustring) (i : nat) : option Z :=
  Z.of_N <$> str !! i.

(** [x === y] on two numbers, either of which may be [NaN]. *)
Definition num_eq (x y : option Z) : bool :=
  match x, y with
  | Some a, Some b => a =? b
  | _, _ => false
  end.

(** The test made on the code units [a], [b], [c] of three consecutive
    positions. *)
Definition runOfThree (a b c : option Z) : bool :=
  (num_eq b (Z.add 1 <$> a) && num_eq c (Z.add 1 <$> b))
  || (num_eq b (Z.add (-1) <$> a) && num_eq c (Z.add (-1) <$> b))
  || (num_eq a b && num_eq b c).

(** The [for] loop of [isTooSimple] over the indices left. *)
Fixpoint simpleLoop (str : ustring) (indices : list nat) : bool :=
  match indices with
  | [] => false
  | i :: rest =>
    if runOfThree (charCodeAt str i) (charCodeAt str (i + 1))
         (charCodeAt str (i + 2))
    then true
    else simpleLoop str rest
  end.

(** [isTooSimple(str)] *)
Definition isTooSimple (str : ustring) : bool :=
  if (length str <? 3)%nat then false
  else simpleLoop str (seq 0 (length str - 2)).

(** The code units that [trim] removes: white space and line terminators. *)
Definition isSpace (c : N) : bool :=
  ((9 <=? c) && (c <=? 13) || (c =? 32) || (c =? 160) || (c =? 5760)
   || (8192 <=? c) && (c <=? 8202) || (c =? 8232) || (c =? 8233)
   || (c =? 8239) || (c =? 8287) || (c =? 12288) || (c =? 65279))%N.

Fixpoint trimStartU (s : ustring) : ustring :=
  match s with
  | c :: s' => if isSpace c then trimStartU s' else s
  | [] => []
  end.

Definition trimEndU (s : ustring) : ustring := rev (trimStartU (rev s)).

(** [s.trim()] *)
Definition trim (s : ustring) : ustring := trimEndU (trimStartU s).

(** [String(x || "").trim()] *)
Definition trimmed (v : jsvalue) : ustring := trim (text_of v).

(** [Boolean(s)] for a string. *)
Definition nonEmpty (s : ustring) : bool := negb (length s =? 0)%nat.

(** [Boolean(v)] *)
Definition truthy (v : jsvalue) : bool :=
  match v with
  | VStr s => nonEmpty s
  | VFalsy => false
  | VTruthy _ => true
  end.

(** [cleanList(arr)]; [None] is an argument that is not an array. *)
Definition cleanList (arr : option (list jsvalue)) : list ustring :=
  let a := map trimmed (default [] arr) in
  let nonEmpties := List.filter nonEmpty a in
  if (length nonEmpties =? 0)%nat then [[]] else nonEmpties.

(** [set.add(x)] on a [Set] of strings, kept in insertion order. *)
Definition set_add (set : list ustring) (x : ustring) : list ustring :=
  if bool_decide (x ∈ set) then set else set ++ [x].

(** [mergeSelectors(oldList, newList)] *)
Definition mergeSelectors (oldList newList : option (list jsvalue))
    : list ustring :=
  let oldClean := cleanList oldList in
  let newClean :=
    List.filter nonEmpty (map trimmed (default [] newList)) in
  let set := fold_left set_add (List.filter nonEmpty oldClean) [] in
  let set := fold_left set_add newClean set in
  if (length set =? 0)%nat then oldClean else set.

(** The fields of a record that [getUrlPatterns] reads: [urlPatterns]
    ([None] when it is not an array) and the former [urlPattern]. *)
Record UrlFields : Type := {
  f_urlPatterns : option (list jsvalue);
  f_urlPattern : jsvalue
}.

(** The [push] of [getUrlPatterns]. *)
Definition pushPattern (found : list ustring) (raw : jsvalue)
    : list ustring :=
  let t := trimmed raw in
  if nonEmpty t && negb (bool_decide (t ∈ found)) then found ++ [t]
  else found.

(** [getUrlPatterns(rec)]; [None] is a falsy [rec]. *)
Definition getUrlPatterns (rec : option UrlFields) : list ustring :=
  match rec with
  | None => []
  | Some r =>
    let found := fold_left pushPattern (default [] (f_urlPatterns r)) [] in
    if truthy (f_urlPattern r) then pushPattern found (f_urlPattern r)
    else found
  end.

(** A stored record, as [upgradeRecord] sees it: the keys it reads or
    writes, and the rest of the object.  An array-valued key is [None] when
    its value is not an array; an absent key reads as a falsy value. *)
Record StoredRecord (Other Rest : Type) : Type := {
  r_id : jsvalue;
  r_accountSelectors : option (list jsvalue);
  r_passwordSelectors : option (list jsvalue);
  r_others : option (list Other);
  r_urlPatterns : option (list jsvalue);
  r_urlPattern : jsvalue;
  r_rest : Rest
}.

Arguments r_id {Other Rest} _.
Arguments r_accountSelectors {Other Rest} _.
Arguments r_passwordSelectors {Other Rest} _.
Arguments r_others {Other Rest} _.
Arguments r_urlPatterns {Other Rest} _.
Arguments r_urlPattern {Other Rest} _.
Arguments r_rest {Other Rest} _.

(** [makeEmptyRecord()]; [fresh] is what [uid()] returns, [emptyRest] the
    keys [label], [account] and [password] set to the empty string. *)
Definition makeEmptyRecord {Other Rest : Type} (fresh : ustring)
    (emptyRest : Rest) : StoredRecord Other Rest :=
  {| r_id := VStr fresh;
     r_accountSelectors := Some [VStr []];
     r_passwordSelectors := Some [VStr []];
     r_others := Some [];
     r_urlPatterns := Some [];
     r_urlPattern := VFalsy;
     r_rest := emptyRest |}.

(** [Array.isArray(x) && x.length ? x : [""]] *)
Definition selectorsOrBlank (x : option (list jsvalue)) : list jsvalue :=
  match x with
  | Some (v :: l) => v :: l
  | _ => [VStr []]
  end.

(** [upgradeRecord(rec)]; [None] is a [rec] that is falsy or no object. *)
Definition upgradeRecord {Other Rest : Type} (fresh : ustring)
    (emptyRest : Rest) (rec : option (StoredRecord Other Rest))
    : StoredRecord Other Rest :=
  match rec with
  | None => makeEmptyRecord fresh emptyRest
  | Some r =>
    let patterns :=
      getUrlPatterns
        (Some {| f_urlPatterns := r_urlPatterns r;
                 f_urlPattern := r_urlPattern r |}) in
    {| r_id := if truthy (r_id r) then r_id r else VStr fresh;
       r_accountSelectors := Some (selectorsOrBlank (r_accountSelectors r));
       r_passwordSelectors := Some (selectorsOrBlank (r_passwordSelectors r));
       r_others := Some (default [] (r_others r));
       r_urlPatterns := Some (map VStr patterns);
       r_urlPattern := VFalsy;
       r_rest := r_rest r |}
  end.

(** ** Vocabulary for the properties of the options page *)

(** What [escapeHtml] makes of one code unit. *)
Definition escapeUnit (c : N) : ustring :=
  if N.eqb c 38 then codes "&amp;"
  else if N.eqb c 60 then codes "&lt;"
  else if N.eqb c 62 then codes "&gt;"
  else if N.eqb c 34 then codes "&quot;"
  else if N.eqb c 39 then codes "&#39;"
  else [c].

(** Three consecutive code units that go up by one, go down by one, or are
    equal. *)
Definition simple_run (a b c : N) : Prop :=
  (Z.of_N b = Z.of_N a + 1 /\ Z.of_N c = Z.of_N b + 1)
  \/ (Z.of_N b = Z.of_N a - 1 /\ Z.of_N c = Z.of_N b - 1)
  \/ (a = b /\ b = c).

(** The set built by [mergeSelectors]. *)
Definition mergedSet (oldList newList : option (list jsvalue))
    : list ustring :=
  fold_left set_add
    (List.filter nonEmpty (map trimmed (default [] newList)))
    (fold_left set_add
       (List.filter nonEmpty (map trimmed (default [] oldList))) []).

(** The raw values that [getUrlPatterns] pushes, in order. *)
Definition pushed (rec : option UrlFields) : list jsvalue :=
  match rec with
  | None => []
  | Some r =>
    default [] (f_urlPatterns r)
    ++ (if truthy (f_urlPattern r) then [f_urlPattern r] else [])
  end.

(** * Properties *)

(** ** Sums *)

Lemma fold_left_add_sum (l : list Z) (a : Z) :
  fold_left Z.add l a = a + sum_list l.
Proof.
  revert a; induction l as [|x l IH]; intros a; simpl.
  - lia.
  - rewrite IH. lia.
Qed.

Lemma reduce_sum_sum_list (l : list Z) : reduce_sum l = sum_list l.
Proof. unfold reduce_sum. rewrite fold_left_add_sum. lia. Qed.

Lemma sum_list_app (l1 l2 : list Z) :
  sum_list (l1 ++ l2) = sum_list l1 + sum_list l2.
Proof. induction l1 as [|x l1 IH]; simpl; lia. Qed.

Lemma sum_list_nonneg (l : list Z) : Forall (fun x => 0 <= x) l -> 0 <= sum_list l.
Proof. induction 1; simpl; lia. Qed.

Lemma sum_list_take_drop (l : list Z) (i : nat) :
  sum_list l = sum_list (take i l) + sum_list (drop i l).
Proof. rewrite <- sum_list_app, take_drop. reflexivity. Qed.

(** ** The stack loop of [countValidSequences] computes [pie] *)

Lemma tree_weight_pow (d : nat) : (tree_weight d < 2 ^ S d)%nat.
Proof.
  induction d as [|d IH]; simpl in *; lia.
Qed.

Lemma subsetLoop_spec (L : Z) (sizes : list Z) :
  Forall (fun x => 0 <= x) sizes ->
  forall (fuel : nat) (st : list frame) (total : Z),
    Forall (frame_ok sizes) st ->
    (stack_weight sizes st <= fuel)%nat ->
    subsetLoop fuel L sizes (sum_list sizes) st total
    = Ok (total + stack_val L sizes (sum_list sizes) st).
Proof.
  intros Hnn fuel.
  induction fuel as [|fuel IH]; intros st total Hok Hw.
  - destruct st as [|[i m p] st]; simpl.
    + unfold stack_val; simpl. f_equal. lia.
    + unfold stack_weight, frame_weight in Hw; simpl in Hw.
      destruct (length sizes - i)%nat; simpl in Hw; lia.
  - destruct st as [|[i m p] st]; simpl.
    + unfold stack_val; simpl. f_equal. lia.
    + inversion Hok as [|? ? [Hi [Hp Hm]] Hok']; subst; simpl in *.
      unfold stack_weight in Hw; simpl in Hw.
      unfold frame_weight at 1 in Hw; simpl in Hw.
      destruct (Nat.eqb_spec i (length sizes)) as [->|Hne].
      * (* a leaf: the subset is complete *)
        rewrite Nat.sub_diag in Hw; simpl in Hw.
        rewrite firstn_all in Hm.
        assert (Hge : (0 <=? sum_list sizes - m) = true) by (apply Z.leb_le; lia).
        rewrite Hge.
        rewrite IH; [|assumption|unfold stack_weight; lia].
        f_equal. unfold stack_val; simpl.
        unfold frame_val; simpl. rewrite drop_all; simpl.
        unfold sign_of. destruct (p =? 0); lia.
      * (* an inner node: branch on class [i] *)
        assert (Hlt : (i < length sizes)%nat) by lia.
        destruct (lookup_lt_is_Some_2 sizes i Hlt) as [s Hs].
        rewrite Hs.
        assert (Hs0 : 0 <= s).
        { eapply Forall_lookup_1 in Hnn; [|exact Hs]. exact Hnn. }
        replace ((length sizes - i)%nat) with (S (length sizes - S i)) in Hw by lia.
        simpl in Hw.
        rewrite IH.
        -- f_equal. unfold stack_val; simpl.
           unfold frame_val; simpl.
           rewrite (drop_S _ _ _ Hs); simpl.
           replace (sum_list sizes - (m + s)) with (sum_list sizes - m - s) by lia.
           unfold sign_of.
           assert (Hx : js_xor p 1 = 1 - p)
             by (destruct Hp as [-> | ->]; reflexivity).
           rewrite Hx.
           destruct Hp as [-> | ->]; simpl (_ =? _); cbv iota; lia.
        -- constructor; [|constructor; [|assumption]]; unfold frame_ok; simpl.
           ++ split; [lia|]. split.
              ** destruct Hp as [-> | ->]; [right|left]; reflexivity.
              ** rewrite (take_S_r _ _ _ Hs), sum_list_app; simpl. lia.
           ++ split; [lia|]. split; [assumption|].
              rewrite (take_S_r _ _ _ Hs), sum_list_app; simpl. lia.
        -- unfold stack_weight in *; simpl.
           unfold frame_weight at 1 2; simpl. lia.
Qed.

Lemma existsb_neg_false (sizes : list Z) :
  Forall (fun x => 0 <= x) sizes -> existsb (fun x => x <? 0) sizes = false.
Proof.
  induction 1 as [|x l Hx _ IH]; simpl; [reflexivity|].
  rewrite IH, orb_false_r. apply Z.ltb_ge. exact Hx.
Qed.

Lemma countValidSequences_pie (L : Z) (sizes : list Z) :
  0 <= L -> Forall (fun x => 0 <= x) sizes ->
  countValidSequences L sizes = Ok (pie L (all_needed sizes) (sum_list sizes)).
Proof.
  intros HL Hnn. unfold countValidSequences.
  assert (HL' : (L <? 0) = false) by (apply Z.ltb_ge; exact HL).
  rewrite HL', (existsb_neg_false _ Hnn), reduce_sum_sum_list.
  rewrite subsetLoop_spec.
  - f_equal. unfold stack_val, frame_val, sign_of; simpl.
    rewrite drop_0, Z.sub_0_r. lia.
  - exact Hnn.
  - constructor; [|constructor]. unfold frame_ok; simpl. lia.
  - unfold stack_weight, frame_weight; simpl.
    rewrite Nat.sub_0_r.
    pose proof (tree_weight_pow (length sizes)) as H. simpl in H. lia.
Qed.

(** ** The recursive form agrees with the sum over subsets *)

Lemma subsets_sum_pie (L : Z) (sizes : list Z) :
  forall (l : list Z) (a : nat) (base : Z),
    (forall j, (j < length l)%nat -> nth (a + j) sizes 0 = nth j l 0) ->
    sum_list
      (map (fun ss : list nat =>
              (-1) ^ Z.of_nat (length ss)
              * (base - sum_list (map (fun i => nth i sizes 0) ss)) ^ L)
           (subsets (seq a (length l))))
    = pie L (all_needed l) base.
Proof.
  induction l as [|s l IH]; intros a base Hnth.
  - simpl. rewrite Z.sub_0_r. lia.
  - simpl length. simpl seq. simpl subsets.
    rewrite map_app, sum_list_app, map_map. simpl.
    rewrite (IH (S a) base).
    2:{ intros j Hj. specialize (Hnth (S j)). simpl in Hnth.
        rewrite <- Hnth by lia. f_equal. lia. }
    rewrite <- (IH (S a) (base - s)).
    2:{ intros j Hj. specialize (Hnth (S j)). simpl in Hnth.
        rewrite <- Hnth by lia. f_equal. lia. }
    assert (Ha : nth a sizes 0 = s).
    { specialize (Hnth 0%nat). simpl in Hnth. rewrite Nat.add_0_r in Hnth.
      apply Hnth. lia. }
    rewrite Ha.
    match goal with
    | |- ?A + sum_list (map ?f ?X) = ?A - sum_list (map ?g ?X) =>
      assert (Hm : sum_list (map f X) = - sum_list (map g X))
    end.
    { generalize (subsets (seq (S a) (length l))).
      intros X. induction X as [|ss X IHX]; simpl; [reflexivity|].
      rewrite IHX.
      rewrite Nat2Z.inj_succ, Z.pow_succ_r by lia.
      replace (base - (s + sum_list (map (fun i => nth i sizes 0) ss)))
        with (base - s - sum_list (map (fun i => nth i sizes 0) ss)) by lia.
      lia. }
    rewrite Hm. lia.
Qed.

Lemma inclusion_exclusion_pie (L : Z) (sizes : list Z) :
  inclusion_exclusion L sizes = pie L (all_needed sizes) (sum_list sizes).
Proof.
  unfold inclusion_exclusion.
  apply subsets_sum_pie. intros j _. reflexivity.
Qed.

(** ** 32-bit operators on small non-negative integers *)

Lemma ToInt32_small (x : Z) : - 2 ^ 31 <= x < 2 ^ 31 -> ToInt32 x = x.
Proof.
  intros H. unfold ToInt32.
  rewrite Z.mod_small by lia. lia.
Qed.

Lemma pow2_le_30 (i : Z) : 0 <= i <= 30 -> 0 < 2 ^ i <= 2 ^ 30.
Proof.
  intros H. split; [apply Z.pow_pos_nonneg; lia|].
  apply Z.pow_le_mono_r; lia.
Qed.

Lemma js_shl_1 (i : Z) : 0 <= i <= 30 -> js_shl 1 i = 2 ^ i.
Proof.
  intros H. unfold js_shl.
  rewrite (ToInt32_small 1) by lia.
  rewrite Z.mod_small by lia.
  rewrite Z.shiftl_1_l.
  pose proof (pow2_le_30 i H).
  apply ToInt32_small. lia.
Qed.

Lemma odd_double_b2z (a : Z) (x : bool) : Z.odd (2 * a + Z.b2z x) = x.
Proof.
  rewrite Z.add_comm, Z.odd_add_mul_2. destruct x; reflexivity.
Qed.

Lemma div2_double_b2z (a : Z) (x : bool) : (2 * a + Z.b2z x) / 2 = a.
Proof.
  rewrite Z.add_comm, Z.mul_comm, Z.div_add by lia.
  destruct x; reflexivity.
Qed.

Lemma double_b2z_decompose (m : Z) : m = 2 * (m / 2) + Z.b2z (Z.odd m).
Proof.
  pose proof (Z.div_mod m 2 ltac:(lia)) as H.
  rewrite Zmod_odd in H. destruct (Z.odd m); simpl; lia.
Qed.

Lemma land_double_b2z (a b : Z) (x y : bool) :
  Z.land (2 * a + Z.b2z x) (2 * b + Z.b2z y) = 2 * Z.land a b + Z.b2z (x && y).
Proof.
  apply Z.bits_inj'. intros n Hn.
  rewrite Z.land_spec.
  destruct (Z.eq_dec n 0) as [->|Hne].
  - rewrite !Z.testbit_0_r. reflexivity.
  - replace n with (Z.succ (n - 1)) by lia.
    rewrite !Z.testbit_succ_r by lia.
    rewrite Z.land_spec. reflexivity.
Qed.

Lemma land_odd_odd (a b : Z) : Z.land (2 * a + 1) (2 * b + 1) = 2 * Z.land a b + 1.
Proof. exact (land_double_b2z a b true true). Qed.

Lemma land_even_odd (a b : Z) : Z.land (2 * a) (2 * b + 1) = 2 * Z.land a b.
Proof.
  pose proof (land_double_b2z a b false true) as H. simpl in H.
  rewrite !Z.add_0_r in H. exact H.
Qed.

Lemma land_odd_even (a b : Z) : Z.land (2 * a + 1) (2 * b) = 2 * Z.land a b.
Proof.
  pose proof (land_double_b2z a b true false) as H. simpl in H.
  rewrite !Z.add_0_r in H. exact H.
Qed.

Lemma land_even_even (a b : Z) : Z.land (2 * a) (2 * b) = 2 * Z.land a b.
Proof.
  pose proof (land_double_b2z a b false false) as H. simpl in H.
  rewrite !Z.add_0_r in H. exact H.
Qed.

(** ** The submask enumeration *)

Lemma chain_odd (m a : Z) (l : list Z) :
  0 <= m ->
  chain m a l ->
  chain (2 * m + 1) (2 * a + 1) (flat_map (fun s => [2 * s + 1; 2 * s]) l).
Proof.
  intros Hm H. induction H as [|a l Ha Hsub' H IH].
  - cbn [flat_map app].
    apply chain_step; [lia| |].
    + rewrite land_odd_odd, Z.land_0_l. reflexivity.
    + replace (2 * 0 + 1 - 1) with 0 by lia. rewrite Z.land_0_l.
      apply chain_zero.
  - cbn [flat_map app].
    assert (Hland1 : Z.land (2 * a + 1) (2 * m + 1) = 2 * a + 1).
    { rewrite land_odd_odd, Hsub'. reflexivity. }
    assert (Hland0 : Z.land (2 * a) (2 * m + 1) = 2 * a).
    { rewrite land_even_odd, Hsub'. reflexivity. }
    apply chain_step; [lia | exact Hland1 |].
    replace (2 * a + 1 - 1) with (2 * a) by lia. rewrite Hland0.
    apply chain_step; [lia | exact Hland0 |].
    replace (2 * a - 1) with (2 * (a - 1) + 1) by lia.
    rewrite land_odd_odd.
    apply IH.
Qed.

Lemma chain_even (m a : Z) (l : list Z) :
  0 <= m ->
  chain m a l ->
  chain (2 * m) (2 * a) (map (fun s => 2 * s) l).
Proof.
  intros Hm H. induction H as [|a l Ha Hsub' H IH].
  - simpl. apply chain_zero.
  - cbn [map].
    assert (Hland0 : Z.land (2 * a) (2 * m) = 2 * a).
    { rewrite land_even_even, Hsub'. reflexivity. }
    apply chain_step; [lia | exact Hland0 |].
    replace (2 * a - 1) with (2 * (a - 1) + 1) by lia.
    rewrite land_odd_even.
    apply IH.
Qed.

Lemma submasks_chain (k : nat) :
  forall m : Z, 0 <= m < 2 ^ Z.of_nat k -> chain m m (submasks k m).
Proof.
  induction k as [|k IH]; intros m Hm.
  - simpl in *. assert (m = 0) by lia. subst. apply chain_zero.
  - simpl submasks.
    rewrite Nat2Z.inj_succ, Z.pow_succ_r in Hm by lia.
    assert (Hm2 : 0 <= m / 2 < 2 ^ Z.of_nat k).
    { split; [apply Z.div_pos; lia|]. apply Z.div_lt_upper_bound; lia. }
    specialize (IH (m / 2) Hm2).
    pose proof (double_b2z_decompose m) as Hdec.
    destruct (Z.odd m) eqn:Hodd; simpl Z.b2z in Hdec.
    + rewrite Hdec at 1 2.
      apply chain_odd; [lia | exact IH].
    + rewrite Z.add_0_r in Hdec. rewrite Hdec at 1 2.
      apply chain_even; [lia | exact IH].
Qed.

Lemma land_pow2_eqb (sub i : Z) :
  0 <= i -> (Z.land sub (2 ^ i) =? 0) = negb (Z.testbit sub i).
Proof.
  intros Hi. destruct (Z.testbit sub i) eqn:Hb; simpl.
  - apply Z.eqb_neq. intros H0.
    assert (Z.testbit (Z.land sub (2 ^ i)) i = true).
    { rewrite Z.land_spec, Hb, Z.pow2_bits_true by lia. reflexivity. }
    rewrite H0, Z.bits_0 in H. discriminate.
  - apply Z.eqb_eq. apply Z.bits_inj'. intros n Hn.
    rewrite Z.land_spec, Z.bits_0, Z.pow2_bits_eqb by lia.
    destruct (Z.eqb_spec i n) as [->|]; [rewrite Hb|rewrite andb_false_r]; reflexivity.
Qed.

Lemma js_and_small (a b : Z) :
  0 <= a < 2 ^ 31 -> 0 <= b < 2 ^ 31 -> js_and a b = Z.land a b.
Proof.
  intros Ha Hb. unfold js_and.
  rewrite (ToInt32_small a), (ToInt32_small b) by lia.
  apply ToInt32_small.
  assert (0 <= Z.land a b) by (apply Z.land_nonneg; lia).
  assert (Z.land a b <= a).
  { pose proof (Z.sub_land_same_l a b) as H1.
    assert (0 <= Z.land a (Z.lnot b)) by (apply Z.land_nonneg; lia). lia. }
  lia.
Qed.

Lemma js_and_bit_eqb (sub : Z) (i : nat) :
  0 <= sub < 2 ^ 31 -> (i <= 30)%nat ->
  (js_and sub (js_shl 1 (Z.of_nat i)) =? 0) = negb (Z.testbit sub (Z.of_nat i)).
Proof.
  intros Hs Hi.
  rewrite js_shl_1 by lia.
  pose proof (pow2_le_30 (Z.of_nat i) ltac:(lia)).
  rewrite js_and_small by lia.
  apply land_pow2_eqb. lia.
Qed.

Lemma testbit_odd_div (sub : Z) (a : nat) :
  Z.testbit sub (Z.of_nat a) = Z.odd (sub / 2 ^ Z.of_nat a).
Proof.
  rewrite Z.testbit_odd, Z.shiftr_div_pow2 by lia. reflexivity.
Qed.

Lemma missingOf_fold (sizes : list Z) (sub : Z) :
  0 <= sub < 2 ^ 31 ->
  forall (l : list Z) (a : nat) (acc : Z * Z),
    (a + length l <= 31)%nat ->
    (forall j, (j < length l)%nat -> nth (a + j) sizes 0 = nth j l 0) ->
    fold_left
      (fun (acc : Z * Z) (i : nat) =>
         if js_and sub (js_shl 1 (Z.of_nat i)) =? 0 then acc
         else (fst acc + nth i sizes 0, snd acc + 1))
      (seq a (length l)) acc
    = (fst acc + miss l (sub / 2 ^ Z.of_nat a), snd acc + popc l (sub / 2 ^ Z.of_nat a)).
Proof.
  intros Hsub. induction l as [|s l IH]; intros a acc Hlen Hnth.
  - simpl. destruct acc; simpl. f_equal; lia.
  - simpl length in *. cbn [seq fold_left].
    rewrite IH.
    2: lia.
    2:{ intros j Hj. specialize (Hnth (S j)). simpl in Hnth.
        rewrite <- Hnth by lia. f_equal. lia. }
    rewrite js_and_bit_eqb by lia.
    rewrite testbit_odd_div.
    assert (Hs : nth a sizes 0 = s).
    { specialize (Hnth 0%nat). simpl in Hnth. rewrite Nat.add_0_r in Hnth.
      apply Hnth. lia. }
    assert (Hdiv : sub / 2 ^ Z.of_nat (S a) = sub / 2 ^ Z.of_nat a / 2).
    { rewrite Nat2Z.inj_succ, Z.pow_succ_r by lia.
      rewrite (Z.mul_comm 2), Z.div_div by lia. reflexivity. }
    rewrite Hdiv. cbn [miss popc].
    destruct (Z.odd (sub / 2 ^ Z.of_nat a)); simpl negb; cbv iota; cbn [fst snd].
    + rewrite Hs. f_equal; lia.
    + f_equal; lia.
Qed.

Lemma missingOf_spec (sizes : list Z) (sub : Z) :
  0 <= sub < 2 ^ 31 -> (length sizes <= 31)%nat ->
  missingOf sizes sub = (miss sizes sub, popc sizes sub).
Proof.
  intros Hsub Hk. unfold missingOf.
  rewrite (missingOf_fold sizes sub Hsub sizes 0 (0, 0)).
  - simpl. rewrite Z.div_1_r. reflexivity.
  - lia.
  - intros j _. reflexivity.
Qed.

Lemma popc_nonneg (sizes : list Z) : forall t, 0 <= popc sizes t.
Proof.
  induction sizes as [|s l IH]; intros t; simpl; [lia|].
  specialize (IH (t / 2)). destruct (Z.odd t); lia.
Qed.

Lemma miss_le_sum (sizes : list Z) :
  Forall (fun x => 0 <= x) sizes -> forall t, miss sizes t <= sum_list sizes.
Proof.
  induction 1 as [|s l Hs _ IH]; intros t; simpl; [lia|].
  specialize (IH (t / 2)). destruct (Z.odd t); lia.
Qed.

Lemma rem2_succ (p : Z) :
  0 <= p -> (Z.rem (1 + p) 2 =? 0) = negb (Z.rem p 2 =? 0).
Proof.
  intros Hp. rewrite !Z.rem_mod_nonneg by lia.
  rewrite !Zmod_odd, Z.odd_add. simpl (Z.odd 1).
  destruct (Z.odd p); reflexivity.
Qed.

Lemma land_le_r (a m : Z) : 0 <= a -> 0 <= m -> Z.land a m <= m.
Proof.
  intros Ha Hm. rewrite Z.land_comm.
  pose proof (Z.sub_land_same_l m a) as H1.
  assert (0 <= Z.land m (Z.lnot a)) by (apply Z.land_nonneg; lia). lia.
Qed.

Lemma submaskLoop_chain (R : Z) (sizes : list Z) (pool m : Z) :
  0 <= m < 2 ^ 31 -> (length sizes <= 31)%nat ->
  (forall t, miss sizes t <= pool) ->
  forall (sub : Z) (l : list Z), chain m sub l ->
  forall (fuel : nat) (total : Z),
    (Z.to_nat sub < fuel)%nat ->
    submaskLoop fuel R sizes pool m sub total
    = Ok (total + sum_list (map (subset_term R sizes pool) l)).
Proof.
  intros Hm Hk Hmiss sub l Hc.
  induction Hc as [|a l Ha Hsub Hc IH]; intros fuel total Hfuel.
  - destruct fuel as [|fuel]; [lia|]. simpl.
    rewrite missingOf_spec by lia.
    assert (Hge : (pool - miss sizes 0 <? 0) = false).
    { apply Z.ltb_ge. specialize (Hmiss 0). lia. }
    rewrite Hge. f_equal. unfold subset_term.
    destruct (Z.rem (popc sizes 0) 2 =? 0); lia.
  - assert (Ham : a <= m).
    { rewrite <- Hsub. apply land_le_r; lia. }
    destruct fuel as [|fuel]; [lia|]. cbn [submaskLoop].
    rewrite missingOf_spec by lia.
    assert (Hge : (pool - miss sizes a <? 0) = false).
    { apply Z.ltb_ge. specialize (Hmiss a). lia. }
    rewrite Hge.
    assert (Hne : (a =? 0) = false) by (apply Z.eqb_neq; lia).
    rewrite Hne.
    rewrite js_and_small by lia.
    assert (Hnext : 0 <= Z.land (a - 1) m <= a - 1).
    { split; [apply Z.land_nonneg; lia|].
      pose proof (Z.sub_land_same_l (a - 1) m) as H1.
      assert (0 <= Z.land (a - 1) (Z.lnot m)) by (apply Z.land_nonneg; lia). lia. }
    rewrite IH by lia.
    f_equal. cbn [map sum_list fold_right]. unfold subset_term at 2.
    destruct (Z.rem (popc sizes a) 2 =? 0); unfold sum_list; lia.
Qed.

Lemma subset_term_odd (R : Z) (s : Z) (sizes : list Z) (base t : Z) :
  subset_term R (s :: sizes) base (2 * t + 1) = - subset_term R sizes (base - s) t.
Proof.
  unfold subset_term. cbn [popc miss].
  replace (2 * t + 1) with (2 * t + Z.b2z true) by reflexivity.
  rewrite odd_double_b2z, div2_double_b2z.
  rewrite rem2_succ by apply popc_nonneg.
  replace (base - (s + miss sizes t)) with (base - s - miss sizes t) by lia.
  destruct (Z.rem (popc sizes t) 2 =? 0); simpl; lia.
Qed.

Lemma subset_term_even (R : Z) (s : Z) (sizes : list Z) (base t : Z) :
  subset_term R (s :: sizes) base (2 * t) = subset_term R sizes base t.
Proof.
  unfold subset_term. cbn [popc miss].
  replace (2 * t) with (2 * t + Z.b2z false) by (simpl; lia).
  rewrite odd_double_b2z, div2_double_b2z.
  rewrite !Z.add_0_l. reflexivity.
Qed.

Lemma sum_submasks_pie (R : Z) :
  forall (sizes : list Z) (m base : Z),
    0 <= m ->
    sum_list (map (subset_term R sizes base) (submasks (length sizes) m))
    = pie R (imap (fun i s => (s, Z.testbit m (Z.of_nat i))) sizes) base.
Proof.
  induction sizes as [|s sizes IH]; intros m base Hm.
  - cbn [length submasks imap pie map sum_list fold_right].
    unfold subset_term; cbn [popc miss].
    change (Z.rem 0 2 =? 0) with true. cbv iota.
    rewrite Z.sub_0_r. lia.
  - cbn [length submasks imap pie].
    assert (Hm2 : 0 <= m / 2) by (apply Z.div_pos; lia).
    assert (Himap :
      imap ((fun i s0 => (s0, Z.testbit m (Z.of_nat i))) ∘ S) sizes
      = imap (fun i s0 => (s0, Z.testbit (m / 2) (Z.of_nat i))) sizes).
    { apply imap_ext. intros i x _. unfold compose. f_equal.
      rewrite Nat2Z.inj_succ, Z.div2_bits by lia.
      reflexivity. }
    rewrite Himap. change (Z.of_nat 0) with 0. rewrite Z.bit0_odd.
    rewrite <- !IH by exact Hm2.
    destruct (Z.odd m).
    + generalize (submasks (length sizes) (m / 2)). intros X.
      induction X as [|t X IHX]; simpl; [reflexivity|].
      rewrite subset_term_odd, subset_term_even.
      unfold sum_list in *. simpl in IHX. lia.
    + rewrite Z.sub_0_r. f_equal. rewrite map_map.
      apply map_ext. intros t. apply subset_term_even.
Qed.

Lemma lxor_ones_sub (k : nat) (mask : Z) :
  0 <= mask < 2 ^ Z.of_nat k ->
  Z.lxor (2 ^ Z.of_nat k - 1) mask = 2 ^ Z.of_nat k - 1 - mask.
Proof.
  intros Hm.
  destruct (Z.eq_dec mask 0) as [->|Hne].
  - rewrite Z.lxor_0_r. lia.
  - assert (Hlog : Z.log2 mask < Z.of_nat k) by (apply Z.log2_lt_pow2; lia).
    replace (2 ^ Z.of_nat k - 1) with (Z.ones (Z.of_nat k))
      by (rewrite Z.ones_equiv; lia).
    rewrite Z.lxor_comm, <- Z.ldiff_ones_l_low by lia.
    symmetry. apply Z.sub_nocarry_ldiff.
    apply Z.ldiff_ones_r_low; lia.
Qed.

Lemma pow2_lt_31 (k : nat) : (k <= 30)%nat -> 0 < 2 ^ Z.of_nat k < 2 ^ 31.
Proof.
  intros Hk. pose proof (pow2_le_30 (Z.of_nat k) ltac:(lia)). lia.
Qed.

Lemma js_xor_small (a b : Z) :
  0 <= a < 2 ^ 31 -> 0 <= b < 2 ^ 31 -> 
  0 <= Z.lxor a b < 2 ^ 31 -> js_xor a b = Z.lxor a b.
Proof.
  intros Ha Hb Hx. unfold js_xor.
  rewrite (ToInt32_small a), (ToInt32_small b) by lia.
  apply ToInt32_small. lia.
Qed.

Lemma needed_classes_lxor (sizes : list Z) (mask : Z) :
  0 <= mask < 2 ^ Z.of_nat (length sizes) ->
  imap (fun i s => (s, Z.testbit (2 ^ Z.of_nat (length sizes) - 1 - mask) (Z.of_nat i))) sizes
  = needed_classes sizes mask.
Proof.
  intros Hm. unfold needed_classes.
  apply imap_ext. intros i x Hi. simpl. f_equal.
  apply lookup_lt_Some in Hi.
  rewrite <- lxor_ones_sub by exact Hm.
  rewrite Z.lxor_spec.
  replace (2 ^ Z.of_nat (length sizes) - 1) with (Z.ones (Z.of_nat (length sizes)))
    by (rewrite Z.ones_equiv; lia).
  rewrite Z.ones_spec_low by lia.
  destruct (Z.testbit mask (Z.of_nat i)); reflexivity.
Qed.

Lemma countRemaining_spec (R : Z) (sizes : list Z) (mask : Z) :
  0 <= R -> Forall (fun x => 0 <= x) sizes ->
  (length sizes <= 30)%nat ->
  0 <= mask < 2 ^ Z.of_nat (length sizes) ->
  countRemaining R sizes (ANum mask) = Ok (remaining_count R sizes mask).
Proof.
  intros HR Hnn Hk Hmask. unfold countRemaining, remaining_count.
  assert (HR' : (R <? 0) = false) by (apply Z.ltb_ge; exact HR).
  rewrite HR', (existsb_neg_false _ Hnn).
  rewrite js_shl_1 by lia.
  pose proof (pow2_lt_31 _ Hk) as Hpow.
  assert (Hg : ((mask <? 0) || (2 ^ Z.of_nat (length sizes) - 1 <? mask)) = false).
  { apply orb_false_iff. split; apply Z.ltb_ge; lia. }
  rewrite Hg.
  rewrite js_xor_small; rewrite ?lxor_ones_sub by exact Hmask; try lia.
  rewrite reduce_sum_sum_list.
  rewrite (submaskLoop_chain R sizes (sum_list sizes)
             (2 ^ Z.of_nat (length sizes) - 1 - mask)
             ltac:(lia) ltac:(lia) (miss_le_sum sizes Hnn)
             _ (submasks (length sizes) (2 ^ Z.of_nat (length sizes) - 1 - mask))).
  - f_equal. rewrite Z.add_0_l, sum_submasks_pie by lia.
    rewrite needed_classes_lxor by exact Hmask. reflexivity.
  - apply submasks_chain. lia.
  - lia.
Qed.

(** ** The recurrence behind the inclusion-exclusion count *)

Lemma sum_list_imap_ext {A : Type} (f g : nat -> A -> Z) (l : list A) :
  (forall i x, l !! i = Some x -> f i x = g i x) ->
  sum_list (imap f l) = sum_list (imap g l).
Proof.
  intros H. f_equal. apply imap_ext. exact H.
Qed.

Lemma sum_list_imap_sub {A : Type} (f g : nat -> A -> Z) (l : list A) :
  sum_list (imap (fun i x => f i x - g i x) l)
  = sum_list (imap f l) - sum_list (imap g l).
Proof.
  revert f g. induction l as [|x l IH]; intros f g; simpl; [reflexivity|].
  unfold compose. rewrite (IH (fun i => f (S i)) (fun i => g (S i))). lia.
Qed.

Lemma sum_list_imap_scale {A : Type} (f : nat -> A -> Z) (k : Z) (l : list A) :
  sum_list (imap (fun i x => k * f i x) l) = k * sum_list (imap f l).
Proof.
  revert f. induction l as [|x l IH]; intros f; simpl; [lia|].
  unfold compose. rewrite (IH (fun i => f (S i))). lia.
Qed.

Lemma pie_succ (R : Z) :
  0 <= R ->
  forall (cls : list (Z * bool)) (base : Z),
    pie (R + 1) cls base
    = (base - sum_list (map fst cls)) * pie R cls base
      + sum_list (imap (fun c p => fst p * pie R (satisfy c cls) base) cls).
Proof.
  intros HR. induction cls as [|[s b] cls IH]; intros base.
  - simpl. rewrite Z.pow_add_r by lia. lia.
  - cbn [pie map fst sum_list fold_right imap].
    fold (sum_list (map fst cls)).
    unfold satisfy at 1. cbn [alter list_alter fst pie].
    assert (Hshift :
      sum_list (imap ((fun c p => fst p * pie R (satisfy c ((s, b) :: cls)) base) ∘ S) cls)
      = sum_list (imap (fun c p => fst p * pie R (satisfy c cls) base) cls)
        - (if b then sum_list (imap (fun c p => fst p * pie R (satisfy c cls) (base - s)) cls) else 0)).
    { destruct b.
      - rewrite <- sum_list_imap_sub. apply sum_list_imap_ext.
        intros i x _. unfold compose, satisfy. cbn [alter list_alter pie]. lia.
      - rewrite Z.sub_0_r. apply sum_list_imap_ext.
        intros i x _. unfold compose, satisfy. cbn [alter list_alter pie]. lia. }
    unfold sum_list in Hshift |- *. fold sum_list in Hshift |- *.
    rewrite Hshift.
    pose proof (IH base) as IH1. pose proof (IH (base - s)) as IH2.
    unfold sum_list in *.
    destruct b.
    + rewrite IH1, IH2. ring.
    + rewrite IH1. ring.
Qed.

Lemma map_fmap {A B : Type} (f : A -> B) (l : list A) : map f l = f <$> l.
Proof. reflexivity. Qed.

(** ** Counting the sequences that cover the needed classes *)

Section Counting.
Context {A : Type} `{EqDecision A}.

Lemma covers_cons (classes : list (list A)) (needed : list bool) (a : A)
    (seq : list A) :
  covers classes needed (a :: seq) = covers classes (after_char classes needed a) seq.
Proof.
  unfold covers, after_char.
  revert needed. induction classes as [|cls classes IH]; intros [|nd needed];
    simpl; try reflexivity.
  rewrite IH. f_equal.
  destruct nd, (bool_decide (a ∈ cls)); reflexivity.
Qed.

Lemma covers_all_covers (classes : list (list A)) (seq : list A) :
  covers classes (replicate (length classes) true) seq = covers_all classes seq.
Proof.
  unfold covers, covers_all.
  induction classes as [|cls classes IH]; simpl; [reflexivity|].
  rewrite IH. reflexivity.
Qed.

Lemma count_flat_map (P : list A -> bool) (X : list (list A)) (pool : list A) :
  Z.of_nat (length (List.filter P (flat_map (fun a => map (cons a) X) pool)))
  = sum_list (map (fun a => Z.of_nat (length (List.filter (fun s => P (a :: s)) X))) pool).
Proof.
  induction pool as [|a pool IH]; simpl; [reflexivity|].
  rewrite List.filter_app, length_app, Nat2Z.inj_add, IH.
  f_equal. f_equal.
  clear IH. induction X as [|x X IHX]; simpl; [reflexivity|].
  destruct (P (a :: x)); simpl; rewrite IHX; reflexivity.
Qed.

Lemma elem_of_concat (classes : list (list A)) (a : A) :
  a ∈ concat classes <-> exists cls, a ∈ cls /\ cls ∈ classes.
Proof.
  rewrite list_elem_of_In, in_concat. split.
  - intros [cls [H1 H2]]. exists cls. rewrite !list_elem_of_In. tauto.
  - intros [cls [H1 H2]]. exists cls. rewrite !list_elem_of_In in *. tauto.
Qed.

Lemma NoDup_concat_unique (classes : list (list A)) :
  NoDup (concat classes) ->
  forall c c' cls cls' a,
    classes !! c = Some cls -> classes !! c' = Some cls' ->
    a ∈ cls -> a ∈ cls' -> c = c'.
Proof.
  induction classes as [|cls0 classes IH]; intros Hnd c c' cls cls' a Hc Hc' Ha Ha'.
  - rewrite lookup_nil in Hc. discriminate.
  - simpl in Hnd. apply NoDup_app in Hnd as [_ [Hdisj Hnd]].
    destruct c as [|c], c' as [|c']; simpl in Hc, Hc'.
    + reflexivity.
    + inversion Hc; subst. exfalso. apply (Hdisj a Ha).
      apply elem_of_concat. exists cls'. split; [exact Ha'|].
      apply list_elem_of_lookup. eauto.
    + inversion Hc'; subst. exfalso. apply (Hdisj a Ha').
      apply elem_of_concat. exists cls. split; [exact Ha|].
      apply list_elem_of_lookup. eauto.
    + f_equal. eapply IH; eauto.
Qed.

Lemma after_char_insert (classes : list (list A)) (needed : list bool) :
  NoDup (concat classes) -> length needed = length classes ->
  forall c cls a, classes !! c = Some cls -> a ∈ cls ->
    after_char classes needed a = <[c := false]> needed.
Proof.
  intros Hnd Hlen c cls a Hc Ha.
  apply list_eq. intros i. unfold after_char.
  rewrite lookup_zip_with.
  destruct (classes !! i) as [cls'|] eqn:Hi; simpl.
  - destruct (needed !! i) as [nd|] eqn:Hn; simpl.
    + destruct (decide (i = c)) as [->|Hne].
      * rewrite list_lookup_insert_eq by (apply lookup_lt_Some in Hn; exact Hn).
        rewrite Hc in Hi. inversion Hi; subst.
        rewrite bool_decide_eq_true_2 by exact Ha.
        rewrite andb_false_r. reflexivity.
      * rewrite list_lookup_insert_ne by congruence. rewrite Hn.
        rewrite bool_decide_eq_false_2; [rewrite andb_true_r; reflexivity|].
        intros Ha'. apply Hne.
        eapply (NoDup_concat_unique classes Hnd); eauto.
    + apply lookup_ge_None in Hn. apply lookup_lt_Some in Hi. lia.
  - apply lookup_ge_None in Hi.
    symmetry. apply lookup_ge_None. rewrite length_insert. lia.
Qed.

Lemma sum_over_pool (classes : list (list A)) (h : A -> Z) (H : nat -> Z) :
  (forall c cls a, classes !! c = Some cls -> a ∈ cls -> h a = H c) ->
  sum_list (map h (concat classes))
  = sum_list (imap (fun c cls => Z.of_nat (length cls) * H c) classes).
Proof.
  revert H. induction classes as [|cls classes IH]; intros H Hh; simpl; [reflexivity|].
  rewrite map_app, sum_list_app.
  rewrite (IH (fun c => H (S c))).
  2:{ intros c cls' a Hc Ha. apply (Hh (S c) cls' a); assumption. }
  f_equal.
  assert (Hcls : forall a, a ∈ cls -> h a = H 0%nat).
  { intros a Ha. apply (Hh 0%nat cls a); [reflexivity|exact Ha]. }
  clear Hh IH. induction cls as [|a cls IHc]; simpl; [lia|].
  rewrite IHc by (intros; apply Hcls; right; assumption).
  rewrite (Hcls a) by left. lia.
Qed.

Lemma pie_0 (cls : list (Z * bool)) (base : Z) :
  pie 0 cls base = if existsb snd cls then 0 else 1.
Proof.
  revert base. induction cls as [|[s b] cls IH]; intros base; simpl.
  - reflexivity.
  - rewrite !IH. destruct b; simpl; [|lia].
    destruct (existsb snd cls); reflexivity.
Qed.

Lemma satisfy_zip (sizes : list Z) (needed : list bool) (c : nat) :
  satisfy c (zip sizes needed) = zip sizes (<[c := false]> needed).
Proof.
  unfold satisfy. revert needed c.
  induction sizes as [|s sizes IH]; intros [|nd needed] [|c]; simpl; try reflexivity.
  f_equal. apply IH.
Qed.

Lemma class_sizes_lookup (classes : list (list A)) (i : nat) :
  class_sizes classes !! i = (fun cls => Z.of_nat (length cls)) <$> classes !! i.
Proof. unfold class_sizes. rewrite map_fmap. apply list_lookup_fmap. Qed.

Lemma count_covers (classes : list (list A)) :
  NoDup (concat classes) ->
  forall (n : nat) (needed : list bool),
    length needed = length classes ->
    Z.of_nat (length (List.filter (covers classes needed)
                        (all_seqs n (concat classes))))
    = pie (Z.of_nat n) (zip (class_sizes classes) needed)
        (sum_list (class_sizes classes)).
Proof.
  intros Hnd. induction n as [|n IH]; intros needed Hlen.
  - simpl all_seqs. change (Z.of_nat 0) with 0. rewrite pie_0.
    cbn [List.filter]. unfold covers.
    assert (Hex : forallb (fun p : list A * bool => negb (snd p) || hits [] (fst p))
                    (zip classes needed)
                  = negb (existsb snd (zip (class_sizes classes) needed))).
    { clear Hlen Hnd. unfold class_sizes. revert needed.
      induction classes as [|cls classes IHc]; intros [|nd needed]; simpl;
        try reflexivity.
      rewrite IHc. destruct nd; reflexivity. }
    rewrite Hex. destruct (existsb snd _); reflexivity.
  - cbn [all_seqs]. rewrite count_flat_map.
    rewrite Nat2Z.inj_succ, <- Z.add_1_r, pie_succ by lia.
    assert (Hfst : map fst (zip (class_sizes classes) needed) = class_sizes classes).
    { apply fst_zip. unfold class_sizes. rewrite length_map. lia. }
    rewrite Hfst, Z.sub_diag, Z.mul_0_l, Z.add_0_l.
    rewrite (sum_over_pool classes _
               (fun c => pie (Z.of_nat n)
                           (zip (class_sizes classes) (<[c := false]> needed))
                           (sum_list (class_sizes classes)))).
    + f_equal. apply list_eq. intros i.
      rewrite !list_lookup_imap.
      rewrite lookup_zip_with, class_sizes_lookup.
      destruct (classes !! i) as [cls|] eqn:Hi; simpl; [|reflexivity].
      destruct (needed !! i) as [nd|] eqn:Hn; simpl.
      * rewrite satisfy_zip. reflexivity.
      * apply lookup_ge_None in Hn. apply lookup_lt_Some in Hi. lia.
    + intros c cls a Hc Ha.
      rewrite <- (after_char_insert classes needed Hnd Hlen c cls a Hc Ha).
      rewrite <- IH.
      2:{ unfold after_char. rewrite length_zip_with. lia. }
      f_equal. f_equal. apply List.filter_ext. intros s. apply covers_cons.
Qed.

End Counting.

Lemma tagged_classes_sizes (sizes : list Z) :
  Forall (fun x => 0 <= x) sizes ->
  class_sizes (tagged_classes sizes) = sizes.
Proof.
  intros Hnn. unfold class_sizes, tagged_classes.
  apply list_eq. intros i.
  rewrite map_fmap, list_lookup_fmap, list_lookup_imap.
  destruct (sizes !! i) as [s|] eqn:Hi; simpl; [|reflexivity].
  rewrite length_map, length_seq. f_equal.
  eapply Forall_lookup_1 in Hnn; [|exact Hi]. lia.
Qed.

Lemma tagged_classes_NoDup (sizes : list Z) : NoDup (concat (tagged_classes sizes)).
Proof.
  unfold tagged_classes.
  assert (Hgen : forall (off : nat),
            NoDup (concat (imap (fun c s => map (pair (off + c)%nat) (seq 0 (Z.to_nat s))) sizes))
            /\ forall p, p ∈ concat (imap (fun c s => map (pair (off + c)%nat) (seq 0 (Z.to_nat s))) sizes) -> (off <= fst p)%nat).
  { induction sizes as [|s sizes IH]; intros off; simpl.
    - split; [constructor|]. intros p Hp. inversion Hp.
    - destruct (IH (S off)) as [IH1 IH2].
      assert (Hext : imap ((fun c s0 => map (pair (off + c)%nat) (seq 0 (Z.to_nat s0))) ∘ S) sizes
                     = imap (fun c s0 => map (pair (S off + c)%nat) (seq 0 (Z.to_nat s0))) sizes).
      { apply imap_ext. intros i x _. unfold compose. f_equal.
        replace (off + S i)%nat with (S off + i)%nat by lia. reflexivity. }
      rewrite Hext. split.
      + apply NoDup_app. split; [|split].
        * rewrite map_fmap. apply NoDup_fmap_2; [|apply NoDup_seq].
          intros x y Hxy. inversion Hxy. reflexivity.
        * intros p Hp Hp'. apply IH2 in Hp'.
          rewrite map_fmap in Hp.
          apply list_elem_of_fmap in Hp as [j [-> _]]. simpl in Hp'. lia.
        * exact IH1.
      + intros p Hp. apply elem_of_app in Hp as [Hp|Hp].
        * rewrite map_fmap in Hp.
          apply list_elem_of_fmap in Hp as [j [-> _]]. simpl. lia.
        * apply IH2 in Hp. lia. }
  destruct (Hgen 0%nat) as [H _]. exact H.
Qed.

Lemma sum_list_cons (x : Z) (l : list Z) : sum_list (x :: l) = x + sum_list l.
Proof. reflexivity. Qed.

Lemma all_needed_zip (sizes : list Z) :
  all_needed sizes = zip sizes (replicate (length sizes) true).
Proof.
  unfold all_needed. induction sizes as [|s sizes IH]; simpl; [reflexivity|].
  rewrite IH. reflexivity.
Qed.

Lemma inclusion_exclusion_count (L : Z) (sizes : list Z) :
  0 <= L -> Forall (fun x => 0 <= x) sizes ->
  inclusion_exclusion L sizes
  = Z.of_nat (length (List.filter (covers_all (tagged_classes sizes))
                        (all_seqs (Z.to_nat L) (concat (tagged_classes sizes))))).
Proof.
  intros HL Hnn.
  rewrite inclusion_exclusion_pie, all_needed_zip.
  pose proof (count_covers (tagged_classes sizes) (tagged_classes_NoDup sizes)
                (Z.to_nat L) (replicate (length sizes) true)) as H.
  rewrite tagged_classes_sizes in H by exact Hnn.
  rewrite Z2Nat.id in H by exact HL.
  rewrite <- H.
  - f_equal. f_equal. apply List.filter_ext. intros s.
    rewrite <- covers_all_covers. f_equal. f_equal.
    unfold tagged_classes. rewrite length_imap. reflexivity.
  - unfold tagged_classes. rewrite length_replicate, length_imap. reflexivity.
Qed.


Lemma subsets_filter_pie (R : Z) (sizes : list Z) (P : nat -> bool) :
  forall (l : list Z) (a : nat) (base : Z),
    (forall j, (j < length l)%nat -> nth (a + j) sizes 0 = nth j l 0) ->
    sum_list
      (map (fun ss : list nat =>
              (-1) ^ Z.of_nat (length ss)
              * (base - sum_list (map (fun i => nth i sizes 0) ss)) ^ R)
           (subsets (List.filter P (seq a (length l)))))
    = pie R (imap (fun i s => (s, P (a + i)%nat)) l) base.
Proof.
  induction l as [|s l IH]; intros a base Hnth.
  - simpl. rewrite Z.sub_0_r. lia.
  - simpl length. simpl seq. cbn [List.filter imap pie].
    assert (Himap : imap ((fun i s0 => (s0, P (a + i)%nat)) ∘ S) l
                    = imap (fun i s0 => (s0, P (S a + i)%nat)) l).
    { apply imap_ext. intros i x _. unfold compose. do 2 f_equal. lia. }
    rewrite Himap, Nat.add_0_r.
    assert (Hn : forall j, (j < length l)%nat -> nth (S a + j) sizes 0 = nth j l 0).
    { intros j Hj. specialize (Hnth (S j)). simpl in Hnth.
      rewrite <- Hnth by lia. f_equal. lia. }
    assert (Ha : nth a sizes 0 = s).
    { specialize (Hnth 0%nat). simpl in Hnth. rewrite Nat.add_0_r in Hnth.
      apply Hnth. lia. }
    destruct (P a).
    + simpl subsets. rewrite map_app, sum_list_app.
      rewrite (IH (S a) base Hn).
      assert (Hm : forall Y : list (list nat),
        sum_list
          (map (fun ss : list nat =>
                  (-1) ^ Z.of_nat (length ss)
                  * (base - sum_list (map (fun i => nth i sizes 0) ss)) ^ R)
               (map (cons a) Y))
        = - sum_list
              (map (fun ss : list nat =>
                      (-1) ^ Z.of_nat (length ss)
                      * (base - s - sum_list (map (fun i => nth i sizes 0) ss)) ^ R)
                   Y)).
      { induction Y as [|ss Y IHY]; [reflexivity|].
        cbn [map]. rewrite !sum_list_cons, IHY. cbn [length map].
        rewrite Ha.
        rewrite Nat2Z.inj_succ, Z.pow_succ_r by lia.
        replace (base - (s + sum_list (map (fun i => nth i sizes 0) ss)))
          with (base - s - sum_list (map (fun i => nth i sizes 0) ss)) by lia.
        lia. }
      rewrite Hm, (IH (S a) (base - s) Hn). lia.
    + rewrite (IH (S a) base Hn). lia.
Qed.

Lemma restricted_inclusion_exclusion_pie (R : Z) (sizes : list Z) (mask : Z) :
  restricted_inclusion_exclusion R sizes mask = remaining_count R sizes mask.
Proof.
  unfold restricted_inclusion_exclusion, remaining_count, needed_classes.
  rewrite (subsets_filter_pie R sizes _ sizes 0).
  - reflexivity.
  - intros j _. reflexivity.
Qed.

Lemma pie_none_needed (R : Z) (cls : list (Z * bool)) (base : Z) :
  Forall (fun p => snd p = false) cls -> pie R cls base = base ^ R.
Proof.
  induction 1 as [|[s b] cls Hb _ IH]; simpl; [reflexivity|].
  simpl in Hb. subst b. rewrite IH. lia.
Qed.

Lemma pie_all_needed (R : Z) (sizes : list Z) (base : Z) :
  pie R (needed_classes sizes 0) base = pie R (all_needed sizes) base.
Proof.
  f_equal. unfold needed_classes, all_needed.
  apply list_eq. intros i. rewrite list_lookup_imap, map_fmap, list_lookup_fmap.
  destruct (sizes !! i); simpl; [|reflexivity].
  rewrite Z.bits_0. reflexivity.
Qed.

Lemma remaining_count_full (R : Z) (sizes : list Z) :
  remaining_count R sizes (2 ^ Z.of_nat (length sizes) - 1) = sum_list sizes ^ R.
Proof.
  unfold remaining_count. apply pie_none_needed.
  unfold needed_classes. apply Forall_forall. intros p Hp.
  apply list_elem_of_lookup in Hp as [i Hi].
  rewrite list_lookup_imap in Hi.
  destruct (sizes !! i) as [s|] eqn:Hs; simpl in Hi; [|discriminate].
  inversion Hi; subst; simpl.
  apply lookup_lt_Some in Hs.
  replace (2 ^ Z.of_nat (length sizes) - 1) with (Z.ones (Z.of_nat (length sizes)))
    by (rewrite Z.ones_equiv; lia).
  rewrite Z.ones_spec_low by lia. reflexivity.
Qed.

(** ** The unranking loop of [generateCombinatorial] *)

Lemma class_sizes_nonneg {A : Type} (classes : list (list A)) :
  Forall (fun x => 0 <= x) (class_sizes classes).
Proof.
  unfold class_sizes. induction classes; simpl; constructor; [lia|assumption].
Qed.

Lemma countRemaining_array (R : Z) (sizes arr : list Z) :
  0 <= R -> Forall (fun x => 0 <= x) sizes ->
  countRemaining R sizes (AArray arr) = Throw RangeError.
Proof.
  intros HR Hnn. unfold countRemaining.
  assert (HR' : (R <? 0) = false) by (apply Z.ltb_ge; exact HR).
  rewrite HR', (existsb_neg_false _ Hnn). reflexivity.
Qed.

Lemma unrank_raises (len : Z) (activeSets : list jsstring) (rank : Z) :
  0 < len -> activeSets <> [] ->
  unrank len activeSets rank = Throw RangeError.
Proof.
  intros Hlen Hne. unfold unrank.
  destruct (Z.to_nat len) as [|n] eqn:Hn; [lia|].
  destruct activeSets as [|set sets]; [congruence|].
  cbn [seq positionLoop length classLoop u_memo].
  unfold countRem. rewrite lookup_empty.
  rewrite countRemaining_array; [reflexivity|lia|].
  apply (class_sizes_nonneg (set :: sets)).
Qed.

(** ** Claims on the combinatorial counters *)

(** C1.  For every non-negative length [L] and every list of non-negative
    class sizes, [countValidSequences(L, sizes)] returns the
    inclusion-exclusion sum over all subsets of the classes; that sum is the
    number of length-[L] sequences over the pooled alphabet in which every
    class occupies at least one position; and
    [countValidSequences(5, [2,3])] is [2850]. *)
Theorem countValidSequences_inclusion_exclusion (L : Z) (sizes : list Z) :
  0 <= L -> Forall (fun x => 0 <= x) sizes ->
  countValidSequences L sizes = Ok (inclusion_exclusion L sizes)
  /\ inclusion_exclusion L sizes
     = Z.of_nat (length (List.filter (covers_all (tagged_classes sizes))
                           (all_seqs (Z.to_nat L)
                              (concat (tagged_classes sizes)))))
  /\ countValidSequences 5 [2; 3] = Ok 2850.
Proof.
  intros HL Hnn. split; [|split].
  - rewrite inclusion_exclusion_pie. apply countValidSequences_pie; assumption.
  - apply inclusion_exclusion_count; assumption.
  - vm_compute. reflexivity.
Qed.

Lemma countValidSequences_inclusion_exclusion_witness :
  (0 <= 5 /\ Forall (fun x => 0 <= x) [2; 3])
  /\ countValidSequences 5 [2; 3] = Ok (inclusion_exclusion 5 [2; 3])
  /\ inclusion_exclusion 5 [2; 3]
     = Z.of_nat (length (List.filter (covers_all (tagged_classes [2; 3]))
                           (all_seqs (Z.to_nat 5)
                              (concat (tagged_classes [2; 3])))))
  /\ countValidSequences 5 [2; 3] = Ok 2850.
Proof.
  assert (H5 : 0 <= 5) by lia.
  assert (Hs : Forall (fun x => 0 <= x) [2; 3]) by (repeat constructor; lia).
  split; [split; assumption|].
  exact (countValidSequences_inclusion_exclusion 5 [2; 3] H5 Hs).
Defined.

(** C7, as amended.  For at most 30 classes (the masks are 32-bit
    integers), every non-negative [remLen], non-negative sizes and every
    mask in range, [countRemaining] returns the inclusion-exclusion sum over
    the subsets of the classes whose bit is unset in the mask; with mask [0]
    it agrees with [countValidSequences]; with every class marked satisfied
    it returns [(sum of sizes)^remLen]. *)
Theorem countRemaining_restricted (R : Z) (sizes : list Z) (mask : Z) :
  0 <= R -> Forall (fun x => 0 <= x) sizes -> (length sizes <= 30)%nat ->
  0 <= mask < 2 ^ Z.of_nat (length sizes) ->
  countRemaining R sizes (ANum mask)
  = Ok (restricted_inclusion_exclusion R sizes mask)
  /\ countRemaining R sizes (ANum 0) = countValidSequences R sizes
  /\ countRemaining R sizes (ANum (2 ^ Z.of_nat (length sizes) - 1))
     = Ok (sum_list sizes ^ R).
Proof.
  intros HR Hnn Hk Hmask.
  assert (Hpow : 0 < 2 ^ Z.of_nat (length sizes))
    by (apply Z.pow_pos_nonneg; lia).
  split; [|split].
  - rewrite restricted_inclusion_exclusion_pie.
    apply countRemaining_spec; assumption.
  - rewrite countRemaining_spec, countValidSequences_pie by (assumption || lia).
    f_equal. unfold remaining_count. apply pie_all_needed.
  - rewrite countRemaining_spec by (assumption || lia).
    f_equal. apply remaining_count_full.
Qed.

Lemma countRemaining_restricted_witness :
  (0 <= 5 /\ Forall (fun x => 0 <= x) [2; 3] /\ (length [2; 3] <= 30)%nat
   /\ 0 <= 1 < 2 ^ Z.of_nat (length [2; 3]))
  /\ countRemaining 5 [2; 3] (ANum 1)
     = Ok (restricted_inclusion_exclusion 5 [2; 3] 1)
  /\ countRemaining 5 [2; 3] (ANum 0) = countValidSequences 5 [2; 3]
  /\ countRemaining 5 [2; 3] (ANum (2 ^ Z.of_nat (length [2; 3]) - 1))
     = Ok (sum_list [2; 3] ^ 5).
Proof.
  assert (H5 : 0 <= 5) by lia.
  assert (Hs : Forall (fun x => 0 <= x) [2; 3]) by (repeat constructor; lia).
  assert (Hk : (length [2; 3] <= 30)%nat) by (simpl; lia).
  assert (Hm : 0 <= 1 < 2 ^ Z.of_nat (length [2; 3])) by (simpl; lia).
  split; [repeat split; assumption || lia|].
  exact (countRemaining_restricted 5 [2; 3] 1 H5 Hs Hk Hm).
Defined.

(** C7 as stated fails beyond 30 classes: with 31 classes [(1 << 31) - 1]
    is negative, so mask [0] is rejected as out of range, while
    [countValidSequences] returns a count. *)
Lemma countRemaining_31_classes :
  countRemaining 0 (replicate 31 1) (ANum 0) = Throw RangeError
  /\ countValidSequences 0 (replicate 31 1)
     = Ok (inclusion_exclusion 0 (replicate 31 1)).
Proof.
  split.
  - reflexivity.
  - rewrite inclusion_exclusion_pie. apply countValidSequences_pie; [lia|].
    apply Forall_forall. intros x Hx. apply elem_of_replicate in Hx. lia.
Qed.

(** C6, the defect.  The unranking loop of [generateCombinatorial] calls
    [countRem(remLen, setSizes, nextMask)] although [countRem] takes
    [(r, m)]: [countRemaining] receives the array [setSizes] as its mask and
    throws [RangeError], for every rank, as soon as there is a position to
    fill and a class to try. *)
Theorem generateCombinatorial_unranking_throws (len : Z)
    (activeSets : list jsstring) (rank : Z) :
  0 < len -> activeSets <> [] ->
  unrank len activeSets rank = Throw RangeError.
Proof. apply unrank_raises. Qed.

Lemma generateCombinatorial_unranking_throws_witness :
  (0 < 4
   /\ [list_ascii_of_string "ab"; list_ascii_of_string "cd"] <> [])
  /\ unrank 4 [list_ascii_of_string "ab"; list_ascii_of_string "cd"] 0
     = Throw RangeError.
Proof.
  assert (H4 : 0 < 4) by lia.
  assert (Hne : [list_ascii_of_string "ab"; list_ascii_of_string "cd"] <> [])
    by discriminate.
  split; [split; assumption|].
  exact (generateCombinatorial_unranking_throws 4 _ 0 H4 Hne).
Defined.

(** ** Claims on the entropy analyser *)

(** *** Numbers handed to the analyser *)

Lemma exact_value_pos (m : positive) (e : Z) :
  (0 <=? e) || (Z.pos m mod 2 ^ (- e) =? 0) = true ->
  0 < (if 0 <=? e then Z.pos m * 2 ^ e else Z.pos m / 2 ^ (- e)).
Proof.
  intros H. destruct (Z.leb_spec 0 e) as [He|He].
  - apply Z.mul_pos_pos; [lia|apply Z.pow_pos_nonneg; lia].
  - simpl in H. apply Z.eqb_eq in H.
    assert (Hp : 0 < 2 ^ (- e)) by (apply Z.pow_pos_nonneg; lia).
    apply Z.div_str_pos. split; [exact Hp|].
    apply Z.divide_pos_le; [lia|].
    apply Z.mod_divide; [lia|exact H].
Qed.

Lemma integerValue_finite (x : float) (n : Z) :
  integerValue x = Some n ->
  Number_isFinite x = true /\ PrimFloat.leb x 0 = (n <=? 0).
Proof.
  unfold integerValue, Number_isFinite. rewrite FloatAxioms.leb_spec.
  change (Prim2SF 0) with (S754_zero false).
  destruct (Prim2SF x) as [s|s| |s m e]; try discriminate.
  - intros [= <-]. split; reflexivity.
  - destruct ((0 <=? e) || (Z.pos m mod 2 ^ (- e) =? 0)) eqn:E;
      [|discriminate].
    pose proof (exact_value_pos m e E) as Hv. cbv zeta.
    intros [= <-]. split; [reflexivity|].
    unfold SFleb, SFcompare. destruct s; symmetry.
    + apply Z.leb_le. lia.
    + apply Z.leb_gt. lia.
Qed.


(** *** The dispatch *)


Lemma calculateEntropy_num_integers (math : MathLib) (len poolSize : float)
    (L P : Z) (sizes : list Z) (forceEach : bool) (method : string) :
  integerValue len = Some L -> integerValue poolSize = Some P ->
  calculateEntropy_num math len poolSize sizes forceEach method
  = calculateEntropy math L P sizes forceEach method.
Proof.
  intros HL HP.
  destruct (integerValue_finite len L HL) as [F1 G1].
  destruct (integerValue_finite poolSize P HP) as [F2 G2].
  unfold calculateEntropy_num, calculateEntropy, BigInt,
    calculateShannonEntropyGuaranteed_num, countValidSequences_num.
  rewrite F1, F2, G1, G2, HL, HP. reflexivity.
Qed.





(** ** Rules for the sampling monad *)

Lemma post_ret {A : Type} (I : rstate -> Prop) (a : A) (Q : A -> Prop) :
  Q a -> post I (ret a) Q.
Proof. intros HQ s Hs. simpl. auto. Qed.

Lemma post_bind {A B : Type} (I : rstate -> Prop) (m : M A) (f : A -> M B)
    (P : A -> Prop) (Q : B -> Prop) :
  post I m P -> (forall a, P a -> post I (f a) Q) -> post I (bindM m f) Q.
Proof.
  intros Hm Hf s Hs. unfold bindM. specialize (Hm s Hs).
  destruct (m s) as [a s'|e s'|s']; [|exact Hm|exact Hm].
  destruct Hm as [Hs' Ha]. apply (Hf a Ha s' Hs').
Qed.

Lemma post_weaken {A : Type} (I : rstate -> Prop) (m : M A) (P Q : A -> Prop) :
  post I m P -> (forall a, P a -> Q a) -> post I m Q.
Proof.
  intros Hm HPQ s Hs. specialize (Hm s Hs).
  destruct (m s); [|exact Hm|exact Hm]. destruct Hm; auto.
Qed.

Lemma post_try {A : Type} (I : rstate -> Prop) (m : M A) (h : exn -> M A)
    (Q : A -> Prop) :
  post I m Q -> (forall e, post I (h e) Q) -> post I (try_catch m h) Q.
Proof.
  intros Hm Hh s Hs. unfold try_catch. specialize (Hm s Hs).
  destruct (m s) as [a s'|e s'|s']; [exact Hm| |exact Hm].
  apply (Hh e s' Hm).
Qed.

Lemma post_lift {A : Type} (I : rstate -> Prop) (r : result A) (Q : A -> Prop) :
  (forall a, r = Ok a -> Q a) -> post I (lift r) Q.
Proof.
  intros H s Hs. unfold lift. destruct r; auto.
Qed.

Lemma halts_ret {A : Type} (a : A) : halts (ret a).
Proof. intros s. exact Logic.I. Qed.

Lemma halts_bind {A B : Type} (m : M A) (f : A -> M B) :
  halts m -> (forall a, halts (f a)) -> halts (bindM m f).
Proof.
  intros Hm Hf s. unfold bindM. specialize (Hm s).
  destruct (m s) as [a s'|e s'|s']; [apply Hf|exact Logic.I|exact Hm].
Qed.

Lemma halts_try {A : Type} (m : M A) (h : exn -> M A) :
  halts m -> (forall e, halts (h e)) -> halts (try_catch m h).
Proof.
  intros Hm Hh s. unfold try_catch. specialize (Hm s).
  destruct (m s) as [a s'|e s'|s']; [exact Logic.I|apply Hh|exact Hm].
Qed.

Lemma halts_lift {A : Type} (r : result A) : r <> Diverge -> halts (lift r).
Proof. intros H s. unfold lift. destruct r; auto. Qed.

Lemma noraise_ret {A : Type} (a : A) : noraise (ret a).
Proof. intros s. exact Logic.I. Qed.

Lemma noraise_bind {A B : Type} (m : M A) (f : A -> M B) :
  noraise m -> (forall a, noraise (f a)) -> noraise (bindM m f).
Proof.
  intros Hm Hf s. unfold bindM. specialize (Hm s).
  destruct (m s) as [a s'|e s'|s']; [apply Hf|exact Hm|exact Logic.I].
Qed.

Lemma noraise_try {A : Type} (m : M A) (h : exn -> M A) :
  (forall e, noraise (h e)) -> noraise (try_catch m h).
Proof.
  intros Hh s. unfold try_catch.
  destruct (m s) as [a s'|e s'|s']; [exact Logic.I|apply Hh|exact Logic.I].
Qed.

Lemma invariant_True (B : Z) : invariant B (fun _ => True).
Proof. split; auto. Qed.

Lemma invariant_asked (B : Z) :
  invariant B (fun s => Forall (fun max => max <= B) (asked s)).
Proof.
  split; simpl; intros.
  - assumption.
  - constructor; assumption.
Qed.

(** ** The bounded random integers *)

Lemma post_drawBelow (B : Z) (I : rstate -> Prop) (crypto : RandomSource)
    (limit max : Z) :
  invariant B I -> 0 < max ->
  forall fuel, post I (drawBelow crypto fuel limit max) (fun x => 0 <= x < max).
Proof.
  intros HI Hmax. induction fuel as [|fuel IH]; intros s Hs; simpl.
  - exact Hs.
  - pose proof (inv_call B I HI s Hs) as Hs'.
    destruct (getRandomValues crypto (calls s)) as [f|]; [|exact Hs'].
    destruct (limit <=? f 0%nat mod 2 ^ 32).
    + apply IH. exact Hs'.
    + split; [exact Hs'|].
      apply Z.rem_bound_pos; [|exact Hmax].
      apply Z.mod_pos_bound. lia.
Qed.

Lemma post_getSecureRandomInt (B : Z) (I : rstate -> Prop)
    (crypto : RandomSource) (fuel : nat) (max : Z) :
  invariant B I -> max <= B ->
  post I (getSecureRandomInt crypto fuel max) (index_below max).
Proof.
  intros HI HB s Hs. unfold getSecureRandomInt.
  pose proof (inv_ask B I HI s max HB Hs) as Hs'.
  destruct (Z.leb_spec max 0) as [H0|H0].
  - split; [exact Hs'|]. left. lia.
  - destruct (Z.eqb_spec max 1) as [H1|H1].
    + split; [exact Hs'|]. left. lia.
    + pose proof (post_drawBelow B I crypto (RANGE / max * max) max HI H0 fuel
                    _ Hs') as H.
      destruct (drawBelow crypto fuel (RANGE / max * max) max _); auto.
      destruct H as [H2 H3]. split; [exact H2|]. right. lia.
Qed.

Lemma js_get_index_below {A : Type} (l : list A) (x : Z) :
  l <> [] -> index_below (Z.of_nat (length l)) x ->
  exists c, js_get l x = Some c /\ c ∈ l.
Proof.
  intros Hne Hx. unfold js_get.
  assert (Hr : 0 <= x < Z.of_nat (length l)).
  { destruct Hx as [[H1 ->]|[H1 H2]]; [|exact H2].
    destruct l; [congruence|]. simpl length. lia. }
  assert (E : (x <? 0) = false) by (apply Z.ltb_ge; lia).
  rewrite E.
  destruct (lookup_lt_is_Some_2 l (Z.to_nat x) ltac:(lia)) as [c Hc].
  exists c. split; [exact Hc|]. apply list_elem_of_lookup. eauto.
Qed.

(** ** Rejection sampling and guaranteed inclusion *)

Lemma post_drawChars (B : Z) (I : rstate -> Prop) (crypto : RandomSource)
    (fuel : nat) (pool : jsstring) :
  invariant B I -> pool <> [] -> Z.of_nat (length pool) <= B ->
  forall (n : nat) (temp : list elem),
    post I (drawChars crypto fuel n pool temp)
      (fun a => exists chars,
           a = temp ++ map Some chars /\ length chars = n
           /\ Forall (fun c => c ∈ pool) chars).
Proof.
  intros HI Hne HB. induction n as [|n IH]; intros temp; simpl.
  - apply post_ret. exists []. rewrite app_nil_r. auto.
  - eapply post_bind; [apply (post_getSecureRandomInt B); assumption|].
    intros i Hi. cbv beta.
    destruct (js_get_index_below pool i Hne Hi) as [c [Hc Hin]].
    rewrite Hc.
    eapply post_weaken; [apply IH|].
    intros a [chars [-> [Hlen Hall]]].
    exists (c :: chars). rewrite <- app_assoc. simpl.
    split; [reflexivity|]. split; [lia|]. constructor; assumption.
Qed.

Lemma post_attemptLoop (B : Z) (I : rstate -> Prop) (crypto : RandomSource)
    (fuel : nat) (len : Z) (pool : jsstring) (activeSets : list jsstring)
    (forceEach : bool) :
  invariant B I -> pool <> [] -> Z.of_nat (length pool) <= B ->
  forall attempts,
    post I (attemptLoop crypto fuel attempts len pool activeSets forceEach)
      (fun r => forall temp, r = Some temp ->
                             sampled len pool activeSets forceEach temp).
Proof.
  intros HI Hne HB. induction attempts as [|attempts IH]; simpl.
  - apply post_ret. intros temp H. discriminate.
  - eapply post_bind; [apply (post_drawChars B); assumption|].
    intros temp [chars [-> [Hlen Hall]]]. cbv beta. rewrite app_nil_l.
    destruct (forceEach && isMissing activeSets (map Some chars)) eqn:E.
    + apply IH.
    + apply post_ret. intros temp H. inversion H; subst.
      exists chars. repeat split; try assumption.
      intros ->. simpl in E. exact E.
Qed.

Lemma post_pickEach (B : Z) (I : rstate -> Prop) (crypto : RandomSource)
    (fuel : nat) :
  invariant B I ->
  forall (sets : list jsstring) (passwordArr : list elem),
    Forall (fun set => set <> [] /\ Z.of_nat (length set) <= B) sets ->
    post I (pickEach crypto fuel sets passwordArr)
      (fun a => exists picks,
           a = passwordArr ++ map Some picks
           /\ Forall2 (fun set c => c ∈ set) sets picks).
Proof.
  intros HI. induction sets as [|set sets IH]; intros arr Hsets; simpl.
  - apply post_ret. exists []. rewrite app_nil_r. split; [reflexivity|constructor].
  - inversion Hsets as [|? ? [Hne HB] Hsets']; subst.
    eapply post_bind; [apply (post_getSecureRandomInt B); assumption|].
    intros i Hi. cbv beta.
    destruct (js_get_index_below set i Hne Hi) as [c [Hc Hin]].
    rewrite Hc.
    eapply post_weaken; [apply IH; assumption|].
    intros a [picks [-> HF]].
    exists (c :: picks). rewrite <- app_assoc. simpl.
    split; [reflexivity|]. constructor; assumption.
Qed.

Lemma Forall2_covering (sets : list jsstring) (picks : list ascii) :
  Forall2 (fun set c => c ∈ set) sets picks ->
  length picks = length sets
  /\ Forall (fun set => exists c, c ∈ picks /\ c ∈ set) sets.
Proof.
  induction 1 as [|set c sets picks Hc _ [IH1 IH2]]; simpl.
  - split; [reflexivity|constructor].
  - split; [lia|]. constructor.
    + exists c. split; [left|exact Hc].
    + eapply Forall_impl; [exact IH2|].
      intros s [c' [H1 H2]]. exists c'. split; [right; exact H1|exact H2].
Qed.

Lemma post_generateGuaranteed (B : Z) (I : rstate -> Prop)
    (crypto : RandomSource) (fuel : nat) (len : Z) (pool : jsstring)
    (activeSets : list jsstring) :
  invariant B I -> pool <> [] -> Z.of_nat (length pool) <= B ->
  Forall (fun set => set <> [] /\ Z.of_nat (length set) <= B) activeSets ->
  post I (generateGuaranteed crypto fuel len pool activeSets)
    (guaranteed len activeSets).
Proof.
  intros HI Hne HB Hsets. unfold generateGuaranteed.
  eapply post_bind; [apply (post_pickEach B); assumption|].
  intros a [picks [-> HF]]. cbv beta. rewrite app_nil_l.
  apply Forall2_covering in HF as [Hlen Hcov].
  eapply post_weaken; [apply (post_drawChars B); assumption|].
  intros a [chars [-> [Hl Hall]]].
  exists (picks ++ chars). rewrite map_app. split; [reflexivity|].
  rewrite length_map in Hl.
  split.
  - rewrite length_app, Hl, Hlen. reflexivity.
  - eapply Forall_impl; [exact Hcov|].
    intros s [c [H1 H2]]. exists c. split; [|exact H2].
    apply elem_of_app. left. exact H1.
Qed.

(** ** The shuffler *)

Lemma js_set_in_range (a : list elem) (i : nat) (v : elem) :
  (i < length a)%nat -> js_set a (Z.of_nat i) v = <[i := v]> a.
Proof.
  intros Hi. unfold js_set.
  assert (E : (Z.of_nat i <? 0) = false) by (apply Z.ltb_ge; lia).
  rewrite E, Nat2Z.id.
  assert (E2 : (i <? length a)%nat = true) by (apply Nat.ltb_lt; exact Hi).
  rewrite E2. reflexivity.
Qed.

Lemma js_get_in_range {A : Type} (a : list A) (i : nat) :
  js_get a (Z.of_nat i) = a !! i.
Proof.
  unfold js_get.
  assert (E : (Z.of_nat i <? 0) = false) by (apply Z.ltb_ge; lia).
  rewrite E, Nat2Z.id. reflexivity.
Qed.

Lemma swap_Permutation (a : list elem) (i : nat) (j : Z) :
  (i < length a)%nat -> 0 <= j <= Z.of_nat i ->
  js_set (js_set a (Z.of_nat i) (default None (js_get a j))) j
    (default None (js_get a (Z.of_nat i)))
  ≡ₚ a.
Proof.
  intros Hi Hj.
  replace j with (Z.of_nat (Z.to_nat j)) by lia.
  rewrite !js_get_in_range.
  destruct (lookup_lt_is_Some_2 a i Hi) as [ai Hai].
  destruct (lookup_lt_is_Some_2 a (Z.to_nat j) ltac:(lia)) as [aj Haj].
  rewrite Hai, Haj. simpl.
  rewrite (js_set_in_range a i aj Hi).
  rewrite js_set_in_range by (rewrite length_insert; lia).
  apply Permutation_insert_swap; assumption.
Qed.

Lemma post_shuffleLoop (B : Z) (I : rstate -> Prop) (crypto : RandomSource)
    (fuel : nat) :
  invariant B I ->
  forall (i : nat) (array : list elem),
    (i < length array)%nat \/ i = 0%nat -> Z.of_nat (length array) <= B ->
    post I (shuffleLoop crypto fuel i array) (fun a => a ≡ₚ array).
Proof.
  intros HI. induction i as [|i IH]; intros array Hi HB; simpl.
  - apply post_ret. reflexivity.
  - destruct Hi as [Hi|Hi]; [|discriminate].
    eapply post_bind; [apply (post_getSecureRandomInt B); [assumption|lia]|].
    intros j Hj. cbv beta.
    assert (Hr : 0 <= j <= Z.of_nat (S i)).
    { destruct Hj as [[H1 _]|[_ H2]]; lia. }
    pose proof (swap_Permutation array (S i) j Hi Hr) as Hperm.
    eapply post_weaken.
    + apply IH.
      * left. rewrite (Permutation_length Hperm). lia.
      * rewrite (Permutation_length Hperm). exact HB.
    + intros a Ha. rewrite Ha. exact Hperm.
Qed.

Lemma post_fisherYatesShuffle (B : Z) (I : rstate -> Prop)
    (crypto : RandomSource) (fuel : nat) (array : list elem) :
  invariant B I -> Z.of_nat (length array) <= B ->
  post I (fisherYatesShuffle crypto fuel array) (fun a => a ≡ₚ array).
Proof.
  intros HI HB. unfold fisherYatesShuffle.
  apply (post_shuffleLoop B); [assumption| |assumption].
  destruct array; simpl; [right; reflexivity|left; lia].
Qed.

(** ** The second tier never delivers *)

Lemma post_drawBigBelow (B : Z) (I : rstate -> Prop) (crypto : RandomSource)
    (nBytes : nat) (limit maxExclusive : Z) :
  invariant B I ->
  forall fuel,
    post I (drawBigBelow crypto fuel nBytes limit maxExclusive) (fun _ => True).
Proof.
  intros HI. induction fuel as [|fuel IH]; intros s Hs; simpl.
  - exact Hs.
  - pose proof (inv_call B I HI s Hs) as Hs'.
    destruct (getRandomValues crypto (calls s)) as [f|]; [|exact Hs'].
    destruct (bytesToBigInt f nBytes <? limit).
    + split; [exact Hs'|exact Logic.I].
    + apply IH. exact Hs'.
Qed.

Lemma post_getSecureRandomBigInt (B : Z) (I : rstate -> Prop)
    (crypto : RandomSource) (fuel : nat) (maxExclusive : Z) :
  invariant B I ->
  post I (getSecureRandomBigInt crypto fuel maxExclusive) (fun _ => True).
Proof.
  intros HI. unfold getSecureRandomBigInt.
  destruct (maxExclusive <=? 1).
  - apply post_ret. exact Logic.I.
  - apply (post_drawBigBelow B). exact HI.
Qed.

Lemma post_generateCombinatorial (B : Z) (I : rstate -> Prop)
    (crypto : RandomSource) (fuel : nat) (len : Z)
    (activeSets : list jsstring) :
  invariant B I -> 0 < len -> activeSets <> [] ->
  post I (generateCombinatorial crypto fuel len activeSets) (fun _ => False).
Proof.
  intros HI Hlen Hne. unfold generateCombinatorial.
  eapply post_bind; [apply post_lift; intros; exact Logic.I|].
  intros totalValid _.
  eapply post_bind; [apply (post_getSecureRandomBigInt B); exact HI|].
  intros rank _.
  eapply post_bind with (P := fun _ => False).
  - apply post_lift. intros a Ha.
    rewrite unrank_raises in Ha by assumption. discriminate.
  - intros a [].
Qed.

(** ** A reliable source never makes the samplers throw *)

Lemma noraise_drawBelow (crypto : RandomSource) (limit max : Z) :
  reliable crypto -> forall fuel, noraise (drawBelow crypto fuel limit max).
Proof.
  intros Hrel. induction fuel as [|fuel IH]; intros s; simpl; [exact Logic.I|].
  destruct (Hrel (calls s)) as [f Hf]. rewrite Hf.
  destruct (limit <=? f 0%nat mod 2 ^ 32); [apply IH|exact Logic.I].
Qed.

Lemma noraise_getSecureRandomInt (crypto : RandomSource) (fuel : nat) (max : Z) :
  reliable crypto -> noraise (getSecureRandomInt crypto fuel max).
Proof.
  intros Hrel s. unfold getSecureRandomInt.
  destruct (max <=? 0); [exact Logic.I|].
  destruct (max =? 1); [exact Logic.I|].
  apply noraise_drawBelow. exact Hrel.
Qed.

Lemma noraise_drawChars (crypto : RandomSource) (fuel : nat) (pool : jsstring) :
  reliable crypto ->
  forall n temp, noraise (drawChars crypto fuel n pool temp).
Proof.
  intros Hrel. induction n as [|n IH]; intros temp; simpl.
  - apply noraise_ret.
  - apply noraise_bind; [apply noraise_getSecureRandomInt; exact Hrel|].
    intros i. apply IH.
Qed.

Lemma noraise_attemptLoop (crypto : RandomSource) (fuel : nat) (len : Z)
    (pool : jsstring) (activeSets : list jsstring) (forceEach : bool) :
  reliable crypto ->
  forall attempts,
    noraise (attemptLoop crypto fuel attempts len pool activeSets forceEach).
Proof.
  intros Hrel. induction attempts as [|attempts IH]; simpl.
  - apply noraise_ret.
  - apply noraise_bind; [apply noraise_drawChars; exact Hrel|].
    intros temp. destruct (forceEach && isMissing activeSets temp).
    + apply IH.
    + apply noraise_ret.
Qed.

Lemma noraise_pickEach (crypto : RandomSource) (fuel : nat) :
  reliable crypto ->
  forall sets arr, noraise (pickEach crypto fuel sets arr).
Proof.
  intros Hrel. induction sets as [|set sets IH]; intros arr; simpl.
  - apply noraise_ret.
  - apply noraise_bind; [apply noraise_getSecureRandomInt; exact Hrel|].
    intros i. apply IH.
Qed.

Lemma noraise_generateGuaranteed (crypto : RandomSource) (fuel : nat)
    (len : Z) (pool : jsstring) (activeSets : list jsstring) :
  reliable crypto ->
  noraise (generateGuaranteed crypto fuel len pool activeSets).
Proof.
  intros Hrel. unfold generateGuaranteed.
  apply noraise_bind; [apply noraise_pickEach; exact Hrel|].
  intros a. apply noraise_drawChars. exact Hrel.
Qed.

Lemma noraise_shuffleLoop (crypto : RandomSource) (fuel : nat) :
  reliable crypto ->
  forall i array, noraise (shuffleLoop crypto fuel i array).
Proof.
  intros Hrel. induction i as [|i IH]; intros array; simpl.
  - apply noraise_ret.
  - apply noraise_bind; [apply noraise_getSecureRandomInt; exact Hrel|].
    intros j. apply IH.
Qed.

(** ** Facts on every configuration *)

Lemma applyFilters_length (ambig unsafe : bool) (baseSet : jsstring)
    (isSymbol : bool) :
  (length (applyFilters ambig unsafe baseSet isSymbol) <= length baseSet)%nat.
Proof.
  unfold applyFilters.
  assert (H1 : forall (f : ascii -> bool) (l : jsstring),
             (length (List.filter f l) <= length l)%nat).
  { intros f l. induction l as [|x l IH]; simpl; [lia|].
    destruct (f x); simpl; lia. }
  destruct ambig, (isSymbol && unsafe);
    repeat (etransitivity; [apply H1|]); lia.
Qed.

Lemma filter_nonempty_spec (sets : list jsstring) :
  Forall (fun set => set <> [])
    (List.filter (fun s => (0 <? length s)%nat) sets).
Proof.
  apply Forall_forall. intros set Hin.
  apply list_elem_of_In, List.filter_In in Hin as [_ H].
  apply Nat.ltb_lt in H. destruct set; simpl in H; [lia|discriminate].
Qed.

Lemma filter_nonempty_concat (sets : list jsstring) :
  (length (concat (List.filter (fun s => (0 <? length s)%nat) sets))
   <= length (concat sets))%nat
  /\ (length (List.filter (fun s => (0 <? length s)%nat) sets)
      <= length sets)%nat.
Proof.
  induction sets as [|s sets [IH1 IH2]]; simpl; [lia|].
  destruct (0 <? length s)%nat; simpl; rewrite ?length_app; lia.
Qed.

Lemma length_concat_member (sets : list jsstring) (set : jsstring) :
  set ∈ sets -> (length set <= length (concat sets))%nat.
Proof.
  induction 1; simpl; rewrite length_app; lia.
Qed.

Lemma prepareActiveSets_facts (options : Options) :
  let cfg := prepareActiveSets options in
  5 <= cfg_length cfg <= 128
  /\ (length (cfg_activeSets cfg) <= 4)%nat
  /\ Forall (fun set => set <> [] /\ Z.of_nat (length set) <= 128)
       (cfg_activeSets cfg)
  /\ Z.of_nat (length (concat (cfg_activeSets cfg))) <= 94.
Proof.
  intros cfg. subst cfg. unfold prepareActiveSets. cbn [cfg_length cfg_activeSets].
  set (ambig := default false (opt_ambig options)).
  set (unsafe := default false (opt_unsafe options)).
  set (sets := _ ++ _).
  assert (Hsets : (length sets <= 4)%nat /\ (length (concat sets) <= 94)%nat).
  { subst sets.
    pose proof (applyFilters_length ambig unsafe UPPER false) as HU.
    pose proof (applyFilters_length ambig unsafe LOWER false) as HL.
    pose proof (applyFilters_length ambig unsafe NUMS false) as HN.
    pose proof (applyFilters_length ambig unsafe SYMBOLS true) as HS.
    change (length UPPER) with 26%nat in HU.
    change (length LOWER) with 26%nat in HL.
    change (length NUMS) with 10%nat in HN.
    change (length SYMBOLS) with 32%nat in HS.
    destruct (default true (opt_upper options)),
             (default true (opt_lower options)),
             (default true (opt_nums options)),
             (default true (opt_symbols options));
      cbn [app concat length]; rewrite ?length_app, ?app_nil_r; cbn [length];
      lia. }
  destruct Hsets as [Hk Hpool].
  pose proof (filter_nonempty_concat sets) as [Hc Hl].
  match goal with |- context [Z.min 128 ?x] => generalize x end. intros parsed.
  split; [lia|]. split; [lia|]. split; [|lia].
  pose proof (filter_nonempty_spec sets) as Hne.
  apply Forall_forall. intros set Hin. split.
  - eapply Forall_forall in Hne; eauto.
  - pose proof (length_concat_member _ _ Hin). lia.
Qed.

Lemma concat_nonempty (sets : list jsstring) :
  sets <> [] -> Forall (fun set => set <> []) sets -> concat sets <> [].
Proof.
  intros Hne Hall. destruct sets as [|s sets]; [congruence|].
  inversion Hall; subst. simpl. destruct s; [congruence|discriminate].
Qed.

(** ** What [generatePassword] returns *)

Lemma isMissing_false_covering (activeSets : list jsstring)
    (chars : list ascii) :
  isMissing activeSets (map Some chars) = false -> covering activeSets chars.
Proof.
  unfold isMissing, covering. intros H.
  apply Forall_forall. intros set Hin.
  destruct (existsb (fun char => includes set char) (map Some chars)) eqn:E.
  - apply existsb_exists in E as [e [He Hinc]].
    apply in_map_iff in He as [c [<- Hc]]. simpl in Hinc.
    apply existsb_exists in Hinc as [c' [Hc' Heq]].
    apply Ascii.eqb_eq in Heq. subst c'.
    exists c. split; apply list_elem_of_In; assumption.
  - exfalso.
    assert (existsb (fun set => negb (existsb (fun char => includes set char)
                                        (map Some chars))) activeSets = true).
    { apply existsb_exists. exists set. split; [apply list_elem_of_In; exact Hin|].
      rewrite E. reflexivity. }
    congruence.
Qed.

Lemma post_thirdTier (B : Z) (I : rstate -> Prop) (crypto : RandomSource)
    (fuel : nat) (len : Z) (pool : jsstring) (activeSets : list jsstring) :
  invariant B I -> pool <> [] -> Z.of_nat (length pool) <= B ->
  Forall (fun set => set <> [] /\ Z.of_nat (length set) <= B) activeSets ->
  post I
    (try_catch (generateGuaranteed crypto fuel len pool activeSets)
       (fun _ => ret []))
    (fun a => (a = [] /\ ~ reliable crypto) \/ guaranteed len activeSets a).
Proof.
  intros HI Hne HB Hsets s Hs. unfold try_catch.
  pose proof (post_generateGuaranteed B I crypto fuel len pool activeSets
                HI Hne HB Hsets s Hs) as Hp.
  destruct (generateGuaranteed crypto fuel len pool activeSets s)
    as [a s'|e s'|s'] eqn:E.
  - destruct Hp as [Hs' Hg]. split; [exact Hs'|right; exact Hg].
  - simpl. split; [exact Hp|]. left. split; [reflexivity|].
    intros Hrel.
    pose proof (noraise_generateGuaranteed crypto fuel len pool activeSets
                  Hrel s) as Hn.
    rewrite E in Hn. exact Hn.
  - exact Hp.
Qed.

Lemma post_ensureCrypto (I : rstate -> Prop) (crypto : RandomSource) :
  post I (ensureCrypto crypto) (fun _ => crypto_available crypto = true).
Proof.
  unfold ensureCrypto. destruct (crypto_available crypto).
  - apply post_ret. reflexivity.
  - apply post_lift. intros a H. discriminate.
Qed.

Lemma noPassword_false (r : option (list elem)) :
  noPassword r = false -> exists a, r = Some a /\ a <> [].
Proof.
  destruct r as [a|]; simpl; [|discriminate].
  intros H. exists a. split; [reflexivity|].
  destruct a; [discriminate|discriminate].
Qed.

Lemma usable_pool (cfg : ActiveSetConfiguration) :
  usable cfg -> concat (cfg_activeSets cfg) <> [].
Proof.
  intros [_ [_ [Hne [Hsets _]]]]. apply concat_nonempty; [exact Hne|].
  eapply Forall_impl; [exact Hsets|]. intros ? [? _]. assumption.
Qed.

Lemma prepareActiveSets_usable (options : Options) :
  cfg_activeSets (prepareActiveSets options) <> [] ->
  usable (prepareActiveSets options).
Proof.
  intros Hne. pose proof (prepareActiveSets_facts options) as H.
  cbv zeta in H. destruct H as [Hlen [Hk [Hsets Hpool]]].
  repeat split; try assumption; lia.
Qed.

Lemma post_firstTier (I : rstate -> Prop) (crypto : RandomSource)
    (fuel : nat) (cfg : ActiveSetConfiguration) :
  invariant 128 I -> usable cfg ->
  post I (firstTier crypto fuel cfg)
    (fun r => forall temp, r = Some temp ->
                sampled (cfg_length cfg) (concat (cfg_activeSets cfg))
                  (cfg_activeSets cfg) (cfg_forceEach cfg) temp).
Proof.
  intros HI Hu. pose proof (usable_pool cfg Hu) as Hpne.
  destruct Hu as [Hlen [Hk [Hne [Hsets HpB]]]].
  unfold firstTier. apply post_try.
  - unfold tryRandomSampling. apply (post_attemptLoop 128); assumption.
  - intros e. apply post_ret. intros temp H. discriminate.
Qed.

Lemma post_secondTier (I : rstate -> Prop) (crypto : RandomSource)
    (fuel : nat) (cfg : ActiveSetConfiguration) (r1 : option (list elem)) :
  invariant 128 I -> usable cfg ->
  (forall temp, r1 = Some temp ->
     sampled (cfg_length cfg) (concat (cfg_activeSets cfg))
       (cfg_activeSets cfg) (cfg_forceEach cfg) temp) ->
  post I (secondTier crypto fuel cfg r1)
    (fun p => noPassword (fst p) = false ->
              exists temp, fst p = Some temp
                /\ sampled (cfg_length cfg) (concat (cfg_activeSets cfg))
                     (cfg_activeSets cfg) (cfg_forceEach cfg) temp).
Proof.
  intros HI [Hlen [Hk [Hne [Hsets HpB]]]] H1. unfold secondTier.
  destruct (noPassword r1) eqn:En; cbn [negb].
  - destruct (cfg_forceEach cfg).
    + apply post_try.
      * eapply post_bind with (P := fun _ => False).
        -- apply (post_generateCombinatorial 128); [assumption|lia|assumption].
        -- intros a [].
      * intros e. apply post_ret. cbn [fst noPassword]. discriminate.
    + apply post_ret. cbn [fst]. congruence.
  - apply post_ret. cbn [fst]. intros _.
    destruct (noPassword_false r1 En) as [a [-> _]].
    exists a. split; [reflexivity|]. apply H1. reflexivity.
Qed.

Lemma post_lastTier (I : rstate -> Prop) (crypto : RandomSource)
    (fuel : nat) (cfg : ActiveSetConfiguration)
    (t2 : option (list elem) * string) :
  invariant 128 I -> usable cfg ->
  (noPassword (fst t2) = false ->
   exists temp, fst t2 = Some temp
     /\ sampled (cfg_length cfg) (concat (cfg_activeSets cfg))
          (cfg_activeSets cfg) (cfg_forceEach cfg) temp) ->
  post I (thirdTier crypto fuel cfg t2)
    (fun p => delivered crypto cfg (fst p)).
Proof.
  intros HI Hu H2. pose proof (usable_pool cfg Hu) as Hpne.
  destruct Hu as [Hlen [Hk [Hne [Hsets HpB]]]]. unfold thirdTier.
  destruct (noPassword (fst t2)) eqn:En.
  - eapply post_bind; [apply (post_thirdTier 128); assumption|].
    intros a Ha. apply post_ret. cbn [fst].
    destruct Ha as [Ha|[chars [-> [Hl Hcov]]]]; [left; exact Ha|].
    right. exists chars. split; [reflexivity|]. split; [lia|].
    intros _. exact Hcov.
  - apply post_ret. cbn [fst].
    destruct (H2 eq_refl) as [temp [Ht [chars [-> [Hl [_ Hm]]]]]].
    rewrite Ht. cbn [default].
    right. exists chars. split; [reflexivity|]. split; [exact Hl|].
    intros Hf. apply isMissing_false_covering. apply Hm. exact Hf.
Qed.

Lemma delivered_length (crypto : RandomSource) (cfg : ActiveSetConfiguration)
    (a : list elem) :
  usable cfg -> delivered crypto cfg a -> Z.of_nat (length a) <= 128.
Proof.
  intros [Hlen _] [[-> _]|[chars [Hp [Hl _]]]]; [simpl; lia|].
  rewrite (Permutation_length Hp), length_map, Hl. lia.
Qed.

Lemma post_generatePassword (I : rstate -> Prop) (math : MathLib)
    (crypto : RandomSource) (fuel : nat) (options : Options) :
  invariant 128 I ->
  post I (generatePassword math crypto fuel options) (generated crypto options).
Proof.
  intros HI. unfold generatePassword.
  eapply post_bind; [apply post_ensureCrypto|]. intros _ _. cbv zeta.
  set (cfg := prepareActiveSets options).
  destruct (length (cfg_activeSets cfg) =? 0)%nat eqn:Ek.
  { apply post_ret. unfold generated. cbn [error]. fold cfg.
    apply Nat.eqb_eq in Ek.
    destruct (cfg_activeSets cfg); [reflexivity|discriminate]. }
  assert (Hne : cfg_activeSets cfg <> []).
  { intros H0. rewrite H0 in Ek. discriminate. }
  destruct (cfg_forceEach cfg
            && (cfg_length cfg <? Z.of_nat (length (cfg_activeSets cfg)))) eqn:Ef.
  { apply post_ret. unfold generated. cbn [error]. fold cfg.
    apply andb_true_iff in Ef as [E1 E2]. apply Z.ltb_lt in E2. auto. }
  pose proof (prepareActiveSets_usable options Hne) as Hu. fold cfg in Hu.
  eapply post_bind; [apply (post_firstTier I crypto fuel cfg HI Hu)|].
  intros r1 H1.
  eapply post_bind; [apply (post_secondTier I crypto fuel cfg r1 HI Hu H1)|].
  intros t2 H2.
  eapply post_bind; [apply (post_lastTier I crypto fuel cfg t2 HI Hu H2)|].
  intros t3 H3.
  pose proof (delivered_length crypto cfg _ Hu H3) as Hl3.
  eapply post_bind; [apply (post_fisherYatesShuffle 128); assumption|].
  intros shuffled Hsh.
  eapply post_bind; [apply post_lift; intros; exact Logic.I|].
  intros e _. apply post_ret.
  unfold generated. cbn [error password]. fold cfg.
  split; [exact Hne|]. exists shuffled. split; [reflexivity|].
  destruct H3 as [[H3 Hrel]|[chars [Hp Hrest]]].
  - left. split; [|exact Hrel]. rewrite H3 in Hsh.
    apply Permutation_nil_r. exact Hsh.
  - right. exists chars. split; [|exact Hrest].
    rewrite Hsh. exact Hp.
Qed.

(** ** From the shuffled array to the password *)

Lemma join_map_Some (chars : list ascii) : join (map Some chars) = chars.
Proof.
  unfold join. induction chars as [|c chars IH]; simpl; [reflexivity|].
  rewrite IH. reflexivity.
Qed.

Lemma join_Permutation (a b : list elem) : a ≡ₚ b -> join a ≡ₚ join b.
Proof.
  unfold join. induction 1; simpl.
  - reflexivity.
  - apply Permutation_app_head. assumption.
  - rewrite !app_assoc. apply Permutation_app_tail. apply Permutation_app_comm.
  - etransitivity; eassumption.
Qed.

Lemma delivered_password (crypto : RandomSource) (cfg : ActiveSetConfiguration)
    (a : list elem) :
  delivered crypto cfg a ->
  (join a = [] /\ ~ reliable crypto)
  \/ length (join a) = Z.to_nat (cfg_length cfg)
     /\ (cfg_forceEach cfg = true ->
         Forall (fun set => exists c, c ∈ join a /\ c ∈ set)
           (cfg_activeSets cfg)).
Proof.
  intros [[-> Hrel]|[chars [Hp [Hl Hcov]]]].
  - left. split; [reflexivity|exact Hrel].
  - right. apply join_Permutation in Hp. rewrite join_map_Some in Hp.
    split.
    + rewrite (Permutation_length Hp). exact Hl.
    + intros Hf. specialize (Hcov Hf).
      eapply Forall_impl; [exact Hcov|].
      intros set [c [H1 H2]]. exists c. split; [|exact H2].
      rewrite Hp. exact H1.
Qed.

Lemma generatePassword_generated (math : MathLib) (crypto : RandomSource)
    (fuel : nat) (options : Options) (s : rstate) (r : GenerationResult)
    (s' : rstate) :
  generatePassword math crypto fuel options s = Ret r s' ->
  generated crypto options r.
Proof.
  intros H.
  pose proof (post_generatePassword (fun _ => True) math crypto fuel options
                (invariant_True 128) s Logic.I) as Hp.
  rewrite H in Hp. apply Hp.
Qed.

Lemma lcgSource_reliable : reliable lcgSource.
Proof. intros n. simpl. eexists. reflexivity. Qed.

(** ** Claims on the passwords returned *)

(** C3, as amended.  With [forceEach] and a clamped length that is at least
    the number of active classes, whatever the random source does, a
    non-empty password returned without an error field holds a character of
    every active class, whichever tier produced it; and so does every
    password returned when no call to the random source throws. *)
Theorem generatePassword_coverage (math : MathLib) (crypto : RandomSource)
    (fuel : nat) (options : Options) (s : rstate) (r : GenerationResult)
    (s' : rstate) :
  cfg_forceEach (prepareActiveSets options) = true ->
  Z.of_nat (length (cfg_activeSets (prepareActiveSets options)))
  <= cfg_length (prepareActiveSets options) ->
  generatePassword math crypto fuel options s = Ret r s' ->
  error r = None ->
  reliable crypto \/ password r <> [] ->
  Forall (fun set => exists c, c ∈ password r /\ c ∈ set)
    (cfg_activeSets (prepareActiveSets options)).
Proof.
  intros Hf _ Hrun Herr Hpw.
  apply generatePassword_generated in Hrun. unfold generated in Hrun.
  rewrite Herr in Hrun. destruct Hrun as [_ [a [Ha Hd]]].
  apply delivered_password in Hd. rewrite Ha.
  destruct Hd as [[Hnil Hrel]|[_ Hcov]].
  - exfalso. destruct Hpw as [Hpw|Hpw]; [exact (Hrel Hpw)|].
    apply Hpw. rewrite Ha. exact Hnil.
  - apply Hcov. exact Hf.
Qed.

Lemma generatePassword_coverage_witness :
  match generatePassword integerMath lcgSource 10 noOptions initial_state with
  | Ret r _ =>
    Forall (fun set => exists c, c ∈ password r /\ c ∈ set)
      (cfg_activeSets (prepareActiveSets noOptions))
  | _ => False
  end.
Proof.
  lazymatch eval vm_compute in
    (generatePassword integerMath lcgSource 10 noOptions initial_state) with
  | Ret ?r ?s =>
    assert (E : generatePassword integerMath lcgSource 10 noOptions
                  initial_state = Ret r s) by (vm_compute; reflexivity);
    rewrite E;
    apply (generatePassword_coverage integerMath lcgSource 10 noOptions
             initial_state r s);
    [ vm_compute; reflexivity
    | vm_compute; discriminate
    | exact E
    | reflexivity
    | left; exact lcgSource_reliable ]
  end.
Defined.

(** C3 as stated fails: with a source whose every call throws, the record
    returned for the default options ([forceEach], four classes, length
    [18]) has no error field, and its password, being empty, holds a
    character of no class. *)
Lemma generatePassword_coverage_empty :
  cfg_forceEach (prepareActiveSets noOptions) = true
  /\ Z.of_nat (length (cfg_activeSets (prepareActiveSets noOptions)))
     <= cfg_length (prepareActiveSets noOptions)
  /\ match
       generatePassword integerMath brokenSource 10 noOptions initial_state
     with
     | Ret r _ =>
       error r = None
       /\ Forall (fun set => ~ exists c, c ∈ password r /\ c ∈ set)
            (cfg_activeSets (prepareActiveSets noOptions))
       /\ length (cfg_activeSets (prepareActiveSets noOptions)) = 4%nat
     | _ => False
     end.
Proof.
  split; [reflexivity|]. split; [vm_compute; discriminate|].
  lazymatch eval vm_compute in
    (generatePassword integerMath brokenSource 10 noOptions initial_state) with
  | Ret ?r ?s =>
    assert (E : generatePassword integerMath brokenSource 10 noOptions
                  initial_state = Ret r s) by (vm_compute; reflexivity);
    rewrite E
  end.
  split; [reflexivity|]. split; [|reflexivity].
  apply Forall_forall. intros set _ [c [Hc _]]. cbn [password] in Hc.
  inversion Hc.
Qed.

(** ** The rejection loop of [getSecureRandomInt] *)

Lemma drawBelow_accepts (crypto : RandomSource) (limit max : Z) :
  0 < max ->
  forall (j fuel : nat) (s : rstate) (f : nat -> Z),
    (j < fuel)%nat ->
    (forall i, (i < j)%nat -> is_Some (getRandomValues crypto (calls s + i))) ->
    getRandomValues crypto (calls s + j) = Some f ->
    f 0%nat mod 2 ^ 32 < limit ->
    exists x s', drawBelow crypto fuel limit max s = Ret x s' /\ 0 <= x < max.
Proof.
  intros Hmax. induction j as [|j IH]; intros fuel s f Hfuel Hbefore Hj Hacc;
    (destruct fuel as [|fuel]; [lia|]); simpl.
  - rewrite Nat.add_0_r in Hj. rewrite Hj.
    assert (E : (limit <=? f 0%nat mod 2 ^ 32) = false) by (apply Z.leb_gt; exact Hacc).
    rewrite E. eexists _, _. split; [reflexivity|].
    apply Z.rem_bound_pos; [apply Z.mod_pos_bound; lia|exact Hmax].
  - destruct (Hbefore 0%nat ltac:(lia)) as [g Hg].
    rewrite Nat.add_0_r in Hg. rewrite Hg.
    destruct (limit <=? g 0%nat mod 2 ^ 32) eqn:E.
    + apply (IH fuel _ f); [lia| |simpl|exact Hacc].
      * intros i Hi. simpl. specialize (Hbefore (S i) ltac:(lia)).
        rewrite Nat.add_succ_r in Hbefore. exact Hbefore.
      * simpl. rewrite Nat.add_succ_r in Hj. exact Hj.
    + eexists _, _. split; [reflexivity|].
      apply Z.rem_bound_pos; [apply Z.mod_pos_bound; lia|exact Hmax].
Qed.

Lemma drawBelow_halts (crypto : RandomSource) (limit max : Z) :
  forall (j fuel : nat) (s : rstate) (f : nat -> Z),
    (j < fuel)%nat ->
    getRandomValues crypto (calls s + j) = Some f ->
    f 0%nat mod 2 ^ 32 < limit ->
    match drawBelow crypto fuel limit max s with
    | Hang _ => False
    | _ => True
    end.
Proof.
  induction j as [|j IH]; intros fuel s f Hfuel Hj Hacc;
    (destruct fuel as [|fuel]; [lia|]); simpl.
  - rewrite Nat.add_0_r in Hj. rewrite Hj.
    assert (E : (limit <=? f 0%nat mod 2 ^ 32) = false) by (apply Z.leb_gt; exact Hacc).
    rewrite E. exact Logic.I.
  - destruct (getRandomValues crypto (calls s)) as [g|]; [|exact Logic.I].
    destruct (limit <=? g 0%nat mod 2 ^ 32); [|exact Logic.I].
    apply (IH fuel _ f); [lia|simpl|exact Hacc].
    rewrite Nat.add_succ_r in Hj. exact Hj.
Qed.

Lemma drawBelow_never_accepts (crypto : RandomSource) (max : Z) :
  forall (fuel : nat) (s : rstate),
    (forall x s', drawBelow crypto fuel 0 max s <> Ret x s')
    /\ (reliable crypto -> exists s', drawBelow crypto fuel 0 max s = Hang s').
Proof.
  induction fuel as [|fuel IH]; intros s; simpl.
  - split; [discriminate|]. intros _. eexists. reflexivity.
  - destruct (getRandomValues crypto (calls s)) as [f|] eqn:Hf.
    + assert (E : (0 <=? f 0%nat mod 2 ^ 32) = true).
      { apply Z.leb_le. apply Z.mod_pos_bound. lia. }
      rewrite E. apply IH.
    + split; [discriminate|]. intros Hrel.
      destruct (Hrel (calls s)) as [f Hf']. congruence.
Qed.

Lemma limit_positive (max : Z) :
  2 <= max <= 2 ^ 32 -> 2 ^ 32 - max < RANGE / max * max <= 2 ^ 32.
Proof.
  intros Hmax. unfold RANGE.
  pose proof (Z.div_mod (2 ^ 32) max ltac:(lia)) as Hdm.
  pose proof (Z.mod_pos_bound (2 ^ 32) max ltac:(lia)) as Hmod.
  lia.
Qed.

(** C10.  [getSecureRandomInt(max)] returns [0] without drawing when
    [max <= 1]; for [2 <= max <= 2^32] the threshold
    [floor(2^32/max)*max] is positive, and as soon as the source delivers a
    word below it the loop ends with a value in [[0, max)]; for
    [max > 2^32] the threshold is [0], no draw is ever accepted and, with a
    source that does not throw, the loop never ends; and every bound that
    [generatePassword] passes is at most [128]. *)
Theorem getSecureRandomInt_rejection_loop :
  (forall crypto fuel max s,
      max <= 1 ->
      getSecureRandomInt crypto fuel max s
      = Ret 0 {| calls := calls s; asked := max :: asked s |})
  /\ (forall max,
         2 <= max <= 2 ^ 32 ->
         0 < RANGE / max * max
         /\ forall crypto s (j : nat) f,
             (forall i, (i < j)%nat ->
                        is_Some (getRandomValues crypto (calls s + i))) ->
             getRandomValues crypto (calls s + j) = Some f ->
             f 0%nat mod 2 ^ 32 < RANGE / max * max ->
             forall fuel, (j < fuel)%nat ->
               exists x s',
                 getSecureRandomInt crypto fuel max s = Ret x s'
                 /\ 0 <= x < max)
  /\ (forall max,
         2 ^ 32 < max ->
         RANGE / max * max = 0
         /\ forall crypto fuel s,
             (forall x s', getSecureRandomInt crypto fuel max s <> Ret x s')
             /\ (reliable crypto ->
                 exists s', getSecureRandomInt crypto fuel max s = Hang s'))
  /\ (forall math crypto fuel options,
         Forall (fun max => max <= 128)
           (asked (final_state
                     (generatePassword math crypto fuel options
                        initial_state)))).
Proof.
  split; [|split; [|split]].
  - intros crypto fuel max s Hmax. unfold getSecureRandomInt.
    destruct (Z.leb_spec max 0); [reflexivity|].
    assert (E : (max =? 1) = true) by (apply Z.eqb_eq; lia).
    rewrite E. reflexivity.
  - intros max Hmax. pose proof (limit_positive max Hmax) as Hlim.
    split; [lia|].
    intros crypto s j f Hbefore Hj Hacc fuel Hfuel.
    unfold getSecureRandomInt.
    assert (E0 : (max <=? 0) = false) by (apply Z.leb_gt; lia).
    assert (E1 : (max =? 1) = false) by (apply Z.eqb_neq; lia).
    rewrite E0, E1.
    apply (drawBelow_accepts crypto _ max ltac:(lia) j fuel _ f);
      simpl; assumption.
  - intros max Hmax.
    assert (Hlim : RANGE / max * max = 0).
    { unfold RANGE. rewrite Z.div_small by lia. reflexivity. }
    split; [exact Hlim|].
    intros crypto fuel s. unfold getSecureRandomInt.
    assert (E0 : (max <=? 0) = false) by (apply Z.leb_gt; lia).
    assert (E1 : (max =? 1) = false) by (apply Z.eqb_neq; lia).
    rewrite E0, E1, Hlim.
    apply drawBelow_never_accepts.
  - intros math crypto fuel options.
    pose proof (post_generatePassword
                  (fun s => Forall (fun max => max <= 128) (asked s))
                  math crypto fuel options (invariant_asked 128)
                  initial_state) as Hp.
    simpl in Hp. specialize (Hp (List.Forall_nil _)).
    destruct (generatePassword math crypto fuel options initial_state);
      simpl; tauto.
Qed.

(** ** When every tier fails *)

Lemma generatePassword_exhausted_run (math : MathLib) (crypto : RandomSource)
    (fuel : nat) (options : Options) (s s1 s2 s3 : rstate) (H : float) :
  crypto_available crypto = true ->
  cfg_activeSets (prepareActiveSets options) <> [] ->
  (cfg_forceEach (prepareActiveSets options) = true ->
   Z.of_nat (length (cfg_activeSets (prepareActiveSets options)))
   <= cfg_length (prepareActiveSets options)) ->
  tier1_fails crypto fuel (prepareActiveSets options) s s1 ->
  tier2_fails crypto fuel (prepareActiveSets options) s1 s2 ->
  tier3_fails crypto fuel (prepareActiveSets options) s2 s3 ->
  calculateEntropy math (cfg_length (prepareActiveSets options))
    (Z.of_nat (length (concat (cfg_activeSets (prepareActiveSets options)))))
    (map (fun set => Z.of_nat (length set))
       (cfg_activeSets (prepareActiveSets options)))
    (cfg_forceEach (prepareActiveSets options)) guaranteed_inclusion
  = Ok H ->
  generatePassword math crypto fuel options s
  = Ret {| password := []; entropy := H;
           method := Some guaranteed_inclusion; error := None |} s3.
Proof.
  intros Hav Hne Hlen H1 H2 H3 Hent.
  unfold generatePassword.
  set (cfg := prepareActiveSets options) in *.
  unfold bindM at 1. unfold ensureCrypto. rewrite Hav. cbn [ret].
  assert (Ek : (length (cfg_activeSets cfg) =? 0)%nat = false).
  { apply Nat.eqb_neq. destruct (cfg_activeSets cfg); [congruence|discriminate]. }
  rewrite Ek.
  assert (Ef : cfg_forceEach cfg
               && (cfg_length cfg <? Z.of_nat (length (cfg_activeSets cfg)))
               = false).
  { destruct (cfg_forceEach cfg); [|reflexivity].
    apply Z.ltb_ge. apply Hlen. reflexivity. }
  rewrite Ef.
  (* tier 1 *)
  unfold bindM at 1.
  assert (T1 : exists r1,
             try_catch
               (tryRandomSampling crypto fuel (cfg_length cfg)
                  (concat (cfg_activeSets cfg)) (cfg_activeSets cfg)
                  (cfg_forceEach cfg))
               (fun _ => ret None) s
             = Ret r1 s1 /\ noPassword r1 = true).
  { unfold try_catch. destruct H1 as [[e E]|[r [E Hn]]]; cbv zeta in E; rewrite E.
    - exists None. split; reflexivity.
    - exists r. split; [reflexivity|exact Hn]. }
  destruct T1 as [r1 [T1 Hn1]]. rewrite T1.
  (* tier 2 *)
  unfold bindM at 1. rewrite Hn1. cbn [negb].
  assert (T2 : exists t2,
             (if cfg_forceEach cfg
              then
                try_catch
                  (a <- generateCombinatorial crypto fuel (cfg_length cfg)
                          (cfg_activeSets cfg) ;;
                   ret (a, combinatorial_sampling))
                  (fun _ => ret (None, pure_random))
              else ret (r1, pure_random)) s1
             = Ret t2 s2 /\ noPassword (fst t2) = true).
  { unfold tier2_fails in H2. destruct (cfg_forceEach cfg).
    - unfold try_catch, bindM.
      destruct H2 as [[e E]|[r [E Hn]]]; cbv zeta in E; rewrite E.
      + eexists. split; reflexivity.
      + eexists. split; [reflexivity|exact Hn].
    - subst s2. eexists. split; [reflexivity|exact Hn1]. }
  destruct T2 as [t2 [T2 Hn2]]. rewrite T2.
  (* tier 3 *)
  unfold bindM at 1. rewrite Hn2.
  unfold bindM at 1. unfold try_catch at 1.
  destruct H3 as [e3 E3]. rewrite E3. cbn [ret fst snd].
  (* shuffle, entropy *)
  unfold bindM at 1. unfold fisherYatesShuffle. cbn [length Nat.sub shuffleLoop ret].
  unfold bindM. rewrite Hent. reflexivity.
Qed.

(** C8, as amended.  When all three tiers fail for a configuration that
    passed the configuration checks, nothing is raised: [generatePassword]
    returns a record with the empty password, the method tag
    [guaranteed_inclusion], the entropy computed for that tag, and no error
    field. *)
Theorem generatePassword_exhausted (math : MathLib) (crypto : RandomSource)
    (fuel : nat) (options : Options) (s s1 s2 s3 : rstate) (H : float) :
  crypto_available crypto = true ->
  cfg_activeSets (prepareActiveSets options) <> [] ->
  (cfg_forceEach (prepareActiveSets options) = true ->
   Z.of_nat (length (cfg_activeSets (prepareActiveSets options)))
   <= cfg_length (prepareActiveSets options)) ->
  tier1_fails crypto fuel (prepareActiveSets options) s s1 ->
  tier2_fails crypto fuel (prepareActiveSets options) s1 s2 ->
  tier3_fails crypto fuel (prepareActiveSets options) s2 s3 ->
  calculateEntropy math (cfg_length (prepareActiveSets options))
    (Z.of_nat (length (concat (cfg_activeSets (prepareActiveSets options)))))
    (map (fun set => Z.of_nat (length set))
       (cfg_activeSets (prepareActiveSets options)))
    (cfg_forceEach (prepareActiveSets options)) guaranteed_inclusion
  = Ok H ->
  generatePassword math crypto fuel options s
  = Ret {| password := []; entropy := H;
           method := Some guaranteed_inclusion; error := None |} s3.
Proof. apply generatePassword_exhausted_run. Qed.

Lemma brokenSource_tiers :
  tier1_fails brokenSource 10 (prepareActiveSets noOptions) initial_state
    {| calls := 1; asked := [94] |}
  /\ tier2_fails brokenSource 10 (prepareActiveSets noOptions)
       {| calls := 1; asked := [94] |} {| calls := 2; asked := [94] |}
  /\ tier3_fails brokenSource 10 (prepareActiveSets noOptions)
       {| calls := 2; asked := [94] |} {| calls := 3; asked := [26; 94] |}.
Proof.
  split; [|split].
  - left. exists CryptoError. vm_compute. reflexivity.
  - unfold tier2_fails. change (cfg_forceEach (prepareActiveSets noOptions)) with true.
    cbv iota zeta. left. exists CryptoError. vm_compute. reflexivity.
  - exists CryptoError. vm_compute. reflexivity.
Qed.

Lemma generatePassword_exhausted_witness :
  (crypto_available brokenSource = true
   /\ cfg_activeSets (prepareActiveSets noOptions) <> []
   /\ (cfg_forceEach (prepareActiveSets noOptions) = true ->
       Z.of_nat (length (cfg_activeSets (prepareActiveSets noOptions)))
       <= cfg_length (prepareActiveSets noOptions))
   /\ tier1_fails brokenSource 10 (prepareActiveSets noOptions) initial_state
        {| calls := 1; asked := [94] |}
   /\ tier2_fails brokenSource 10 (prepareActiveSets noOptions)
        {| calls := 1; asked := [94] |} {| calls := 2; asked := [94] |}
   /\ tier3_fails brokenSource 10 (prepareActiveSets noOptions)
        {| calls := 2; asked := [94] |} {| calls := 3; asked := [26; 94] |}
   /\ calculateEntropy integerMath (cfg_length (prepareActiveSets noOptions))
        (Z.of_nat
           (length (concat (cfg_activeSets (prepareActiveSets noOptions)))))
        (map (fun set => Z.of_nat (length set))
           (cfg_activeSets (prepareActiveSets noOptions)))
        (cfg_forceEach (prepareActiveSets noOptions)) guaranteed_inclusion
      = Ok (calculateShannonEntropyGuaranteed integerMath 18 [26; 26; 10; 32]))
  /\ generatePassword integerMath brokenSource 10 noOptions initial_state
     = Ret {| password := [];
              entropy :=
                calculateShannonEntropyGuaranteed integerMath 18
                  [26; 26; 10; 32];
              method := Some guaranteed_inclusion; error := None |}
         {| calls := 3; asked := [26; 94] |}.
Proof.
  destruct brokenSource_tiers as [T1 [T2 T3]].
  assert (Hav : crypto_available brokenSource = true) by reflexivity.
  assert (Hne : cfg_activeSets (prepareActiveSets noOptions) <> [])
    by (vm_compute; discriminate).
  assert (Hlen : cfg_forceEach (prepareActiveSets noOptions) = true ->
                 Z.of_nat (length (cfg_activeSets (prepareActiveSets noOptions)))
                 <= cfg_length (prepareActiveSets noOptions))
    by (intros _; vm_compute; discriminate).
  assert (Hent : calculateEntropy integerMath
                   (cfg_length (prepareActiveSets noOptions))
                   (Z.of_nat
                      (length
                         (concat (cfg_activeSets (prepareActiveSets noOptions)))))
                   (map (fun set => Z.of_nat (length set))
                      (cfg_activeSets (prepareActiveSets noOptions)))
                   (cfg_forceEach (prepareActiveSets noOptions))
                   guaranteed_inclusion
                 = Ok (calculateShannonEntropyGuaranteed integerMath 18
                         [26; 26; 10; 32]))
    by reflexivity.
  split; [repeat split; assumption|].
  exact (generatePassword_exhausted integerMath brokenSource 10 noOptions
           initial_state _ _ _ _ Hav Hne Hlen T1 T2 T3 Hent).
Defined.

(** C8 as stated fails: with a source whose every call throws, all three
    tiers fail, and [generatePassword] returns a record with no error field,
    an empty password and a method tag. *)
Lemma generatePassword_silent_empty_password :
  (tier1_fails brokenSource 10 (prepareActiveSets noOptions) initial_state
     {| calls := 1; asked := [94] |}
   /\ tier2_fails brokenSource 10 (prepareActiveSets noOptions)
        {| calls := 1; asked := [94] |} {| calls := 2; asked := [94] |}
   /\ tier3_fails brokenSource 10 (prepareActiveSets noOptions)
        {| calls := 2; asked := [94] |} {| calls := 3; asked := [26; 94] |})
  /\ match
       generatePassword integerMath brokenSource 10 noOptions initial_state
     with
     | Ret r _ =>
       password r = [] /\ error r = None
       /\ method r = Some guaranteed_inclusion
     | _ => False
     end.
Proof.
  split; [exact brokenSource_tiers|].
  vm_compute. repeat split.
Qed.

(** ** Hexadecimal digits *)

Lemma small_cases (d : Z) (P : Z -> Prop) :
  0 <= d <= 15 ->
  P 0 -> P 1 -> P 2 -> P 3 -> P 4 -> P 5 -> P 6 -> P 7 -> P 8 -> P 9 ->
  P 10 -> P 11 -> P 12 -> P 13 -> P 14 -> P 15 -> P d.
Proof.
  intros Hd.
  assert (H : d = 0 \/ d = 1 \/ d = 2 \/ d = 3 \/ d = 4 \/ d = 5 \/ d = 6
              \/ d = 7 \/ d = 8 \/ d = 9 \/ d = 10 \/ d = 11 \/ d = 12
              \/ d = 13 \/ d = 14 \/ d = 15) by lia.
  intros; repeat (destruct H as [->|H]; [assumption|]); subst; assumption.
Qed.

Lemma parseInt_hexChar (d : Z) :
  0 <= d <= 15 -> parseInt [hexChar d] 16 = Some d.
Proof.
  intros Hd. apply (small_cases d (fun d => parseInt [hexChar d] 16 = Some d) Hd);
    reflexivity.
Qed.

Lemma log2_div16 (n : Z) : 16 <= n -> Z.log2 (n / 16) = Z.log2 n - 4.
Proof.
  intros Hn. change 16 with (2 ^ 4).
  rewrite <- Z.shiftr_div_pow2, Z.log2_shiftr by lia.
  assert (4 <= Z.log2 n) by (apply Z.log2_le_pow2; lia). lia.
Qed.

Lemma hexLoop_spec :
  forall (fuel : nat) (n : Z) (acc : list ascii),
    0 < n -> Z.log2 n / 4 <= Z.of_nat fuel ->
    exists rest,
      hexLoop fuel n acc = hexChar (n / 16 ^ (Z.log2 n / 4)) :: rest ++ acc
      /\ Z.of_nat (length rest) = Z.log2 n / 4.
Proof.
  induction fuel as [|fuel IH]; intros n acc Hn Hfuel.
  - assert (Hq : Z.log2 n / 4 = 0).
    { pose proof (Z.log2_nonneg n).
      assert (0 <= Z.log2 n / 4) by (apply Z.div_pos; lia). lia. }
    assert (Hlt : n < 16).
    { assert (Z.log2 n < 4).
      { pose proof (Z.div_mod (Z.log2 n) 4 ltac:(lia)).
        pose proof (Z.mod_pos_bound (Z.log2 n) 4 ltac:(lia)). lia. }
      change 16 with (2 ^ 4). apply Z.log2_lt_pow2; lia. }
    exists []. rewrite Hq. simpl hexLoop. rewrite Z.pow_0_r, Z.div_1_r.
    rewrite Z.mod_small by lia. split; reflexivity.
  - cbn [hexLoop]. destruct (Z.ltb_spec n 16) as [Hlt|Hge].
    + assert (Hq : Z.log2 n / 4 = 0).
      { assert (Z.log2 n < 4) by (apply Z.log2_lt_pow2; [lia|exact Hlt]).
        pose proof (Z.log2_nonneg n). apply Z.div_small. lia. }
      exists []. rewrite Hq, Z.pow_0_r, Z.div_1_r.
      rewrite Z.mod_small by lia. split; reflexivity.
    + assert (Hlog : Z.log2 (n / 16) = Z.log2 n - 4) by (apply log2_div16; exact Hge).
      assert (Hq : Z.log2 (n / 16) / 4 = Z.log2 n / 4 - 1).
      { rewrite Hlog. replace (Z.log2 n - 4) with (Z.log2 n + (-1) * 4) by lia.
        rewrite Z.div_add by lia. lia. }
      assert (Hpos : 0 < n / 16) by (apply Z.div_str_pos; lia).
      assert (Hq0 : 0 <= Z.log2 n / 4 - 1).
      { rewrite <- Hq. apply Z.div_pos; [apply Z.log2_nonneg|lia]. }
      destruct (IH (n / 16) (hexChar (n mod 16) :: acc) Hpos ltac:(lia))
        as [rest [Hrest Hlen]].
      exists (rest ++ [hexChar (n mod 16)]).
      unfold hexChar in *. rewrite Hrest, Hq.
      split.
      * f_equal.
        -- f_equal. f_equal.
           rewrite Z.div_div by (try apply Z.pow_pos_nonneg; lia).
           f_equal.
           replace (Z.log2 n / 4) with (Z.succ (Z.log2 n / 4 - 1)) at 2 by lia.
           rewrite Z.pow_succ_r by lia. reflexivity.
        -- rewrite <- app_assoc. reflexivity.
      * rewrite length_app, Nat2Z.inj_add, Hlen, Hq. simpl. lia.
Qed.

Lemma leading_nibble (n : Z) :
  0 < n ->
  let q := Z.log2 n / 4 in
  let d := n / 16 ^ q in
  1 <= d <= 15 /\ Z.log2 d = Z.log2 n - 4 * q.
Proof.
  intros Hn q d.
  assert (Hq : 0 <= q) by (apply Z.div_pos; [apply Z.log2_nonneg|lia]).
  assert (Hr : 0 <= Z.log2 n - 4 * q <= 3).
  { pose proof (Z.div_mod (Z.log2 n) 4 ltac:(lia)).
    pose proof (Z.mod_pos_bound (Z.log2 n) 4 ltac:(lia)). subst q. lia. }
  assert (Hd : d = Z.shiftr n (4 * q)).
  { rewrite Z.shiftr_div_pow2 by lia. subst d. f_equal.
    rewrite Z.pow_mul_r by lia. reflexivity. }
  assert (Hlog : Z.log2 d = Z.log2 n - 4 * q).
  { rewrite Hd, Z.log2_shiftr by lia. lia. }
  assert (Hpos : 0 < d).
  { subst d. apply Z.div_str_pos. split; [apply Z.pow_pos_nonneg; lia|].
    replace (16 ^ q) with (2 ^ (4 * q)) by (rewrite Z.pow_mul_r by lia; reflexivity).
    etransitivity; [|apply (Z.log2_spec n Hn)].
    apply Z.pow_le_mono_r; lia. }
  split; [|exact Hlog].
  assert (d < 2 ^ 4); [|lia].
  apply Z.log2_lt_pow2; lia.
Qed.

Lemma toString16_spec (n : Z) :
  0 < n ->
  exists rest,
    toString16 n = hexChar (n / 16 ^ (Z.log2 n / 4)) :: rest
    /\ Z.of_nat (length rest) = Z.log2 n / 4.
Proof.
  intros Hn. unfold toString16.
  destruct (hexLoop_spec (Z.to_nat (Z.log2 n)) n [] Hn) as [rest [H1 H2]].
  - pose proof (Z.log2_nonneg n).
    rewrite Z2Nat.id by lia.
    apply Z.div_le_upper_bound; lia.
  - exists rest. rewrite app_nil_r in H1. split; assumption.
Qed.

(** ** Integers below [2^53] convert exactly *)

Lemma digits2_pos_size (p : positive) : digits2_pos p = Pos.size p.
Proof. induction p; simpl; congruence. Qed.

Lemma digits2_pos_log2 (p : positive) :
  Z.pos (digits2_pos p) = Z.log2 (Z.pos p) + 1.
Proof.
  rewrite digits2_pos_size. destruct p; simpl; lia.
Qed.

Lemma iter_xO_digits (p k : positive) :
  digits2_pos (Pos.iter xO p k) = (digits2_pos p + k)%positive.
Proof.
  induction k using Pos.peano_ind.
  - simpl. lia.
  - rewrite Pos.iter_succ. simpl. rewrite IHk. lia.
Qed.

Lemma iter_xO_value (p k : positive) :
  Z.pos (Pos.iter xO p k) = Z.pos p * 2 ^ Z.pos k.
Proof.
  change (Pos.iter xO p k) with (shift_pos k p).
  rewrite shift_pos_correct, Z.pow_pos_fold. lia.
Qed.

Lemma binary_normalize_small (p : positive) :
  Z.log2 (Z.pos p) + 1 <= 53 ->
  exists m e,
    binary_normalize prec emax (Z.pos p) 0 false = S754_finite false m e
    /\ valid_binary (S754_finite false m e) = true
    /\ e <= 0 /\ Z.pos m = Z.pos p * 2 ^ (- e).
Proof.
  intros Hd. rewrite <- digits2_pos_log2 in Hd.
  unfold binary_normalize, binary_round.
  assert (Hfexp : fexp prec emax (Z.pos (digits2_pos p) + 0) = Z.pos (digits2_pos p) - 53).
  { unfold fexp, SpecFloat.emin, prec, emax. lia. }
  rewrite Hfexp. unfold shl_align.
  replace (Z.pos (digits2_pos p) - 53 - 0) with (Z.pos (digits2_pos p) - 53) by lia.
  destruct (Z.pos (digits2_pos p) - 53) as [|q|q] eqn:Eq; [| lia |].
  - (* already 53 digits *)
    exists p, 0. 
    unfold binary_round_aux, shr_fexp. 
    cbn [shr_record_of_loc Zdigits2 shr_m].
    assert (F : fexp prec emax (Z.pos (digits2_pos p) + 0) - 0 = 0) by (rewrite Hfexp; lia).
    rewrite F. cbn [shr loc_of_shr_record round_nearest_even shr_record_of_loc shr_m Zdigits2].
    rewrite F. cbn [shr shr_m].
    split; [reflexivity|]. split; [|split; [lia|simpl; lia]].
    unfold SpecFloat.valid_binary, bounded, canonical_mantissa.
    rewrite Hfexp. 
    apply andb_true_iff. split; [apply Z.eqb_eq; lia|reflexivity].
  - exists (Pos.iter xO p q), (Z.neg q).
    unfold binary_round_aux, shr_fexp.
    cbn [shr_record_of_loc Zdigits2 shr_m].
    assert (F : fexp prec emax (Z.pos (digits2_pos (Pos.iter xO p q)) + Z.neg q) - Z.neg q = 0).
    { rewrite iter_xO_digits. unfold fexp, SpecFloat.emin, prec, emax. lia. }
    rewrite F. cbn [shr loc_of_shr_record round_nearest_even shr_record_of_loc shr_m Zdigits2].
    rewrite F. cbn [shr shr_m].
    assert (E : (Z.neg q <=? emax - prec) = true) by (apply Z.leb_le; unfold emax, prec; lia).
    rewrite E.
    split; [reflexivity|]. split; [|split; [lia|]].
    + unfold SpecFloat.valid_binary, bounded, canonical_mantissa.
      rewrite E, andb_true_r. apply Z.eqb_eq. lia.
    + rewrite iter_xO_value. reflexivity.
Qed.

(** ** [bigIntLog2] *)

Lemma bigIntLog2_bitLen (math : MathLib) (n : Z) :
  0 < n -> log2_floor_ok math ->
  bigIntLog2 math n
  = if Z.log2 n + 1 <=? 53 then Ok (Math_log2 math (Number_of_Z n))
    else
      Ok (Math_log2 math (Number_of_Z (Z.shiftr n (Z.log2 n + 1 - 53)))
          + Number_of_Z (Z.log2 n + 1 - 53))%float.
Proof.
  intros Hn Hok. unfold bigIntLog2.
  assert (E : (n <=? 0) = false) by (apply Z.leb_gt; exact Hn).
  rewrite E.
  destruct (toString16_spec n Hn) as [rest [Hhex Hlen]].
  pose proof (leading_nibble n Hn) as Hd. cbv zeta in Hd.
  destruct Hd as [Hd Hlog].
  rewrite Hhex. cbn [take].
  rewrite parseInt_hexChar by lia.
  rewrite (Hok _ Hd).
  assert (Hbit : (Z.of_nat (length (hexChar (n / 16 ^ (Z.log2 n / 4)) :: rest)) - 1) * 4
                 + (Z.log2 (n / 16 ^ (Z.log2 n / 4)) + 1)
                 = Z.log2 n + 1).
  { cbn [length]. rewrite Nat2Z.inj_succ, Hlen, Hlog. lia. }
  rewrite Hbit. reflexivity.
Qed.

Lemma bigIntLog2_returns (math : MathLib) (n : Z) :
  log2_finite math -> exists x, bigIntLog2 math n = Ok x.
Proof.
  intros Hfin. unfold bigIntLog2.
  destruct (Z.leb_spec n 0) as [|Hn]; [eexists; reflexivity|].
  destruct (toString16_spec n Hn) as [rest [Hhex Hlen]].
  pose proof (leading_nibble n Hn) as Hd. cbv zeta in Hd.
  destruct Hd as [Hd Hlog].
  rewrite Hhex. cbn [take].
  rewrite parseInt_hexChar by lia.
  destruct (Hfin _ Hd) as [fl Hfl]. rewrite Hfl.
  match goal with |- context [if ?c then _ else _] => destruct c end;
    eexists; reflexivity.
Qed.

Lemma Number_of_Z_small (n : Z) :
  0 < n -> bitLength n <= 53 ->
  exists m e,
    Prim2SF (Number_of_Z n) = S754_finite false m e
    /\ -1074 <= e <= 0 /\ Z.pos m = n * 2 ^ (- e).
Proof.
  intros Hn Hb. unfold bitLength in Hb. destruct n as [|p|p]; try lia.
  destruct (binary_normalize_small p Hb) as [m [e [H1 [H2 [H3 H4]]]]].
  exists m, e. unfold Number_of_Z. rewrite H1.
  rewrite Prim2SF_SF2Prim by exact H2.
  split; [reflexivity|]. split; [|exact H4].
  split; [|exact H3].
  (* the exponent is [digits - 53] *)
  unfold SpecFloat.valid_binary, bounded, canonical_mantissa in H2.
  apply andb_true_iff in H2 as [H2 _]. apply Z.eqb_eq in H2.
  unfold fexp, SpecFloat.emin, prec, emax in H2. lia.
Qed.

Lemma Number_of_Z_exactly (n : Z) :
  0 < n -> bitLength n <= 53 -> exactly (Number_of_Z n) n.
Proof.
  intros Hn Hb.
  destruct (Number_of_Z_small n Hn Hb) as [m [e [H1 [H2 H3]]]].
  unfold exactly. rewrite H1. split; [lia|].
  rewrite H3, <- Z.mul_assoc, <- Z.pow_add_r by lia.
  f_equal. f_equal. lia.
Qed.

Lemma floorZ_Number_of_Z (n : Z) :
  0 < n -> bitLength n <= 53 -> floorZ (Number_of_Z n) = Some n.
Proof.
  intros Hn Hb.
  destruct (Number_of_Z_small n Hn Hb) as [m [e [H1 [H2 H3]]]].
  unfold floorZ. rewrite H1. f_equal.
  destruct (Z.leb_spec 0 e) as [H0|H0].
  - assert (e = 0) by lia. subst e. simpl in H3. lia.
  - rewrite H3. apply Z.div_mul.
    apply Z.pow_nonzero; lia.
Qed.

Lemma integerValue_Number_of_Z (n : Z) :
  0 <= n -> bitLength n <= 53 -> integerValue (Number_of_Z n) = Some n.
Proof.
  intros Hn Hb. destruct (Z.eq_dec n 0) as [->|Hne]; [reflexivity|].
  destruct (Number_of_Z_small n ltac:(lia) Hb) as [m [e [H1 [H2 H3]]]].
  unfold integerValue. rewrite H1.
  destruct (Z.leb_spec 0 e) as [H0|H0].
  - assert (e = 0) by lia. subst e. simpl in *. f_equal. lia.
  - assert (Hp : 0 < 2 ^ (- e)) by (apply Z.pow_pos_nonneg; lia).
    rewrite H3, Z.mod_mul by lia. simpl. f_equal.
    apply Z.div_mul. lia.
Qed.

(** On the numbers of two integers below [2^53], as [generatePassword]
    passes them, the analyser is the function on integers. *)
Lemma calculateEntropy_num_of_Z (math : MathLib) (L P : Z)
    (sizes : list Z) (forceEach : bool) (method : string) :
  0 <= L -> bitLength L <= 53 -> 0 <= P -> bitLength P <= 53 ->
  calculateEntropy_num math (Number_of_Z L) (Number_of_Z P) sizes forceEach
    method
  = calculateEntropy math L P sizes forceEach method.
Proof.
  intros HL HbL HP HbP.
  apply calculateEntropy_num_integers; apply integerValue_Number_of_Z;
    assumption.
Qed.

Lemma top_bits (n : Z) :
  0 < n -> 53 < bitLength n ->
  2 ^ 52 <= Z.shiftr n (bitLength n - 53) < 2 ^ 53
  /\ bitLength (Z.shiftr n (bitLength n - 53)) = 53.
Proof.
  intros Hn Hb. unfold bitLength in *.
  assert (Hlog : Z.log2 (Z.shiftr n (Z.log2 n + 1 - 53)) = 52).
  { rewrite Z.log2_shiftr by lia. lia. }
  assert (Hpos : 0 < Z.shiftr n (Z.log2 n + 1 - 53)).
  { rewrite Z.shiftr_div_pow2 by lia. apply Z.div_str_pos.
    split; [apply Z.pow_pos_nonneg; lia|].
    etransitivity; [|apply (Z.log2_spec n Hn)].
    apply Z.pow_le_mono_r; lia. }
  pose proof (Z.log2_spec _ Hpos) as Hs. rewrite Hlog in Hs.
  split; [|lia]. change (Z.succ 52) with 53 in Hs. exact Hs.
Qed.

Lemma integerMath_log2 (n : Z) :
  0 < n -> bitLength n <= 53 ->
  Math_log2 integerMath (Number_of_Z n) = Number_of_Z (Z.log2 n).
Proof.
  intros Hn Hb. simpl. rewrite floorZ_Number_of_Z by assumption. reflexivity.
Qed.

Lemma integerMath_floor_ok : log2_floor_ok integerMath.
Proof.
  intros v Hv.
  apply (small_cases v
           (fun v => 1 <= v ->
                     floorZ (Math_log2 integerMath (Number_of_Z v))
                     = Some (Z.log2 v)));
    try lia; intros; vm_compute; reflexivity || lia.
Qed.

Lemma integerMath_exact_on_powers : log2_exact_on_powers integerMath.
Proof.
  intros e He.
  assert (Hpos : 0 < 2 ^ e) by (apply Z.pow_pos_nonneg; lia).
  rewrite integerMath_log2.
  - rewrite Z.log2_pow2 by lia. reflexivity.
  - exact Hpos.
  - unfold bitLength. rewrite Z.log2_pow2 by lia. lia.
Qed.

(** C9.  Provided [Math.log2] has the right integer part on the sixteen
    hexadecimal digits: for a bit length of at most [53], [bigIntLog2(n)] is
    the logarithm of [Number(n)], a conversion that loses nothing; beyond,
    it is the logarithm of the top [53] bits plus the shift
    [bitLength - 53]; and, [Math.log2] being exact on powers of two,
    [bigIntLog2(2^n)] is exactly [n] for [n] in [10, 53, 54, 500]. *)
Theorem bigIntLog2_strategy (math : MathLib) :
  log2_floor_ok math ->
  (forall n, 0 < n -> bitLength n <= 53 ->
     bigIntLog2 math n = Ok (Math_log2 math (Number_of_Z n))
     /\ exactly (Number_of_Z n) n)
  /\ (forall n, 0 < n -> 53 < bitLength n ->
        bigIntLog2 math n
        = Ok (Math_log2 math (Number_of_Z (Z.shiftr n (bitLength n - 53)))
              + Number_of_Z (bitLength n - 53))%float
        /\ 2 ^ 52 <= Z.shiftr n (bitLength n - 53) < 2 ^ 53
        /\ exactly (Number_of_Z (Z.shiftr n (bitLength n - 53)))
             (Z.shiftr n (bitLength n - 53)))
  /\ (log2_exact_on_powers math ->
      Forall (fun e => bigIntLog2 math (2 ^ e) = Ok (Number_of_Z e))
        [10; 53; 54; 500]).
Proof.
  intros Hok. split; [|split].
  - intros n Hn Hb. split; [|apply Number_of_Z_exactly; assumption].
    rewrite bigIntLog2_bitLen by assumption.
    assert (E : (Z.log2 n + 1 <=? 53) = true) by (apply Z.leb_le; exact Hb).
    rewrite E. reflexivity.
  - intros n Hn Hb.
    pose proof (top_bits n Hn Hb) as [Htop Hbits].
    split; [|split; [exact Htop|]].
    + rewrite bigIntLog2_bitLen by assumption.
      assert (E : (Z.log2 n + 1 <=? 53) = false) by (apply Z.leb_gt; exact Hb).
      rewrite E. reflexivity.
    + apply Number_of_Z_exactly; lia.
  - intros Hexact.
    assert (H10 : bigIntLog2 math (2 ^ 10) = Ok (Number_of_Z 10)).
    { rewrite bigIntLog2_bitLen by (assumption || lia).
      change (Z.log2 (2 ^ 10) + 1 <=? 53) with true. cbv iota.
      rewrite (Hexact 10) by lia. reflexivity. }
    assert (Hbig : forall e, 53 <= e -> 
               (Number_of_Z 52 + Number_of_Z (e - 52))%float = Number_of_Z e ->
               bigIntLog2 math (2 ^ e) = Ok (Number_of_Z e)).
    { intros e He Hsum.
      assert (Hpos : 0 < 2 ^ e) by (apply Z.pow_pos_nonneg; lia).
      rewrite bigIntLog2_bitLen by assumption.
      rewrite Z.log2_pow2 by lia.
      assert (E : (e + 1 <=? 53) = false) by (apply Z.leb_gt; lia).
      rewrite E.
      rewrite Z.shiftr_div_pow2 by lia.
      rewrite <- Z.pow_sub_r by lia.
      replace (e - (e + 1 - 53)) with 52 by lia.
      rewrite (Hexact 52) by lia.
      replace (e + 1 - 53) with (e - 52) by lia.
      rewrite Hsum. reflexivity. }
    repeat constructor.
    + exact H10.
    + apply Hbig; [lia|vm_compute; reflexivity].
    + apply Hbig; [lia|vm_compute; reflexivity].
    + apply Hbig; [lia|vm_compute; reflexivity].
Qed.

Lemma bigIntLog2_strategy_witness :
  log2_floor_ok integerMath
  /\ (forall n, 0 < n -> bitLength n <= 53 ->
        bigIntLog2 integerMath n = Ok (Math_log2 integerMath (Number_of_Z n))
        /\ exactly (Number_of_Z n) n)
  /\ (forall n, 0 < n -> 53 < bitLength n ->
        bigIntLog2 integerMath n
        = Ok (Math_log2 integerMath
                (Number_of_Z (Z.shiftr n (bitLength n - 53)))
              + Number_of_Z (bitLength n - 53))%float
        /\ 2 ^ 52 <= Z.shiftr n (bitLength n - 53) < 2 ^ 53
        /\ exactly (Number_of_Z (Z.shiftr n (bitLength n - 53)))
             (Z.shiftr n (bitLength n - 53)))
  /\ (log2_exact_on_powers integerMath ->
      Forall (fun e => bigIntLog2 integerMath (2 ^ e) = Ok (Number_of_Z e))
        [10; 53; 54; 500]).
Proof.
  split; [exact integerMath_floor_ok|].
  exact (bigIntLog2_strategy integerMath integerMath_floor_ok).
Defined.

(** ** Termination with a fair source *)

Lemma halts_bind_post {A B : Type} (m : M A) (f : A -> M B) (P : A -> Prop) :
  post (fun _ => True) m P -> halts m -> (forall a, P a -> halts (f a)) ->
  halts (bindM m f).
Proof.
  intros Hp Hm Hf s. unfold bindM.
  specialize (Hp s Logic.I). specialize (Hm s).
  destruct (m s) as [a s'|e s'|s']; [|exact Logic.I|exact Hm].
  apply Hf. apply Hp.
Qed.

Lemma noraise_lift {A : Type} (r : result A) :
  (exists a, r = Ok a) -> noraise (lift r).
Proof. intros [a ->] s. exact Logic.I. Qed.

Lemma halts_drawBelow (crypto : RandomSource) (W fuel : nat) (limit max : Z) :
  fair crypto W -> (W <= fuel)%nat -> 2 ^ 31 <= limit ->
  halts (drawBelow crypto fuel limit max).
Proof.
  intros Hfair Hfuel Hlim s.
  destruct (Hfair (calls s)) as [j [f [Hj [Hf [H32 _]]]]].
  apply (drawBelow_halts crypto limit max j fuel s f); [lia|exact Hf|lia].
Qed.

Lemma halts_getSecureRandomInt (crypto : RandomSource) (W fuel : nat) (max : Z) :
  fair crypto W -> (W <= fuel)%nat -> max <= 2 ^ 31 ->
  halts (getSecureRandomInt crypto fuel max).
Proof.
  intros Hfair Hfuel Hmax s. unfold getSecureRandomInt.
  destruct (Z.leb_spec max 0); [exact Logic.I|].
  destruct (Z.eqb_spec max 1); [exact Logic.I|].
  apply (halts_drawBelow crypto W); try assumption.
  pose proof (limit_positive max ltac:(lia)). lia.
Qed.

Lemma halts_drawChars (crypto : RandomSource) (W fuel : nat) (pool : jsstring) :
  fair crypto W -> (W <= fuel)%nat -> Z.of_nat (length pool) <= 2 ^ 31 ->
  forall n temp, halts (drawChars crypto fuel n pool temp).
Proof.
  intros Hfair Hfuel Hpool. induction n as [|n IH]; intros temp; simpl.
  - apply halts_ret.
  - apply halts_bind; [apply (halts_getSecureRandomInt crypto W); assumption|].
    intros i. apply IH.
Qed.

Lemma halts_attemptLoop (crypto : RandomSource) (W fuel : nat) (len : Z)
    (pool : jsstring) (activeSets : list jsstring) (forceEach : bool) :
  fair crypto W -> (W <= fuel)%nat -> Z.of_nat (length pool) <= 2 ^ 31 ->
  forall attempts,
    halts (attemptLoop crypto fuel attempts len pool activeSets forceEach).
Proof.
  intros Hfair Hfuel Hpool. induction attempts as [|attempts IH]; simpl.
  - apply halts_ret.
  - apply halts_bind; [apply (halts_drawChars crypto W); assumption|].
    intros temp. destruct (forceEach && isMissing activeSets temp).
    + apply IH.
    + apply halts_ret.
Qed.

Lemma halts_pickEach (crypto : RandomSource) (W fuel : nat) :
  fair crypto W -> (W <= fuel)%nat ->
  forall sets arr,
    Forall (fun set : jsstring => Z.of_nat (length set) <= 2 ^ 31) sets ->
    halts (pickEach crypto fuel sets arr).
Proof.
  intros Hfair Hfuel. induction sets as [|set sets IH]; intros arr Hsets; simpl.
  - apply halts_ret.
  - inversion Hsets; subst.
    apply halts_bind; [apply (halts_getSecureRandomInt crypto W); assumption|].
    intros i. apply IH. assumption.
Qed.

Lemma halts_generateGuaranteed (crypto : RandomSource) (W fuel : nat)
    (len : Z) (pool : jsstring) (activeSets : list jsstring) :
  fair crypto W -> (W <= fuel)%nat -> Z.of_nat (length pool) <= 2 ^ 31 ->
  Forall (fun set : jsstring => Z.of_nat (length set) <= 2 ^ 31) activeSets ->
  halts (generateGuaranteed crypto fuel len pool activeSets).
Proof.
  intros Hfair Hfuel Hpool Hsets. unfold generateGuaranteed.
  apply halts_bind; [apply (halts_pickEach crypto W); assumption|].
  intros a. apply (halts_drawChars crypto W); assumption.
Qed.

Lemma halts_shuffleLoop (crypto : RandomSource) (W fuel : nat) :
  fair crypto W -> (W <= fuel)%nat ->
  forall i array,
    Z.of_nat i + 1 <= 2 ^ 31 -> halts (shuffleLoop crypto fuel i array).
Proof.
  intros Hfair Hfuel. induction i as [|i IH]; intros array Hi.
  - apply halts_ret.
  - cbn [shuffleLoop].
    apply halts_bind; [apply (halts_getSecureRandomInt crypto W); assumption|].
    intros j. apply IH. lia.
Qed.

Lemma halts_fisherYatesShuffle (crypto : RandomSource) (W fuel : nat)
    (array : list elem) :
  fair crypto W -> (W <= fuel)%nat -> Z.of_nat (length array) <= 2 ^ 31 ->
  halts (fisherYatesShuffle crypto fuel array).
Proof.
  intros Hfair Hfuel Hlen. unfold fisherYatesShuffle.
  apply (halts_shuffleLoop crypto W); try assumption. lia.
Qed.

(** *** The BigInt sampler *)

Lemma bytes_fold_bound (f : nat -> Z) :
  forall (n a : nat) (x : Z), 0 <= x ->
    0 <= fold_left (fun x j => Z.shiftl x 8 + f j mod 256) (seq a n) x
    < (x + 1) * 256 ^ Z.of_nat n.
Proof.
  induction n as [|n IH]; intros a x Hx.
  - simpl. lia.
  - cbn [seq fold_left].
    pose proof (Z.mod_pos_bound (f a) 256 ltac:(lia)) as Hb.
    rewrite Z.shiftl_mul_pow2 by lia. change (2 ^ 8) with 256.
    specialize (IH (S a) (x * 256 + f a mod 256) ltac:(lia)).
    assert (HP : 0 < 256 ^ Z.of_nat n) by (apply Z.pow_pos_nonneg; lia).
    rewrite Nat2Z.inj_succ, Z.pow_succ_r by lia.
    nia.
Qed.

Lemma bytesToBigInt_first (f : nat -> Z) (n : nat) :
  0 <= bytesToBigInt f (S n) < (f 0%nat mod 256 + 1) * 256 ^ Z.of_nat n.
Proof.
  unfold bytesToBigInt. cbn [seq fold_left]. rewrite Z.shiftl_0_l.
  apply bytes_fold_bound.
  pose proof (Z.mod_pos_bound (f 0%nat) 256 ltac:(lia)). lia.
Qed.

Lemma drawBigBelow_halts (crypto : RandomSource) (nBytes : nat)
    (limit maxExclusive : Z) :
  forall (j fuel : nat) (s : rstate) (f : nat -> Z),
    (j < fuel)%nat ->
    getRandomValues crypto (calls s + j) = Some f ->
    bytesToBigInt f nBytes < limit ->
    match drawBigBelow crypto fuel nBytes limit maxExclusive s with
    | Hang _ => False
    | _ => True
    end.
Proof.
  induction j as [|j IH]; intros fuel s f Hfuel Hj Hacc;
    (destruct fuel as [|fuel]; [lia|]); simpl.
  - rewrite Nat.add_0_r in Hj. rewrite Hj.
    assert (E : (bytesToBigInt f nBytes <? limit) = true)
      by (apply Z.ltb_lt; exact Hacc).
    rewrite E. exact Logic.I.
  - destruct (getRandomValues crypto (calls s)) as [g|]; [|exact Logic.I].
    destruct (bytesToBigInt g nBytes <? limit); [exact Logic.I|].
    apply (IH fuel _ f); [lia|simpl|exact Hacc].
    rewrite Nat.add_succ_r in Hj. exact Hj.
Qed.

(** The byte count chosen by [getSecureRandomBigInt] spans its argument. *)
Lemma byte_count_spans (n : Z) :
  0 < n ->
  let hex := toString16 n in
  let hexLength :=
    if Nat.even (length hex) then length hex else S (length hex) in
  exists b : nat, (hexLength / 2)%nat = S b /\ n < 256 ^ Z.of_nat (S b).
Proof.
  intros Hn hex hexLength.
  destruct (toString16_spec n Hn) as [rest [Hhex Hlen]].
  assert (Hl : length hex = S (length rest)) by (subst hex; rewrite Hhex; reflexivity).
  assert (Hh : exists k : nat, hexLength = (2 * k)%nat
                               /\ (length hex <= hexLength)%nat).
  { subst hexLength. destruct (Nat.even (length hex)) eqn:E.
    - apply Nat.even_spec in E as [k Hk]. exists k. lia.
    - assert (E' : Nat.even (S (length hex)) = true).
      { rewrite Nat.even_succ, <- Nat.negb_even, E. reflexivity. }
      apply Nat.even_spec in E' as [k Hk]. exists k. lia. }
  destruct Hh as [k [Hk Hle]].
  assert (Hdiv : (hexLength / 2)%nat = k).
  { rewrite Hk, Nat.mul_comm. apply Nat.div_mul. lia. }
  destruct k as [|b]; [lia|].
  exists b. split; [exact Hdiv|].
  pose proof (Z.log2_spec n Hn) as [_ Hup].
  pose proof (Z.log2_nonneg n) as Hnn.
  eapply Z.lt_le_trans; [exact Hup|].
  change 256 with (2 ^ 8). rewrite <- Z.pow_mul_r by lia.
  apply Z.pow_le_mono_r; [lia|].
  pose proof (Z.mul_div_le (Z.log2 n) 4 ltac:(lia)).
  pose proof (Z.mod_pos_bound (Z.log2 n) 4 ltac:(lia)).
  pose proof (Z.div_mod (Z.log2 n) 4 ltac:(lia)).
  lia.
Qed.

Lemma halts_getSecureRandomBigInt (crypto : RandomSource) (W fuel : nat)
    (maxExclusive : Z) :
  fair crypto W -> (W <= fuel)%nat ->
  halts (getSecureRandomBigInt crypto fuel maxExclusive).
Proof.
  intros Hfair Hfuel. unfold getSecureRandomBigInt.
  destruct (Z.leb_spec maxExclusive 1) as [|Hmax]; [apply halts_ret|].
  destruct (byte_count_spans (maxExclusive - 1) ltac:(lia)) as [b [Hb Hspan]].
  cbv zeta in Hb. rewrite Hb.
  intros s.
  destruct (Hfair (calls s)) as [j [f [Hj [Hf [_ H8]]]]].
  apply (drawBigBelow_halts crypto _ _ _ j fuel s f); [lia|exact Hf|].
  pose proof (bytesToBigInt_first f b) as Hx.
  rewrite Z.shiftl_1_l.
  replace (8 * Z.of_nat (S b)) with (8 * Z.of_nat b + 8) by lia.
  rewrite Z.pow_add_r by lia.
  replace (2 ^ (8 * Z.of_nat b)) with (256 ^ Z.of_nat b)
    by (change 256 with (2 ^ 8); rewrite <- Z.pow_mul_r by lia; reflexivity).
  change (2 ^ 8) with 256.
  rewrite Nat2Z.inj_succ, Z.pow_succ_r in Hspan by lia.
  set (P := 256 ^ Z.of_nat b) in *.
  assert (HP : 0 < P) by (apply Z.pow_pos_nonneg; lia).
  rewrite Z.quot_div_nonneg by lia.
  pose proof (Z.div_mod (P * 256) maxExclusive ltac:(lia)) as Hdm.
  pose proof (Z.mod_pos_bound (P * 256) maxExclusive ltac:(lia)) as Hmod.
  assert (Hq : 1 <= P * 256 / maxExclusive).
  { apply Z.div_le_lower_bound; lia. }
  nia.
Qed.

Lemma halts_generateCombinatorial (crypto : RandomSource) (W fuel : nat)
    (len : Z) (activeSets : list jsstring) :
  fair crypto W -> (W <= fuel)%nat -> 0 < len -> activeSets <> [] ->
  halts (generateCombinatorial crypto fuel len activeSets).
Proof.
  intros Hfair Hfuel Hlen Hne. unfold generateCombinatorial.
  apply halts_bind.
  - apply halts_lift. rewrite countValidSequences_pie; [discriminate|lia|].
    apply (class_sizes_nonneg activeSets).
  - intros totalValid. apply halts_bind.
    + apply (halts_getSecureRandomBigInt crypto W); assumption.
    + intros rank. apply halts_bind; [|intros; apply halts_ret].
      apply halts_lift. rewrite unrank_raises by assumption. discriminate.
Qed.

(** *** The whole generation *)

Lemma calculateEntropy_returns (math : MathLib) (len poolSize : Z)
    (sizes : list Z) (forceEach : bool) (method : string) :
  log2_finite math -> Forall (fun x => 0 <= x) sizes ->
  exists H, calculateEntropy math len poolSize sizes forceEach method = Ok H.
Proof.
  intros Hfin Hnn. unfold calculateEntropy.
  destruct (Z.leb_spec len 0); cbn [orb]; [eexists; reflexivity|].
  destruct (poolSize <=? 0); [eexists; reflexivity|].
  destruct (String.eqb method guaranteed_inclusion && forceEach);
    [eexists; reflexivity|].
  destruct (negb forceEach).
  - apply bigIntLog2_returns; assumption.
  - rewrite countValidSequences_pie by (lia || assumption). cbn [rbind].
    match goal with |- context [if ?c then _ else _] => destruct c end;
      [eexists; reflexivity|apply bigIntLog2_returns; assumption].
Qed.

Lemma halts_generatePassword (math : MathLib) (crypto : RandomSource)
    (W fuel : nat) (options : Options) :
  fair crypto W -> (W <= fuel)%nat -> log2_finite math ->
  halts (generatePassword math crypto fuel options).
Proof.
  intros Hfair Hfuel Hfin. unfold generatePassword.
  apply halts_bind.
  { unfold ensureCrypto. destruct (crypto_available crypto);
      [apply halts_ret|apply halts_lift; discriminate]. }
  intros _. cbv zeta.
  set (cfg := prepareActiveSets options).
  destruct (length (cfg_activeSets cfg) =? 0)%nat eqn:Ek; [apply halts_ret|].
  assert (Hne : cfg_activeSets cfg <> []).
  { intros H0. rewrite H0 in Ek. discriminate. }
  destruct (cfg_forceEach cfg
            && (cfg_length cfg <? Z.of_nat (length (cfg_activeSets cfg))));
    [apply halts_ret|].
  pose proof (prepareActiveSets_usable options Hne) as Hu. fold cfg in Hu.
  pose proof Hu as [Hlen [Hk [_ [Hsets HpB]]]].
  assert (Hsets' : Forall (fun set : jsstring => Z.of_nat (length set) <= 2 ^ 31)
                     (cfg_activeSets cfg)).
  { eapply Forall_impl; [exact Hsets|]. intros set [_ H]. simpl in H. lia. }
  (* tier 1 *)
  eapply halts_bind_post;
    [apply (post_firstTier _ crypto fuel cfg (invariant_True 128) Hu)| |].
  { apply halts_try; [|intros; apply halts_ret].
    apply (halts_attemptLoop crypto W); try assumption. lia. }
  intros r1 H1.
  (* tier 2 *)
  eapply halts_bind_post;
    [apply (post_secondTier _ crypto fuel cfg r1 (invariant_True 128) Hu H1)| |].
  { destruct (negb (noPassword r1)); [apply halts_ret|].
    destruct (cfg_forceEach cfg); [|apply halts_ret].
    apply halts_try; [|intros; apply halts_ret].
    apply halts_bind; [|intros; apply halts_ret].
    apply (halts_generateCombinatorial crypto W); try assumption. lia. }
  intros t2 H2.
  (* tier 3 *)
  eapply halts_bind_post;
    [apply (post_lastTier _ crypto fuel cfg t2 (invariant_True 128) Hu H2)| |].
  { destruct (noPassword (fst t2)); [|apply halts_ret].
    apply halts_bind; [|intros; apply halts_ret].
    apply halts_try; [|intros; apply halts_ret].
    apply (halts_generateGuaranteed crypto W); try assumption. lia. }
  intros t3 H3.
  pose proof (delivered_length crypto cfg _ Hu H3) as Hl3.
  apply halts_bind.
  { apply (halts_fisherYatesShuffle crypto W); try assumption. lia. }
  intros shuffled. apply halts_bind; [|intros; apply halts_ret].
  apply halts_lift.
  destruct (calculateEntropy_returns math (cfg_length cfg)
              (Z.of_nat (length (concat (cfg_activeSets cfg))))
              (map (fun s => Z.of_nat (length s)) (cfg_activeSets cfg))
              (cfg_forceEach cfg) (snd t3) Hfin
              (class_sizes_nonneg (cfg_activeSets cfg))) as [H ->].
  discriminate.
Qed.

Lemma noraise_generatePassword (math : MathLib) (crypto : RandomSource)
    (fuel : nat) (options : Options) :
  crypto_available crypto = true -> reliable crypto -> log2_finite math ->
  noraise (generatePassword math crypto fuel options).
Proof.
  intros Hav Hrel Hfin. unfold generatePassword.
  apply noraise_bind.
  { unfold ensureCrypto. rewrite Hav. apply noraise_ret. }
  intros _. cbv zeta.
  set (cfg := prepareActiveSets options).
  destruct (length (cfg_activeSets cfg) =? 0)%nat; [apply noraise_ret|].
  destruct (cfg_forceEach cfg
            && (cfg_length cfg <? Z.of_nat (length (cfg_activeSets cfg))));
    [apply noraise_ret|].
  apply noraise_bind; [apply noraise_try; intros; apply noraise_ret|].
  intros r1. apply noraise_bind.
  { destruct (negb (noPassword r1)); [apply noraise_ret|].
    destruct (cfg_forceEach cfg); [|apply noraise_ret].
    apply noraise_try. intros. apply noraise_ret. }
  intros t2. apply noraise_bind.
  { destruct (noPassword (fst t2)); [|apply noraise_ret].
    apply noraise_bind; [|intros; apply noraise_ret].
    apply noraise_try. intros. apply noraise_ret. }
  intros t3. apply noraise_bind.
  { apply noraise_shuffleLoop. exact Hrel. }
  intros shuffled. apply noraise_bind; [|intros; apply noraise_ret].
  apply noraise_lift. apply calculateEntropy_returns; [exact Hfin|].
  apply (class_sizes_nonneg (cfg_activeSets cfg)).
Qed.

Lemma generatePassword_returns (math : MathLib) (crypto : RandomSource)
    (W fuel : nat) (options : Options) (s : rstate) :
  crypto_available crypto = true -> reliable crypto -> log2_finite math ->
  fair crypto W -> (W <= fuel)%nat ->
  exists r s', generatePassword math crypto fuel options s = Ret r s'.
Proof.
  intros Hav Hrel Hfin Hfair Hfuel.
  pose proof (halts_generatePassword math crypto W fuel options
                Hfair Hfuel Hfin s) as Hh.
  pose proof (noraise_generatePassword math crypto fuel options
                Hav Hrel Hfin s) as Hn.
  destruct (generatePassword math crypto fuel options s) as [r s'|e s'|s'].
  - exists r, s'. reflexivity.
  - destruct Hn.
  - destruct Hh.
Qed.

Lemma zeroSource_reliable : reliable zeroSource.
Proof. intros n. simpl. eexists. reflexivity. Qed.

Lemma zeroSource_fair : fair zeroSource 1.
Proof.
  intros n. exists 0%nat, (fun _ => 0). simpl.
  repeat split; try reflexivity; lia.
Qed.

Lemma log2_floor_ok_finite (math : MathLib) :
  log2_floor_ok math -> log2_finite math.
Proof. intros H v Hv. rewrite (H v Hv). eexists. reflexivity. Qed.

(** ** Claims on the length of the password *)

(** C2, as amended.  For a configuration accepted without a configuration
    error, every record returned has no error field and its password has
    exactly [clamp(n, 5, 128)] characters, where [n] is [parseInt(length)]
    replaced by [16] when it is [NaN] or [0]; the one exception is the empty
    password, which takes a random source that throws.  And a record is
    returned as soon as the source is present, does not throw and is fair,
    [Math.log2] being finite on the hexadecimal digits. *)
Theorem generatePassword_length (math : MathLib) (crypto : RandomSource)
    (options : Options) :
  cfg_activeSets (prepareActiveSets options) <> [] ->
  (cfg_forceEach (prepareActiveSets options) = true ->
   Z.of_nat (length (cfg_activeSets (prepareActiveSets options)))
   <= cfg_length (prepareActiveSets options)) ->
  (forall fuel s r s',
      generatePassword math crypto fuel options s = Ret r s' ->
      error r = None
      /\ (Z.of_nat (length (password r))
          = Z.max 5 (Z.min 128 (requestedLength options))
          \/ (password r = [] /\ ~ reliable crypto)))
  /\ (crypto_available crypto = true -> reliable crypto ->
      log2_finite math ->
      forall W fuel s, fair crypto W -> (W <= fuel)%nat ->
        exists r s', generatePassword math crypto fuel options s = Ret r s').
Proof.
  intros Hne Hk. split.
  - intros fuel s r s' Hrun.
    apply generatePassword_generated in Hrun. unfold generated in Hrun.
    destruct (error r) as [[|required]|].
    + contradiction.
    + destruct Hrun as [Hf Hlt]. specialize (Hk Hf). lia.
    + split; [reflexivity|].
      destruct Hrun as [_ [a [Ha Hd]]].
      apply delivered_password in Hd. rewrite Ha.
      destruct Hd as [Hd|[Hl _]]; [right; exact Hd|left].
      rewrite Hl.
      change (cfg_length (prepareActiveSets options))
        with (Z.max 5 (Z.min 128 (requestedLength options))).
      lia.
  - intros Hav Hrel Hfin W fuel s Hfair Hfuel.
    apply (generatePassword_returns math crypto W); assumption.
Qed.

Lemma generatePassword_length_witness :
  cfg_activeSets (prepareActiveSets noOptions) <> []
  /\ (cfg_forceEach (prepareActiveSets noOptions) = true ->
      Z.of_nat (length (cfg_activeSets (prepareActiveSets noOptions)))
      <= cfg_length (prepareActiveSets noOptions))
  /\ (forall fuel s r s',
         generatePassword integerMath zeroSource fuel noOptions s = Ret r s' ->
         Z.of_nat (length (password r)) = 18)
  /\ (forall fuel s,
         (1 <= fuel)%nat ->
         exists r s',
           generatePassword integerMath zeroSource fuel noOptions s
           = Ret r s').
Proof.
  assert (Hne : cfg_activeSets (prepareActiveSets noOptions) <> [])
    by (vm_compute; discriminate).
  assert (Hk : cfg_forceEach (prepareActiveSets noOptions) = true ->
               Z.of_nat (length (cfg_activeSets (prepareActiveSets noOptions)))
               <= cfg_length (prepareActiveSets noOptions))
    by (intros _; vm_compute; discriminate).
  destruct (generatePassword_length integerMath zeroSource noOptions Hne Hk)
    as [Hlen Hret].
  split; [exact Hne|]. split; [exact Hk|]. split.
  - intros fuel s r s' Hrun.
    destruct (Hlen fuel s r s' Hrun) as [_ [Hl|[_ Hnr]]].
    + exact Hl.
    + destruct (Hnr zeroSource_reliable).
  - intros fuel s Hfuel.
    apply (Hret eq_refl zeroSource_reliable
             (log2_floor_ok_finite _ integerMath_floor_ok) 1%nat fuel s
             zeroSource_fair Hfuel).
Defined.

(** C2 as stated fails: the number [0] is a numeric length, and
    [clamp(0, 5, 128)] is [5]; the password returned has [16] characters. *)
Lemma generatePassword_length_zero :
  match
    generatePassword integerMath lcgSource 10 (lengthOnly (LNum 0))
      initial_state
  with
  | Ret r _ =>
    error r = None /\ length (password r) = 16%nat
    /\ Z.max 5 (Z.min 128 0) = 5
  | _ => False
  end.
Proof. vm_compute. repeat split. Qed.

(** C4, as amended.  With [{length:3, upper:true, lower:true, nums:true,
    symbols:true, forceEach:true}] the length is first clamped to [5], which
    is not below the [4] active classes: no record returned carries a
    configuration error, and the password has [5] characters (or none, with
    a random source that throws); a record is returned under the conditions
    of C2. *)
Theorem generatePassword_short_length (math : MathLib)
    (crypto : RandomSource) :
  cfg_length (prepareActiveSets shortOptions) = 5
  /\ length (cfg_activeSets (prepareActiveSets shortOptions)) = 4%nat
  /\ (forall fuel s r s',
         generatePassword math crypto fuel shortOptions s = Ret r s' ->
         error r = None
         /\ (length (password r) = 5%nat
             \/ (password r = [] /\ ~ reliable crypto)))
  /\ (crypto_available crypto = true -> reliable crypto ->
      log2_finite math ->
      forall W fuel s, fair crypto W -> (W <= fuel)%nat ->
        exists r s',
          generatePassword math crypto fuel shortOptions s = Ret r s').
Proof.
  split; [reflexivity|]. split; [reflexivity|]. split.
  - intros fuel s r s' Hrun.
    apply generatePassword_generated in Hrun. unfold generated in Hrun.
    destruct (error r) as [[|required]|].
    + vm_compute in Hrun. discriminate.
    + destruct Hrun as [_ Hlt]. vm_compute in Hlt. discriminate.
    + split; [reflexivity|].
      destruct Hrun as [_ [a [Ha Hd]]].
      apply delivered_password in Hd. rewrite Ha.
      destruct Hd as [Hd|[Hl _]]; [right; exact Hd|left].
      rewrite Hl. reflexivity.
  - intros Hav Hrel Hfin W fuel s Hfair Hfuel.
    apply (generatePassword_returns math crypto W); assumption.
Qed.

Lemma generatePassword_short_length_witness :
  match
    generatePassword integerMath lcgSource 10 shortOptions initial_state
  with
  | Ret r _ => error r = None /\ length (password r) = 5%nat
  | _ => False
  end.
Proof.
  destruct (generatePassword_short_length integerMath lcgSource)
    as [_ [_ [Hlen _]]].
  destruct (generatePassword integerMath lcgSource 10 shortOptions
              initial_state) as [r s'|e s'|s'] eqn:Hrun;
    [|vm_compute in Hrun; discriminate|vm_compute in Hrun; discriminate].
  destruct (Hlen _ _ _ _ Hrun) as [He [Hl|[_ Hnr]]].
  - split; assumption.
  - destruct (Hnr lcgSource_reliable).
Defined.

(** C4 as stated fails: the call returns a password of [5] characters with
    the method tag of the first tier, and no configuration error. *)
Lemma generatePassword_short_length_no_error :
  match
    generatePassword integerMath lcgSource 10 shortOptions initial_state
  with
  | Ret r _ =>
    error r = None /\ length (password r) = 5%nat
    /\ method r = Some rejection_sampling
  | _ => False
  end.
Proof. vm_compute. repeat split. Qed.

(** ** Counting residues *)





Lemma count_if_bounds {A : Type} (P : A -> bool) (l : list A) :
  0 <= count_if P l <= Z.of_nat (length l).
Proof.
  unfold count_if. pose proof (List.filter_length_le P l). lia.
Qed.





(** ** [getSecureRandomInt] has no modulo bias *)




(** ** [getSecureRandomBigInt] *)

Lemma byteCount_minimal (n : Z) :
  0 < n ->
  exists b : nat,
    byteCount (n + 1) = S b /\ 256 ^ Z.of_nat b <= n < 256 ^ Z.of_nat (S b).
Proof.
  intros Hn. unfold byteCount. replace (n + 1 - 1) with n by lia.
  destruct (byte_count_spans n Hn) as [b [Hb Hup]]. cbv zeta in Hb.
  exists b. split; [exact Hb|]. split; [|exact Hup].
  destruct (toString16_spec n Hn) as [rest [Hhex Hlen]].
  rewrite Hhex in Hb. cbn [length] in Hb.
  assert (Hb2 : (2 * b <= length rest)%nat).
  { destruct (Nat.even (S (length rest))) eqn:E.
    - apply Nat.even_spec in E as [k Hk]. rewrite Hk in Hb.
      rewrite Nat.mul_comm, Nat.div_mul in Hb by lia. lia.
    - assert (E' : Nat.even (S (S (length rest))) = true).
      { rewrite Nat.even_succ, <- Nat.negb_even, E. reflexivity. }
      apply Nat.even_spec in E' as [k Hk]. rewrite Hk in Hb.
      rewrite Nat.mul_comm, Nat.div_mul in Hb by lia. lia. }
  pose proof (Z.log2_spec n Hn) as [Hlow _].
  pose proof (Z.log2_nonneg n) as Hnn.
  etransitivity; [|exact Hlow].
  change 256 with (2 ^ 8). rewrite <- Z.pow_mul_r by lia.
  apply Z.pow_le_mono_r; [lia|].
  pose proof (Z.mul_div_le (Z.log2 n) 4 ltac:(lia)). lia.
Qed.

Lemma bytesToBigInt_nonneg (f : nat -> Z) (n : nat) : 0 <= bytesToBigInt f n.
Proof. unfold bytesToBigInt. apply (bytes_fold_bound f n 0%nat 0). lia. Qed.

Lemma drawBigBelow_range (crypto : RandomSource) (nBytes : nat)
    (limit maxExclusive : Z) :
  0 < maxExclusive ->
  forall fuel s v s',
    drawBigBelow crypto fuel nBytes limit maxExclusive s = Ret v s' ->
    0 <= v < maxExclusive.
Proof.
  intros Hmax. induction fuel as [|fuel IH]; intros s v s'; simpl;
    [discriminate|].
  destruct (getRandomValues crypto (calls s)) as [f|]; [|discriminate].
  destruct (bytesToBigInt f nBytes <? limit).
  - intros H. inversion H; subst.
    apply Z.rem_bound_pos; [apply bytesToBigInt_nonneg|exact Hmax].
  - apply IH.
Qed.

(** [getSecureRandomBigInt(maxExclusive)] returns [0] without drawing when
    [maxExclusive <= 1].  Otherwise it draws the least number of bytes that
    can hold [maxExclusive - 1]; its threshold is a multiple of
    [maxExclusive] above half of the range of those bytes; a value it
    returns lies in [[0, maxExclusive)]; and it ends with every fair
    source. *)
Theorem getSecureRandomBigInt_bounded :
  (forall crypto fuel maxExclusive s,
      maxExclusive <= 1 ->
      getSecureRandomBigInt crypto fuel maxExclusive s = Ret 0 s)
  /\ (forall maxExclusive,
         2 <= maxExclusive ->
         (forall crypto fuel,
             getSecureRandomBigInt crypto fuel maxExclusive
             = drawBigBelow crypto fuel (byteCount maxExclusive)
                 (bigLimit maxExclusive) maxExclusive)
         /\ (1 <= byteCount maxExclusive)%nat
         /\ 256 ^ (Z.of_nat (byteCount maxExclusive) - 1) <= maxExclusive - 1
            < 256 ^ Z.of_nat (byteCount maxExclusive)
         /\ bigLimit maxExclusive mod maxExclusive = 0
         /\ 256 ^ Z.of_nat (byteCount maxExclusive)
            < 2 * bigLimit maxExclusive
            <= 2 * 256 ^ Z.of_nat (byteCount maxExclusive))
  /\ (forall crypto fuel maxExclusive s v s',
         2 <= maxExclusive ->
         getSecureRandomBigInt crypto fuel maxExclusive s = Ret v s' ->
         0 <= v < maxExclusive)
  /\ (forall crypto W fuel maxExclusive,
         fair crypto W -> (W <= fuel)%nat ->
         halts (getSecureRandomBigInt crypto fuel maxExclusive)).
Proof.
  split; [|split; [|split]].
  - intros crypto fuel maxE s Hmax. unfold getSecureRandomBigInt.
    assert (E : (maxE <=? 1) = true) by (apply Z.leb_le; exact Hmax).
    rewrite E. reflexivity.
  - intros maxE Hmax.
    assert (E : (maxE <=? 1) = false) by (apply Z.leb_gt; lia).
    split.
    { intros crypto fuel. unfold getSecureRandomBigInt. rewrite E. reflexivity. }
    destruct (byteCount_minimal (maxE - 1) ltac:(lia)) as [b [Hb [Hlo Hup]]].
    replace (maxE - 1 + 1) with maxE in Hb by lia.
    unfold bigLimit. rewrite Hb. cbv zeta.
    rewrite Z.shiftl_1_l.
    replace (2 ^ (8 * Z.of_nat (S b))) with (256 ^ Z.of_nat (S b))
      by (change 256 with (2 ^ 8); rewrite <- Z.pow_mul_r by lia; reflexivity).
    replace (Z.of_nat (S b) - 1) with (Z.of_nat b) by lia.
    set (range := 256 ^ Z.of_nat (S b)) in *.
    assert (Hr : 0 < range) by (apply Z.pow_pos_nonneg; lia).
    rewrite Z.quot_div_nonneg by lia.
    pose proof (Z.div_mod range maxE ltac:(lia)) as Hdm.
    pose proof (Z.mod_pos_bound range maxE ltac:(lia)) as Hmod.
    assert (Hq : 1 <= range / maxE) by (apply Z.div_le_lower_bound; lia).
    split; [lia|]. split; [lia|]. split; [apply Z.mod_mul; lia|]. nia.
  - intros crypto fuel maxE s v s' Hmax. unfold getSecureRandomBigInt.
    assert (E : (maxE <=? 1) = false) by (apply Z.leb_gt; lia).
    rewrite E. apply drawBigBelow_range. lia.
  - intros crypto W fuel maxE. apply halts_getSecureRandomBigInt.
Qed.

(** ** The shuffler *)

Lemma drawBelow_run (crypto : RandomSource) (limit max : Z) :
  0 < max ->
  forall fuel s x s',
    drawBelow crypto fuel limit max s = Ret x s' ->
    0 <= x < max /\ asked s' = asked s.
Proof.
  intros Hmax. induction fuel as [|fuel IH]; intros s x s'; simpl;
    [discriminate|].
  destruct (getRandomValues crypto (calls s)) as [f|]; [|discriminate].
  destruct (limit <=? f 0%nat mod 2 ^ 32).
  - intros H. apply IH in H. exact H.
  - intros H. inversion H; subst. split; [|reflexivity].
    apply Z.rem_bound_pos; [apply Z.mod_pos_bound; lia|exact Hmax].
Qed.

Lemma getSecureRandomInt_run (crypto : RandomSource) (fuel : nat) (max : Z)
    (s : rstate) (x : Z) (s' : rstate) :
  getSecureRandomInt crypto fuel max s = Ret x s' ->
  index_below max x /\ asked s' = max :: asked s.
Proof.
  unfold getSecureRandomInt.
  destruct (Z.leb_spec max 0) as [H0|H0].
  { intros H. inversion H; subst. split; [left; lia|reflexivity]. }
  destruct (Z.eqb_spec max 1) as [H1|H1].
  { intros H. inversion H; subst. split; [left; lia|reflexivity]. }
  intros H. apply (drawBelow_run crypto _ max H0) in H as [Hx Ha].
  split; [right; lia|exact Ha].
Qed.

Lemma shuffleLoop_run (crypto : RandomSource) (fuel : nat) :
  forall (i : nat) (array : list elem) (s : rstate) (a : list elem)
         (s' : rstate),
    (i < length array)%nat \/ i = 0%nat ->
    shuffleLoop crypto fuel i array s = Ret a s' ->
    a ≡ₚ array /\ asked s' = map Z.of_nat (seq 2 i) ++ asked s.
Proof.
  induction i as [|i IH]; intros array s a s' Hi.
  - simpl. intros H. inversion H; subst. split; reflexivity.
  - destruct Hi as [Hi|Hi]; [|discriminate].
    cbn [shuffleLoop]. unfold bindM at 1.
    destruct (getSecureRandomInt crypto fuel (Z.of_nat (S i) + 1) s)
      as [j s1|e s1|s1] eqn:Ej; [|discriminate|discriminate].
    apply getSecureRandomInt_run in Ej as [Hj Hlog].
    assert (Hr : 0 <= j <= Z.of_nat (S i)).
    { destruct Hj as [[H1 _]|[_ H2]]; lia. }
    pose proof (swap_Permutation array (S i) j Hi Hr) as Hperm.
    intros H. apply IH in H.
    + destruct H as [Ha Hlog']. split; [rewrite Ha; exact Hperm|].
      rewrite Hlog', Hlog. rewrite seq_S, map_app, <- app_assoc. simpl.
      repeat f_equal. lia.
    + left. rewrite (Permutation_length Hperm). lia.
Qed.

(** [fisherYatesShuffle(array)] leaves an array of at most one element as
    it is, without drawing.  Whenever it returns, the result is a
    permutation of the array, and the bounds it has passed to
    [getSecureRandomInt] are [n, n-1, ..., 2] in this order, where [n] is
    the length of the array.  [fisherYatesShuffleStr] returns a permutation
    of the characters of its string. *)
Theorem fisherYatesShuffle_permutation (crypto : RandomSource) (fuel : nat) :
  (forall array s,
      (length array <= 1)%nat ->
      fisherYatesShuffle crypto fuel array s = Ret array s)
  /\ (forall array s a s',
         fisherYatesShuffle crypto fuel array s = Ret a s' ->
         a ≡ₚ array
         /\ asked s'
            = map Z.of_nat (seq 2 (length array - 1)) ++ asked s)
  /\ (forall str s t s',
         fisherYatesShuffleStr crypto fuel str s = Ret t s' ->
         t ≡ₚ str).
Proof.
  split; [|split].
  - intros array s Hlen. unfold fisherYatesShuffle.
    replace (length array - 1)%nat with 0%nat by lia. reflexivity.
  - intros array s a s' H. unfold fisherYatesShuffle in H.
    apply shuffleLoop_run in H; [exact H|].
    destruct array; simpl; [right; reflexivity|left; lia].
  - intros str s t s'. unfold fisherYatesShuffleStr, bindM.
    destruct (fisherYatesShuffle crypto fuel (map Some str) s)
      as [a s1|e s1|s1] eqn:E; [|discriminate|discriminate].
    intros H. inversion H; subst.
    unfold fisherYatesShuffle in E. apply shuffleLoop_run in E.
    + destruct E as [Hp _]. apply join_Permutation in Hp.
      rewrite join_map_Some in Hp. exact Hp.
    + rewrite length_map. destruct str; simpl; [right; reflexivity|left; lia].
Qed.

(** ** The samplers, one by one *)

Lemma post_run {A : Type} (m : M A) (Q : A -> Prop) (s : rstate) (a : A)
    (s' : rstate) :
  post (fun _ => True) m Q -> m s = Ret a s' -> Q a.
Proof. intros Hp Hrun. specialize (Hp s Logic.I). rewrite Hrun in Hp. apply Hp. Qed.

Lemma sets_bounded (sets : list jsstring) :
  Forall (fun set => set <> []) sets ->
  Forall (fun set : jsstring =>
            set <> [] /\ Z.of_nat (length set)
                         <= Z.of_nat (length (concat sets))) sets.
Proof.
  intros Hne. apply Forall_forall. intros set Hin. split.
  - eapply Forall_forall in Hne; eauto.
  - pose proof (length_concat_member _ _ Hin). lia.
Qed.

Lemma generateGuaranteed_run (crypto : RandomSource) (fuel : nat)
    (len : Z) (pool : jsstring) (activeSets : list jsstring) (s : rstate)
    (a : list elem) (s' : rstate) :
  pool <> [] -> Forall (fun set => set <> []) activeSets ->
  generateGuaranteed crypto fuel len pool activeSets s = Ret a s' ->
  exists picks fill,
    a = map Some (picks ++ fill)
    /\ Forall2 (fun set c => c ∈ set) activeSets picks
    /\ Forall (fun c => c ∈ pool) fill
    /\ Z.of_nat (length fill) = Z.max 0 (len - Z.of_nat (length activeSets))
    /\ Z.of_nat (length a)
       = Z.max len (Z.of_nat (length activeSets)).
Proof.
  intros Hpool Hsets. unfold generateGuaranteed, bindM.
  set (B := Z.of_nat (length (concat activeSets)) + Z.of_nat (length pool)).
  destruct (pickEach crypto fuel activeSets [] s) as [p s1|e s1|s1] eqn:Ep;
    [|discriminate|discriminate].
  intros Hf.
  assert (HB : Forall (fun set : jsstring =>
                         set <> [] /\ Z.of_nat (length set) <= B) activeSets).
  { eapply Forall_impl; [apply sets_bounded; exact Hsets|].
    intros set [H1 H2]. split; [exact H1|]. subst B. simpl in *. lia. }
  destruct (post_run _ _ _ _ _
              (post_pickEach B _ crypto fuel (invariant_True B) activeSets []
                 HB) Ep) as [picks [-> Hpicks]].
  destruct (post_run _ _ _ _ _
              (post_drawChars B _ crypto fuel pool (invariant_True B) Hpool
                 ltac:(subst B; lia) _ _) Hf) as [fill [-> [Hlen Hfill]]].
  exists picks, fill. cbn [app] in *.
  pose proof (Forall2_length _ _ _ Hpicks) as Hk.
  rewrite length_map in Hlen.
  split; [rewrite map_app; reflexivity|].
  split; [exact Hpicks|]. split; [exact Hfill|].
  rewrite length_app, !length_map. lia.
Qed.

(** [generateGuaranteed(length, pool, activeSets)], for a non-empty pool and
    non-empty classes: the array returned starts with one character of each
    class, in the order of the classes, and goes on with
    [length - activeSets.length] characters of the pool (none when that is
    not positive, so that the array is longer than [length] when there are
    more classes than positions). *)
Theorem generateGuaranteed_layout (crypto : RandomSource) (fuel : nat)
    (len : Z) (pool : jsstring) (activeSets : list jsstring) (s : rstate)
    (a : list elem) (s' : rstate) :
  pool <> [] -> Forall (fun set => set <> []) activeSets ->
  generateGuaranteed crypto fuel len pool activeSets s = Ret a s' ->
  exists picks fill,
    a = map Some (picks ++ fill)
    /\ Forall2 (fun set c => c ∈ set) activeSets picks
    /\ Forall (fun c => c ∈ pool) fill
    /\ Z.of_nat (length fill) = Z.max 0 (len - Z.of_nat (length activeSets))
    /\ Z.of_nat (length a)
       = Z.max len (Z.of_nat (length activeSets)).
Proof. apply generateGuaranteed_run. Qed.

Lemma generateGuaranteed_layout_witness :
  match
    generateGuaranteed lcgSource 10 3 (list_ascii_of_string "abAB01#")
      [list_ascii_of_string "ab"; list_ascii_of_string "AB";
       list_ascii_of_string "01"; list_ascii_of_string "#"] initial_state
  with
  | Ret a _ => length a = 4%nat
  | _ => False
  end.
Proof.
  assert (Hpool : list_ascii_of_string "abAB01#" <> [])
    by (vm_compute; discriminate).
  assert (Hsets : Forall (fun set : jsstring => set <> [])
                    [list_ascii_of_string "ab"; list_ascii_of_string "AB";
                     list_ascii_of_string "01"; list_ascii_of_string "#"])
    by (repeat constructor; vm_compute; discriminate).
  pose proof (fun a s' =>
                generateGuaranteed_layout lcgSource 10 3 _ _ initial_state
                  a s' Hpool Hsets) as H.
  destruct (generateGuaranteed lcgSource 10 3 _ _ initial_state)
    as [a s'|e s'|s'] eqn:E;
    [|vm_compute in E; discriminate|vm_compute in E; discriminate].
  destruct (H a s' eq_refl) as [picks [fill [_ [_ [_ [_ Hl]]]]]].
  simpl in Hl. lia.
Defined.

(** ** Counting the requests for bounded integers *)

Lemma asks_ret {A : Type} (a : A) : asks (ret a) 0.
Proof. intros s. simpl. lia. Qed.

Lemma asks_weaken {A : Type} (m : M A) (n n' : nat) :
  asks m n -> (n <= n')%nat -> asks m n'.
Proof. intros H Hn s. specialize (H s). lia. Qed.

Lemma asks_bind_post {A B : Type} (m : M A) (f : A -> M B) (P : A -> Prop)
    (n1 n2 : nat) :
  post (fun _ => True) m P -> asks m n1 -> (forall a, P a -> asks (f a) n2) ->
  asks (bindM m f) (n1 + n2).
Proof.
  intros Hp Hm Hf s. unfold bindM.
  specialize (Hp s Logic.I). specialize (Hm s).
  destruct (m s) as [a s'|e s'|s']; simpl in *; [|lia|lia].
  destruct Hp as [_ Ha]. specialize (Hf a Ha s'). lia.
Qed.

Lemma asks_bind {A B : Type} (m : M A) (f : A -> M B) (n1 n2 : nat) :
  asks m n1 -> (forall a, asks (f a) n2) -> asks (bindM m f) (n1 + n2).
Proof.
  intros Hm Hf s. unfold bindM. specialize (Hm s).
  destruct (m s) as [a s'|e s'|s']; simpl in *; [|lia|lia].
  specialize (Hf a s'). lia.
Qed.

Lemma asks_try {A : Type} (m : M A) (h : exn -> M A) (n1 n2 : nat) :
  asks m n1 -> (forall e, asks (h e) n2) -> asks (try_catch m h) (n1 + n2).
Proof.
  intros Hm Hh s. unfold try_catch. specialize (Hm s).
  destruct (m s) as [a s'|e s'|s']; simpl in *; [lia| |lia].
  specialize (Hh e s'). lia.
Qed.

Lemma asks_lift {A : Type} (r : result A) : asks (lift r) 0.
Proof. intros s. unfold lift. destruct r; simpl; lia. Qed.

Lemma asks_drawBelow (crypto : RandomSource) (limit max : Z) :
  forall fuel, asks (drawBelow crypto fuel limit max) 0.
Proof.
  induction fuel as [|fuel IH]; intros s; simpl; [lia|].
  destruct (getRandomValues crypto (calls s)) as [f|]; [|simpl; lia].
  destruct (limit <=? f 0%nat mod 2 ^ 32); [|simpl; lia].
  specialize (IH {| calls := S (calls s); asked := asked s |}). exact IH.
Qed.

Lemma asks_getSecureRandomInt (crypto : RandomSource) (fuel : nat) (max : Z) :
  asks (getSecureRandomInt crypto fuel max) 1.
Proof.
  intros s. unfold getSecureRandomInt.
  destruct (max <=? 0); [simpl; lia|].
  destruct (max =? 1); [simpl; lia|].
  pose proof (asks_drawBelow crypto (RANGE / max * max) max fuel
                {| calls := calls s; asked := max :: asked s |}) as H.
  simpl in *. lia.
Qed.

Lemma asks_drawBigBelow (crypto : RandomSource) (nBytes : nat)
    (limit maxExclusive : Z) :
  forall fuel, asks (drawBigBelow crypto fuel nBytes limit maxExclusive) 0.
Proof.
  induction fuel as [|fuel IH]; intros s; simpl; [lia|].
  destruct (getRandomValues crypto (calls s)) as [f|]; [|simpl; lia].
  destruct (bytesToBigInt f nBytes <? limit); [simpl; lia|].
  specialize (IH {| calls := S (calls s); asked := asked s |}). exact IH.
Qed.

Lemma asks_getSecureRandomBigInt (crypto : RandomSource) (fuel : nat)
    (maxExclusive : Z) :
  asks (getSecureRandomBigInt crypto fuel maxExclusive) 0.
Proof.
  unfold getSecureRandomBigInt. destruct (maxExclusive <=? 1).
  - apply asks_ret.
  - apply asks_drawBigBelow.
Qed.

Lemma asks_drawChars (crypto : RandomSource) (fuel : nat) (pool : jsstring) :
  forall n temp, asks (drawChars crypto fuel n pool temp) n.
Proof.
  induction n as [|n IH]; intros temp; simpl.
  - apply asks_ret.
  - apply (asks_bind _ _ 1 n); [apply asks_getSecureRandomInt|].
    intros i. apply IH.
Qed.

Lemma asks_attemptLoop (crypto : RandomSource) (fuel : nat) (len : Z)
    (pool : jsstring) (activeSets : list jsstring) (forceEach : bool) :
  forall attempts,
    asks (attemptLoop crypto fuel attempts len pool activeSets forceEach)
      (attempts * Z.to_nat len).
Proof.
  induction attempts as [|attempts IH]; simpl.
  - apply asks_ret.
  - apply asks_bind; [apply asks_drawChars|].
    intros temp. destruct (forceEach && isMissing activeSets temp).
    + apply IH.
    + eapply asks_weaken; [apply asks_ret|lia].
Qed.

Lemma asks_pickEach (crypto : RandomSource) (fuel : nat) :
  forall sets arr, asks (pickEach crypto fuel sets arr) (length sets).
Proof.
  induction sets as [|set sets IH]; intros arr; simpl.
  - apply asks_ret.
  - apply (asks_bind _ _ 1 (length sets)); [apply asks_getSecureRandomInt|].
    intros i. apply IH.
Qed.

Lemma asks_generateGuaranteed (crypto : RandomSource) (fuel : nat)
    (len : Z) (pool : jsstring) (activeSets : list jsstring) :
  asks (generateGuaranteed crypto fuel len pool activeSets)
    (length activeSets + Z.to_nat len).
Proof.
  unfold generateGuaranteed. apply asks_bind; [apply asks_pickEach|].
  intros a. eapply asks_weaken; [apply asks_drawChars|lia].
Qed.

Lemma asks_shuffleLoop (crypto : RandomSource) (fuel : nat) :
  forall i array, asks (shuffleLoop crypto fuel i array) i.
Proof.
  induction i as [|i IH]; intros array.
  - apply asks_ret.
  - cbn [shuffleLoop].
    apply (asks_bind _ _ 1 i); [apply asks_getSecureRandomInt|].
    intros j. apply IH.
Qed.

Lemma asks_generateCombinatorial (crypto : RandomSource) (fuel : nat)
    (len : Z) (activeSets : list jsstring) :
  asks (generateCombinatorial crypto fuel len activeSets) 0.
Proof.
  unfold generateCombinatorial.
  apply (asks_bind _ _ 0 0); [apply asks_lift|]. intros totalValid.
  apply (asks_bind _ _ 0 0); [apply asks_getSecureRandomBigInt|]. intros rank.
  apply (asks_bind _ _ 0 0); [apply asks_lift|]. intros r. apply asks_ret.
Qed.

Lemma asks_generatePassword (math : MathLib) (crypto : RandomSource)
    (fuel : nat) (options : Options) :
  asks (generatePassword math crypto fuel options)
    (1002 * Z.to_nat (cfg_length (prepareActiveSets options))
     + length (cfg_activeSets (prepareActiveSets options))).
Proof.
  unfold generatePassword.
  set (cfg := prepareActiveSets options).
  set (L := Z.to_nat (cfg_length cfg)).
  set (k := length (cfg_activeSets cfg)).
  eapply asks_weaken; [apply (asks_bind _ _ 0 (1002 * L + k))|lia].
  { unfold ensureCrypto. destruct (crypto_available crypto);
      [apply asks_ret|apply asks_lift]. }
  intros _. cbv zeta. fold cfg.
  destruct (k =? 0)%nat eqn:Ek;
    [eapply asks_weaken; [apply asks_ret|lia]|].
  assert (Hne : cfg_activeSets cfg <> []).
  { intros H0. subst k. rewrite H0 in Ek. discriminate. }
  destruct (cfg_forceEach cfg && (cfg_length cfg <? Z.of_nat k));
    [eapply asks_weaken; [apply asks_ret|lia]|].
  pose proof (prepareActiveSets_usable options Hne) as Hu. fold cfg in Hu.
  (* tier 1 *)
  eapply asks_weaken;
    [eapply (asks_bind_post _ _ _ (1000 * L + 0) (k + L + L));
     [apply (post_firstTier _ crypto fuel cfg (invariant_True 128) Hu)| |]|lia].
  { apply asks_try; [|intros; apply asks_ret].
    apply asks_attemptLoop. }
  intros r1 H1.
  (* tier 2 *)
  eapply asks_weaken;
    [eapply (asks_bind_post _ _ _ 0 (k + L + L));
     [apply (post_secondTier _ crypto fuel cfg r1 (invariant_True 128) Hu H1)
     | |]|lia].
  { destruct (negb (noPassword r1)); [apply asks_ret|].
    destruct (cfg_forceEach cfg); [|apply asks_ret].
    apply (asks_try _ _ 0 0); [|intros; apply asks_ret].
    apply (asks_bind _ _ 0 0); [|intros; apply asks_ret].
    apply asks_generateCombinatorial. }
  intros t2 H2.
  (* tier 3 *)
  eapply (asks_bind_post _ _ _ (k + L) L);
    [apply (post_lastTier _ crypto fuel cfg t2 (invariant_True 128) Hu H2)| |].
  { destruct (noPassword (fst t2));
      [|eapply asks_weaken; [apply asks_ret|lia]].
    eapply asks_weaken;
      [apply (asks_bind _ _ (k + L + 0) 0); [|intros; apply asks_ret]|lia].
    apply asks_try; [|intros; apply asks_ret].
    apply asks_generateGuaranteed. }
  intros t3 H3.
  assert (Hl3 : (length (fst t3) <= L)%nat).
  { destruct H3 as [[-> _]|[chars [Hp [Hl _]]]]; [simpl; lia|].
    rewrite (Permutation_length Hp), length_map, Hl. subst L. lia. }
  eapply asks_weaken;
    [apply (asks_bind _ _ (length (fst t3) - 1) 0)|lia].
  { unfold fisherYatesShuffle. apply asks_shuffleLoop. }
  intros shuffled.
  apply (asks_bind _ _ 0 0); [apply asks_lift|]. intros e. apply asks_ret.
Qed.

(** Whatever the options, the random source and the outcome, one call to
    [generatePassword] passes at most [1002 * L + k] bounds to
    [getSecureRandomInt], where [L] is the clamped length and [k] the number
    of active classes: at most [128260]. *)
Theorem generatePassword_requests (math : MathLib) (crypto : RandomSource)
    (fuel : nat) (options : Options) (s : rstate) :
  (length (asked (final_state (generatePassword math crypto fuel options s)))
   <= length (asked s)
      + (1002 * Z.to_nat (cfg_length (prepareActiveSets options))
         + length (cfg_activeSets (prepareActiveSets options))))%nat
  /\ 1002 * cfg_length (prepareActiveSets options)
     + Z.of_nat (length (cfg_activeSets (prepareActiveSets options)))
     <= 128260.
Proof.
  split; [apply asks_generatePassword|].
  pose proof (prepareActiveSets_facts options) as H. cbv zeta in H.
  destruct H as [Hlen [Hk _]]. lia.
Qed.

(** [tryRandomSampling], for a non-empty pool: an array it returns holds
    [length] characters of the pool, and a character of every class when
    [forceEach] holds; it returns [null] only with [forceEach]; and it
    passes at most [1000 * length] bounds to [getSecureRandomInt]. *)
Theorem tryRandomSampling_result (crypto : RandomSource) (fuel : nat)
    (len : Z) (pool : jsstring) (activeSets : list jsstring)
    (forceEach : bool) (s : rstate) :
  pool <> [] ->
  match tryRandomSampling crypto fuel len pool activeSets forceEach s with
  | Ret (Some temp) _ =>
    exists chars,
      temp = map Some chars /\ Z.of_nat (length chars) = Z.max 0 len
      /\ Forall (fun c => c ∈ pool) chars
      /\ (forceEach = true -> covering activeSets chars)
  | Ret None _ => forceEach = true
  | _ => True
  end
  /\ (length (asked (final_state
                       (tryRandomSampling crypto fuel len pool activeSets
                          forceEach s)))
      <= length (asked s) + 1000 * Z.to_nat len)%nat.
Proof.
  intros Hpool. split; [|apply asks_attemptLoop].
  destruct (tryRandomSampling crypto fuel len pool activeSets forceEach s)
    as [[temp|] s'|e s'|s'] eqn:E; [| |exact Logic.I|exact Logic.I].
  - set (B := Z.of_nat (length pool)).
    destruct (post_run _ _ _ _ _
                (post_attemptLoop B _ crypto fuel len pool activeSets
                   forceEach (invariant_True B) Hpool ltac:(subst B; lia)
                   1000%nat) E temp eq_refl)
      as [chars [-> [Hl [Hin Hm]]]].
    exists chars. split; [reflexivity|]. split; [lia|]. split; [exact Hin|].
    intros Hf. apply isMissing_false_covering. apply Hm. exact Hf.
  - unfold tryRandomSampling in E. clear -E.
    destruct forceEach; [reflexivity|]. exfalso.
    replace 1000%nat with (S 999) in E by reflexivity.
    cbn [attemptLoop andb] in E. unfold bindM in E.
    destruct (drawChars crypto fuel (Z.to_nat len) pool [] s);
      discriminate.
Qed.

Lemma tryRandomSampling_result_witness :
  list_ascii_of_string "ab01" <> []
  /\ match
       tryRandomSampling lcgSource 10 4 (list_ascii_of_string "ab01")
         [list_ascii_of_string "ab"; list_ascii_of_string "01"] true
         initial_state
     with
     | Ret (Some temp) _ =>
       exists chars,
         temp = map Some chars /\ Z.of_nat (length chars) = Z.max 0 4
         /\ Forall (fun c => c ∈ list_ascii_of_string "ab01") chars
         /\ (true = true ->
             covering [list_ascii_of_string "ab"; list_ascii_of_string "01"]
               chars)
     | Ret None _ => true = true
     | _ => True
     end
     /\ (length (asked (final_state
                          (tryRandomSampling lcgSource 10 4
                             (list_ascii_of_string "ab01")
                             [list_ascii_of_string "ab";
                              list_ascii_of_string "01"] true
                             initial_state)))
         <= length (asked initial_state) + 1000 * Z.to_nat 4)%nat.
Proof.
  assert (Hpool : list_ascii_of_string "ab01" <> [])
    by (vm_compute; discriminate).
  split; [exact Hpool|].
  exact (tryRandomSampling_result lcgSource 10 4 (list_ascii_of_string "ab01")
           [list_ascii_of_string "ab"; list_ascii_of_string "01"] true
           initial_state Hpool).
Defined.

(** ** The classes of [prepareActiveSets] *)

Lemma includes_elem_of (set : jsstring) (c : ascii) :
  includes set (Some c) = true <-> c ∈ set.
Proof.
  simpl. rewrite existsb_exists. split.
  - intros [x [Hx Heq]]. apply Ascii.eqb_eq in Heq. subst x.
    apply list_elem_of_In. exact Hx.
  - intros H. exists c. split; [apply list_elem_of_In; exact H|].
    apply Ascii.eqb_refl.
Qed.

Lemma nodupb_NoDup (l : jsstring) : nodupb l = true -> NoDup l.
Proof.
  induction l as [|c l IH]; simpl; [constructor|].
  intros H. apply andb_true_iff in H as [H1 H2].
  constructor; [|apply IH; exact H2].
  intros Hin. apply negb_true_iff in H1.
  assert (existsb (Ascii.eqb c) l = true); [|congruence].
  apply existsb_exists. exists c.
  split; [apply list_elem_of_In; exact Hin|apply Ascii.eqb_refl].
Qed.

Lemma forallb_Forall {A : Type} (f : A -> bool) (P : A -> Prop) (l : list A) :
  (forall x, f x = true -> P x) -> forallb f l = true -> Forall P l.
Proof.
  intros Hf H. apply Forall_forall. intros x Hx.
  apply Hf. eapply forallb_forall in H; [exact H|].
  apply list_elem_of_In. exact Hx.
Qed.

Lemma classes_ok_sound (ambig unsafe : bool) (sets : list jsstring) :
  classes_ok ambig unsafe sets = true ->
  Forall (fun set => set <> []) sets
  /\ NoDup (concat sets)
  /\ Forall (fun c => c ∈ UPPER ++ LOWER ++ NUMS ++ SYMBOLS) (concat sets)
  /\ (ambig = true -> Forall (fun c => c ∉ AMBIGUOUS) (concat sets))
  /\ (unsafe = true -> Forall (fun c => c ∉ CODE_UNSAFE) (concat sets)).
Proof.
  unfold classes_ok. intros H.
  apply andb_true_iff in H as [H H5]. apply andb_true_iff in H as [H H4].
  apply andb_true_iff in H as [H H3]. apply andb_true_iff in H as [H1 H2].
  split; [|split; [|split; [|split]]].
  - eapply forallb_Forall; [|exact H1]. intros set Hs ->. discriminate.
  - apply nodupb_NoDup. exact H2.
  - eapply forallb_Forall; [|exact H3]. intros c Hc.
    apply includes_elem_of. exact Hc.
  - intros ->. cbn [negb orb] in H4.
    eapply forallb_Forall; [|exact H4]. intros c Hc Hin.
    apply includes_elem_of in Hin. cbv beta in Hc.
    apply negb_true_iff in Hc. congruence.
  - intros ->. cbn [negb orb] in H5.
    eapply forallb_Forall; [|exact H5]. intros c Hc Hin.
    apply includes_elem_of in Hin. cbv beta in Hc.
    apply negb_true_iff in Hc. congruence.
Qed.

Lemma prepareActiveSets_checked (options : Options) :
  classes_ok (default false (opt_ambig options))
    (default false (opt_unsafe options))
    (cfg_activeSets (prepareActiveSets options))
  = true
  /\ (length (cfg_activeSets (prepareActiveSets options)) =? 0)%nat
     = noClass options.
Proof.
  unfold prepareActiveSets, noClass. cbn [cfg_activeSets].
  destruct (default true (opt_upper options)),
           (default true (opt_lower options)),
           (default true (opt_nums options)),
           (default true (opt_symbols options)),
           (default false (opt_ambig options)),
           (default false (opt_unsafe options));
    split; vm_compute; reflexivity.
Qed.

(** For every combination of options, [prepareActiveSets] returns a length
    in [[5, 128]] and at most four classes; the classes are non-empty, hold
    characters of the four base classes only, and share no character (the
    pool has no repetition); there is no class exactly when none of
    [upper], [lower], [nums], [symbols] is set; with [ambig] no character of
    the pool is an ambiguous one, and with [unsafe] none is a code-unsafe
    one. *)
Theorem prepareActiveSets_classes (options : Options) :
  5 <= cfg_length (prepareActiveSets options) <= 128
  /\ (length (cfg_activeSets (prepareActiveSets options)) <= 4)%nat
  /\ Forall (fun set => set <> []) (cfg_activeSets (prepareActiveSets options))
  /\ NoDup (concat (cfg_activeSets (prepareActiveSets options)))
  /\ Forall (fun c => c ∈ UPPER ++ LOWER ++ NUMS ++ SYMBOLS)
       (concat (cfg_activeSets (prepareActiveSets options)))
  /\ (cfg_activeSets (prepareActiveSets options) = []
      <-> noClass options = true)
  /\ (default false (opt_ambig options) = true ->
      Forall (fun c => c ∉ AMBIGUOUS)
        (concat (cfg_activeSets (prepareActiveSets options))))
  /\ (default false (opt_unsafe options) = true ->
      Forall (fun c => c ∉ CODE_UNSAFE)
        (concat (cfg_activeSets (prepareActiveSets options)))).
Proof.
  pose proof (prepareActiveSets_facts options) as H. cbv zeta in H.
  destruct H as [Hlen [Hk _]].
  destruct (prepareActiveSets_checked options) as [Hok Hnone].
  apply classes_ok_sound in Hok as [H1 [H2 [H3 [H4 H5]]]].
  repeat (split; [assumption|]).
  split; [|split; assumption].
  rewrite <- Hnone. rewrite Nat.eqb_eq.
  destruct (cfg_activeSets (prepareActiveSets options)); simpl; split;
    congruence || discriminate || reflexivity.
Qed.

(** ** Where the characters of a password come from *)

Lemma bind_Ret {A B : Type} (m : M A) (f : A -> M B) (s : rstate) (b : B)
    (s' : rstate) :
  bindM m f s = Ret b s' -> exists a s1, m s = Ret a s1 /\ f a s1 = Ret b s'.
Proof.
  unfold bindM. destruct (m s) as [a s1|e s1|s1]; [|discriminate|discriminate].
  intros H. exists a, s1. split; [reflexivity|exact H].
Qed.

Lemma try_Ret {A : Type} (m : M A) (a0 : A) (s : rstate) (a : A)
    (s' : rstate) :
  try_catch m (fun _ => ret a0) s = Ret a s' ->
  m s = Ret a s' \/ (exists e, m s = Raise e s') /\ a = a0.
Proof.
  unfold try_catch. destruct (m s) as [a1 s1|e s1|s1]; [| |discriminate].
  - intros H. left. exact H.
  - intros H. inversion H; subst. right. split; [eexists; reflexivity|reflexivity].
Qed.

Lemma generatePassword_inv (math : MathLib) (crypto : RandomSource)
    (fuel : nat) (options : Options) (s : rstate) (r : GenerationResult)
    (s' : rstate) :
  generatePassword math crypto fuel options s = Ret r s' ->
  error r = None ->
  usable (prepareActiveSets options)
  /\ exists t3 s3 shuffled s4,
       handed crypto (prepareActiveSets options) t3
       /\ fisherYatesShuffle crypto fuel (fst t3) s3 = Ret shuffled s4
       /\ password r = join shuffled
       /\ method r = Some (snd t3)
       /\ calculateEntropy math (cfg_length (prepareActiveSets options))
            (Z.of_nat
               (length (concat (cfg_activeSets (prepareActiveSets options)))))
            (map (fun set => Z.of_nat (length set))
               (cfg_activeSets (prepareActiveSets options)))
            (cfg_forceEach (prepareActiveSets options)) (snd t3)
          = Ok (entropy r).
Proof.
  intros Hrun Herr. unfold generatePassword in Hrun.
  apply bind_Ret in Hrun as [_ [s0 [_ Hrun]]]. cbv zeta in Hrun.
  set (cfg := prepareActiveSets options) in *.
  destruct (length (cfg_activeSets cfg) =? 0)%nat eqn:Ek.
  { inversion Hrun; subst. discriminate. }
  assert (Hne : cfg_activeSets cfg <> []).
  { intros H0. rewrite H0 in Ek. discriminate. }
  destruct (cfg_forceEach cfg
            && (cfg_length cfg <? Z.of_nat (length (cfg_activeSets cfg)))).
  { inversion Hrun; subst. discriminate. }
  pose proof (prepareActiveSets_usable options Hne) as Hu. fold cfg in Hu.
  split; [exact Hu|].
  apply bind_Ret in Hrun as [r1 [s1 [H1 Hrun]]].
  apply bind_Ret in Hrun as [t2 [s2 [H2 Hrun]]].
  apply bind_Ret in Hrun as [t3 [s3 [H3 Hrun]]].
  apply bind_Ret in Hrun as [shuffled [s4 [H4 Hrun]]].
  apply bind_Ret in Hrun as [e [s5 [H5 Hrun]]].
  inversion Hrun; subst. cbn [password method entropy].
  exists t3, s3, shuffled, s4.
  split; [|split; [exact H4|split; [reflexivity|split; [reflexivity|]]]].
  - (* the tiers *)
    pose proof (post_run _ _ _ _ _
                  (post_firstTier _ crypto fuel cfg (invariant_True 128) Hu)
                  H1) as P1.
    pose proof (post_run _ _ _ _ _
                  (post_secondTier _ crypto fuel cfg r1 (invariant_True 128)
                     Hu P1) H2) as P2.
    assert (T2 : noPassword (fst t2) = true
                 \/ (noPassword r1 = false /\ t2 = (r1, rejection_sampling))).
    { destruct (noPassword r1) eqn:En; cbn [negb] in H2.
      - left. destruct (cfg_forceEach cfg).
        + apply try_Ret in H2 as [H2|[_ ->]]; [|reflexivity].
          apply bind_Ret in H2 as [a [sa [Ha _]]].
          destruct Hu as [Hlen [_ _]].
          destruct (post_run _ _ _ _ _
                      (post_generateCombinatorial 128 _ crypto fuel
                         (cfg_length cfg) (cfg_activeSets cfg)
                         (invariant_True 128) ltac:(lia) Hne) Ha).
        + inversion H2; subst. exact En.
      - right. inversion H2; subst. split; reflexivity. }
    unfold handed.
    destruct (noPassword (fst t2)) eqn:En2.
    + right.
      apply bind_Ret in H3 as [a [sa [Ha H3]]]. inversion H3; subst.
      cbn [fst snd]. split; [reflexivity|].
      apply try_Ret in Ha as [Ha|[_ ->]]; [right|left; reflexivity].
      pose proof (usable_pool cfg Hu) as Hpool.
      destruct Hu as [_ [_ [_ [Hsets _]]]].
      destruct (generateGuaranteed_run crypto fuel _ _ _ _ _ _ Hpool
                  ltac:(eapply Forall_impl; [exact Hsets|];
                        intros ? [? _]; assumption) Ha)
        as [picks [fill [E [Hp [Hf _]]]]].
      exists picks, fill. auto.
    + left. inversion H3; subst. cbn [fst snd].
      destruct T2 as [T2|[En1 ->]]; [congruence|]. cbn [fst snd] in *.
      destruct (noPassword_false r1 En1) as [temp [-> Hnn]]. cbn [default].
      split; [reflexivity|]. split; [exact Hnn|]. apply P1. reflexivity.
  - unfold lift in H5.
    destruct (calculateEntropy math (cfg_length cfg) _ _ _ (snd t3));
      [|discriminate|discriminate].
    inversion H5; subst. reflexivity.
Qed.

Lemma handed_chars (crypto : RandomSource) (cfg : ActiveSetConfiguration)
    (t3 : list elem * string) :
  handed crypto cfg t3 ->
  exists chars,
    fst t3 = map Some chars
    /\ Forall (fun c => c ∈ concat (cfg_activeSets cfg)) chars.
Proof.
  intros [[_ [_ [chars [E [_ [Hin _]]]]]]|[_ [E|[picks [fill [E [Hp Hf]]]]]]].
  - exists chars. split; assumption.
  - exists []. split; [exact E|constructor].
  - exists (picks ++ fill). split; [exact E|].
    apply Forall_app. split; [|exact Hf].
    clear -Hp. induction Hp as [|set c sets picks Hc _ IH]; [constructor|].
    constructor.
    + apply elem_of_concat. exists set. split; [exact Hc|left].
    + eapply Forall_impl; [exact IH|]. intros x Hx.
      apply elem_of_concat in Hx as [cls [H1 H2]].
      apply elem_of_concat. exists cls. split; [exact H1|right; exact H2].
Qed.

Lemma generatePassword_pool (math : MathLib) (crypto : RandomSource)
    (fuel : nat) (options : Options) (s : rstate) (r : GenerationResult)
    (s' : rstate) :
  generatePassword math crypto fuel options s = Ret r s' ->
  error r = None ->
  Forall (fun c => c ∈ concat (cfg_activeSets (prepareActiveSets options)))
    (password r).
Proof.
  intros Hrun Herr.
  destruct (generatePassword_inv _ _ _ _ _ _ _ Hrun Herr)
    as [_ [t3 [s3 [shuffled [s4 [Hh [Hsh [Hpw _]]]]]]]].
  destruct (handed_chars _ _ _ Hh) as [chars [E Hin]].
  unfold fisherYatesShuffle in Hsh. apply shuffleLoop_run in Hsh as [Hp _].
  - apply join_Permutation in Hp. rewrite E, join_map_Some in Hp.
    rewrite Hpw, Hp. exact Hin.
  - destruct (fst t3); simpl; [right; reflexivity|left; lia].
Qed.

Lemma prepareActiveSets_selected (options : Options) :
  classes_selected (default true (opt_upper options))
    (default true (opt_lower options)) (default true (opt_nums options))
    (default true (opt_symbols options))
    (cfg_activeSets (prepareActiveSets options))
  = true.
Proof.
  unfold prepareActiveSets. cbn [cfg_activeSets].
  destruct (default true (opt_upper options)),
           (default true (opt_lower options)),
           (default true (opt_nums options)),
           (default true (opt_symbols options)),
           (default false (opt_ambig options)),
           (default false (opt_unsafe options));
    vm_compute; reflexivity.
Qed.

Lemma not_includes_Forall (set pool : jsstring) :
  forallb (fun c => negb (includes set (Some c))) pool = true ->
  Forall (fun c => c ∉ set) pool.
Proof.
  apply forallb_Forall. intros c Hc Hin.
  apply includes_elem_of in Hin. cbv beta in Hc.
  apply negb_true_iff in Hc. congruence.
Qed.

(** Every character of a password returned by [generatePassword] is a
    character of an active class.  So it is none of a base class that the
    options switch off, no ambiguous character when [ambig] is set, and no
    code-unsafe character when [unsafe] is set. *)
Theorem generatePassword_alphabet (math : MathLib) (crypto : RandomSource)
    (fuel : nat) (options : Options) (s : rstate) (r : GenerationResult)
    (s' : rstate) :
  generatePassword math crypto fuel options s = Ret r s' ->
  error r = None ->
  Forall (fun c => c ∈ concat (cfg_activeSets (prepareActiveSets options)))
    (password r)
  /\ (default true (opt_upper options) = false ->
      Forall (fun c => c ∉ UPPER) (password r))
  /\ (default true (opt_lower options) = false ->
      Forall (fun c => c ∉ LOWER) (password r))
  /\ (default true (opt_nums options) = false ->
      Forall (fun c => c ∉ NUMS) (password r))
  /\ (default true (opt_symbols options) = false ->
      Forall (fun c => c ∉ SYMBOLS) (password r))
  /\ (default false (opt_ambig options) = true ->
      Forall (fun c => c ∉ AMBIGUOUS) (password r))
  /\ (default false (opt_unsafe options) = true ->
      Forall (fun c => c ∉ CODE_UNSAFE) (password r)).
Proof.
  intros Hrun Herr.
  pose proof (generatePassword_pool _ _ _ _ _ _ _ Hrun Herr) as Hpool.
  assert (Hsub : forall set : jsstring,
             Forall (fun c => c ∉ set)
               (concat (cfg_activeSets (prepareActiveSets options))) ->
             Forall (fun c => c ∉ set) (password r)).
  { intros set Hset. apply Forall_forall. intros c Hc.
    eapply Forall_forall in Hpool; [|exact Hc].
    eapply Forall_forall in Hset; [exact Hset|exact Hpool]. }
  destruct (prepareActiveSets_checked options) as [Hok _].
  apply classes_ok_sound in Hok as [_ [_ [_ [Ha Hu]]]].
  pose proof (prepareActiveSets_selected options) as Hsel.
  unfold classes_selected in Hsel.
  apply andb_true_iff in Hsel as [Hsel H4].
  apply andb_true_iff in Hsel as [Hsel H3].
  apply andb_true_iff in Hsel as [H1 H2].
  split; [exact Hpool|].
  split; [intros E; rewrite E in H1; apply Hsub, not_includes_Forall, H1|].
  split; [intros E; rewrite E in H2; apply Hsub, not_includes_Forall, H2|].
  split; [intros E; rewrite E in H3; apply Hsub, not_includes_Forall, H3|].
  split; [intros E; rewrite E in H4; apply Hsub, not_includes_Forall, H4|].
  split; intros E; apply Hsub; auto.
Qed.

Lemma generatePassword_alphabet_witness :
  match generatePassword integerMath lcgSource 10 noOptions initial_state with
  | Ret r _ =>
    Forall (fun c => c ∈ concat (cfg_activeSets (prepareActiveSets noOptions)))
      (password r)
  | _ => False
  end.
Proof.
  destruct (generatePassword integerMath lcgSource 10 noOptions initial_state)
    as [r s'|e s'|s'] eqn:Hrun;
    [|vm_compute in Hrun; discriminate|vm_compute in Hrun; discriminate].
  assert (Herr : error r = None).
  { vm_compute in Hrun. inversion Hrun. reflexivity. }
  exact (proj1 (generatePassword_alphabet integerMath lcgSource 10 noOptions
                  initial_state r s' Hrun Herr)).
Defined.

(** ** The method tag and the errors *)

(** A record returned without an error carries the tag of the first tier
    (and then a non-empty password) or the tag of the third tier, never
    [pure_random] nor [combinatorial_sampling]; its entropy field is what
    [calculateEntropy] gives for the clamped length, the size of the pool,
    the sizes of the classes, [forceEach] and that tag. *)
Theorem generatePassword_method (math : MathLib) (crypto : RandomSource)
    (fuel : nat) (options : Options) (s : rstate) (r : GenerationResult)
    (s' : rstate) :
  generatePassword math crypto fuel options s = Ret r s' ->
  error r = None ->
  exists tag,
    method r = Some tag
    /\ (tag = rejection_sampling /\ password r <> []
        \/ tag = guaranteed_inclusion)
    /\ tag <> pure_random /\ tag <> combinatorial_sampling
    /\ calculateEntropy math (cfg_length (prepareActiveSets options))
         (Z.of_nat
            (length (concat (cfg_activeSets (prepareActiveSets options)))))
         (map (fun set => Z.of_nat (length set))
            (cfg_activeSets (prepareActiveSets options)))
         (cfg_forceEach (prepareActiveSets options)) tag
       = Ok (entropy r).
Proof.
  intros Hrun Herr.
  destruct (generatePassword_inv _ _ _ _ _ _ _ Hrun Herr)
    as [_ [t3 [s3 [shuffled [s4 [Hh [Hsh [Hpw [Hm He]]]]]]]]].
  exists (snd t3). split; [exact Hm|].
  assert (Htag : snd t3 = rejection_sampling /\ password r <> []
                 \/ snd t3 = guaranteed_inclusion).
  { destruct Hh as [[E [Hne [chars [Ec _]]]]|[E _]]; [left|right; exact E].
    split; [exact E|]. intros Hnil. apply Hne.
    unfold fisherYatesShuffle in Hsh. apply shuffleLoop_run in Hsh as [Hp _].
    - apply join_Permutation in Hp. rewrite Ec, join_map_Some in Hp.
      rewrite <- Hpw, Hnil in Hp. apply Permutation_nil in Hp.
      rewrite Ec, Hp. reflexivity.
    - destruct (fst t3); simpl; [right; reflexivity|left; lia]. }
  split; [exact Htag|].
  split; [|split; [|exact He]].
  - destruct Htag as [[-> _]| ->]; discriminate.
  - destruct Htag as [[-> _]| ->]; discriminate.
Qed.

Lemma generatePassword_method_witness :
  match generatePassword integerMath lcgSource 10 noOptions initial_state with
  | Ret r _ =>
    exists tag,
      method r = Some tag
      /\ (tag = rejection_sampling /\ password r <> []
          \/ tag = guaranteed_inclusion)
  | _ => False
  end.
Proof.
  destruct (generatePassword integerMath lcgSource 10 noOptions initial_state)
    as [r s'|e s'|s'] eqn:Hrun;
    [|vm_compute in Hrun; discriminate|vm_compute in Hrun; discriminate].
  assert (Herr : error r = None).
  { vm_compute in Hrun. inversion Hrun. reflexivity. }
  destruct (generatePassword_method integerMath lcgSource 10 noOptions
              initial_state r s' Hrun Herr) as [tag [H1 [H2 _]]].
  exists tag. split; assumption.
Defined.

(** Without [window.crypto.getRandomValues], [generatePassword] throws
    before anything else.  With it, and no class selected, it returns the
    no-class error without drawing.  A record it returns carries the
    no-class error exactly when no class is selected, and never the
    length-below-minimum error: the clamped length is at least [5] and there
    are at most [4] classes. *)
Theorem generatePassword_errors (math : MathLib) (crypto : RandomSource)
    (fuel : nat) (options : Options) :
  (crypto_available crypto = false ->
   forall s, generatePassword math crypto fuel options s = Raise CryptoError s)
  /\ (crypto_available crypto = true -> noClass options = true ->
      forall s,
        generatePassword math crypto fuel options s
        = Ret {| password := []; entropy := 0%float; method := None;
                 error := Some NoClassSelected |} s)
  /\ (forall s r s',
         generatePassword math crypto fuel options s = Ret r s' ->
         (error r = Some NoClassSelected <-> noClass options = true)
         /\ (error r = None <-> noClass options = false)
         /\ forall required, error r <> Some (LengthBelowMinimum required)).
Proof.
  destruct (prepareActiveSets_checked options) as [_ Hnone].
  split; [|split].
  - intros Hav s. unfold generatePassword, ensureCrypto. rewrite Hav.
    reflexivity.
  - intros Hav Hno s. unfold generatePassword, ensureCrypto. rewrite Hav.
    unfold bindM at 1. cbn [ret]. cbv zeta. rewrite Hnone, Hno. reflexivity.
  - intros s r s' Hrun.
    apply generatePassword_generated in Hrun. unfold generated in Hrun.
    pose proof (prepareActiveSets_facts options) as Hf. cbv zeta in Hf.
    destruct Hf as [Hlen [Hk _]].
    destruct (error r) as [[|required]|].
    + rewrite Hrun in Hnone. simpl in Hnone.
      split; [split; auto|]. split; [|discriminate].
      split; [discriminate|]. intros E. congruence.
    + destruct Hrun as [_ Hlt]. lia.
    + destruct Hrun as [Hne _].
      assert (E : noClass options = false).
      { rewrite <- Hnone. apply Nat.eqb_neq.
        destruct (cfg_activeSets (prepareActiveSets options));
          [congruence|discriminate]. }
      split; [split; [discriminate|congruence]|].
      split; [split; auto|discriminate].
Qed.

(** ** The master password *)

Lemma masterOptions_pool :
  Forall (fun c => (c ∈ UPPER \/ c ∈ LOWER \/ c ∈ NUMS) /\ c ∉ AMBIGUOUS)
    (concat (cfg_activeSets (prepareActiveSets masterOptions))).
Proof.
  apply (forallb_Forall
           (fun c => (includes UPPER (Some c) || includes LOWER (Some c)
                      || includes NUMS (Some c))
                     && negb (includes AMBIGUOUS (Some c))));
    [|vm_compute; reflexivity].
  intros c Hc. apply andb_true_iff in Hc as [H1 H2]. split.
  - apply orb_true_iff in H1 as [H1|H1];
      [apply orb_true_iff in H1 as [H1|H1]|];
      apply includes_elem_of in H1; auto.
  - intros Hin. apply includes_elem_of in Hin.
    apply negb_true_iff in H2. congruence.
Qed.

Lemma masterOptions_classes :
  exists U L N,
    cfg_activeSets (prepareActiveSets masterOptions) = [U; L; N]
    /\ Forall (fun c => c ∈ UPPER) U /\ Forall (fun c => c ∈ LOWER) L
    /\ Forall (fun c => c ∈ NUMS) N.
Proof.
  eexists _, _, _. split; [vm_compute; reflexivity|].
  split; [|split];
    (eapply forallb_Forall;
     [intros c Hc; apply includes_elem_of; exact Hc|vm_compute; reflexivity]).
Qed.

(** A record returned by [generateMasterPassword] has no error field; its
    password has [12] characters, all of them unambiguous letters or digits,
    among them an upper-case letter, a lower-case letter and a digit; or it
    is empty, which takes a random source that throws. *)
Theorem generateMasterPassword_shape (math : MathLib)
    (crypto : RandomSource) (fuel : nat) (s : rstate)
    (r : GenerationResult) (s' : rstate) :
  generateMasterPassword math crypto fuel s = Ret r s' ->
  error r = None
  /\ (password r = [] /\ ~ reliable crypto
      \/ length (password r) = 12%nat
         /\ Forall (fun c => (c ∈ UPPER \/ c ∈ LOWER \/ c ∈ NUMS)
                             /\ c ∉ AMBIGUOUS) (password r)
         /\ (exists c, c ∈ password r /\ c ∈ UPPER)
         /\ (exists c, c ∈ password r /\ c ∈ LOWER)
         /\ (exists c, c ∈ password r /\ c ∈ NUMS)).
Proof.
  unfold generateMasterPassword. intros Hrun.
  pose proof (generatePassword_generated _ _ _ _ _ _ _ Hrun) as Hgen.
  unfold generated in Hgen.
  destruct (error r) as [[|required]|] eqn:Herr.
  { vm_compute in Hgen. discriminate. }
  { destruct Hgen as [_ Hlt]. vm_compute in Hlt. discriminate. }
  split; [reflexivity|].
  destruct Hgen as [_ [a [Ha Hd]]].
  apply delivered_password in Hd. rewrite <- Ha in Hd.
  destruct Hd as [Hd|[Hl Hcov]]; [left; exact Hd|right].
  split; [rewrite Hl; reflexivity|].
  split.
  - pose proof (generatePassword_pool _ _ _ _ _ _ _ Hrun Herr) as Hpool.
    apply Forall_forall. intros c Hc.
    eapply Forall_forall in Hpool; [|exact Hc].
    pose proof masterOptions_pool as Hm.
    eapply Forall_forall in Hm; [exact Hm|exact Hpool].
  - specialize (Hcov eq_refl).
    destruct masterOptions_classes as [U [L [N [E [HU [HL HN]]]]]].
    rewrite E in Hcov.
    inversion Hcov as [|? ? [cu [Hcu1 Hcu2]] Hcov1]; subst.
    inversion Hcov1 as [|? ? [cl [Hcl1 Hcl2]] Hcov2]; subst.
    inversion Hcov2 as [|? ? [cn [Hcn1 Hcn2]] _]; subst.
    split; [|split].
    + exists cu. split; [exact Hcu1|].
      eapply Forall_forall in HU; [exact HU|exact Hcu2].
    + exists cl. split; [exact Hcl1|].
      eapply Forall_forall in HL; [exact HL|exact Hcl2].
    + exists cn. split; [exact Hcn1|].
      eapply Forall_forall in HN; [exact HN|exact Hcn2].
Qed.

Lemma generateMasterPassword_shape_witness :
  match generateMasterPassword integerMath lcgSource 10 initial_state with
  | Ret r _ => error r = None /\ length (password r) = 12%nat
  | _ => False
  end.
Proof.
  destruct (generateMasterPassword integerMath lcgSource 10 initial_state)
    as [r s'|e s'|s'] eqn:Hrun;
    [|vm_compute in Hrun; discriminate|vm_compute in Hrun; discriminate].
  destruct (generateMasterPassword_shape integerMath lcgSource 10
              initial_state r s' Hrun) as [He [[_ Hnr]|[Hl _]]].
  - destruct (Hnr lcgSource_reliable).
  - split; assumption.
Defined.

(** ** How many valid sequences there are *)

Lemma all_seqs_length {A : Type} (pool : list A) :
  forall (n : nat) (s : list A), In s (all_seqs n pool) -> length s = n.
Proof.
  induction n as [|n IH]; intros s Hs; simpl in Hs.
  - destruct Hs as [<-|[]]. reflexivity.
  - apply in_flat_map in Hs as [a [_ Hs]].
    apply in_map_iff in Hs as [t [<- Ht]]. simpl. f_equal. apply IH. exact Ht.
Qed.

Lemma all_seqs_complete {A : Type} (pool : list A) :
  forall (s : list A),
    List.Forall (fun a => In a pool) s -> In s (all_seqs (length s) pool).
Proof.
  induction 1 as [|a s Ha _ IH]; simpl; [left; reflexivity|].
  apply in_flat_map. exists a. split; [exact Ha|].
  apply in_map. exact IH.
Qed.

Lemma length_flat_map_cons {A : Type} (pool : list A) (X : list (list A)) :
  length (flat_map (fun a => map (cons a) X) pool)
  = (length pool * length X)%nat.
Proof.
  induction pool as [|a pool IHp]; simpl; [reflexivity|].
  rewrite length_app, length_map, IHp. reflexivity.
Qed.

Lemma length_all_seqs {A : Type} (pool : list A) (n : nat) :
  Z.of_nat (length (all_seqs n pool)) = Z.of_nat (length pool) ^ Z.of_nat n.
Proof.
  induction n as [|n IH]; [reflexivity|].
  rewrite Nat2Z.inj_succ, Z.pow_succ_r by lia. rewrite <- IH.
  cbn [all_seqs]. rewrite length_flat_map_cons. lia.
Qed.

Lemma length_concat_sizes {A : Type} (classes : list (list A)) :
  Z.of_nat (length (concat classes)) = sum_list (class_sizes classes).
Proof.
  induction classes as [|cls classes IH]; [reflexivity|].
  cbn [concat]. rewrite length_app. unfold class_sizes in *.
  cbn [map]. rewrite sum_list_cons. lia.
Qed.

Lemma tagged_class_lookup (sizes : list Z) (c : nat) (cls : list (nat * nat)) :
  tagged_classes sizes !! c = Some cls ->
  exists size, sizes !! c = Some size
               /\ cls = map (pair c) (seq 0 (Z.to_nat size)).
Proof.
  unfold tagged_classes. rewrite list_lookup_imap.
  destruct (sizes !! c) as [size|]; simpl; [|discriminate].
  intros H. inversion H. exists size. split; reflexivity.
Qed.

Lemma hits_spec {A : Type} `{EqDecision A} (s cls : list A) :
  hits s cls = true <-> exists ch, ch ∈ s /\ ch ∈ cls.
Proof.
  unfold hits. rewrite existsb_exists. split.
  - intros [ch [H1 H2]]. exists ch. split; [apply list_elem_of_In; exact H1|].
    apply bool_decide_eq_true in H2. exact H2.
  - intros [ch [H1 H2]]. exists ch. split; [apply list_elem_of_In; exact H1|].
    apply bool_decide_eq_true. exact H2.
Qed.

Lemma covers_all_tags (sizes : list Z) (s : list (nat * nat)) :
  covers_all (tagged_classes sizes) s = true ->
  (length sizes <= length s)%nat /\ Forall (fun x => 0 < x) sizes.
Proof.
  unfold covers_all. intros H.
  assert (Hc : forall c size, sizes !! c = Some size ->
                 0 < size /\ In c (map fst s)).
  { intros c size Hs.
    assert (Hl : tagged_classes sizes !! c
                 = Some (map (pair c) (seq 0 (Z.to_nat size)))).
    { unfold tagged_classes. rewrite list_lookup_imap, Hs. reflexivity. }
    eapply forallb_forall in H;
      [|apply list_elem_of_In, list_elem_of_lookup; eexists; exact Hl].
    apply hits_spec in H as [ch [H1 H2]].
    apply list_elem_of_In, in_map_iff in H2 as [j [<- Hj]].
    apply in_seq in Hj. split; [lia|].
    apply in_map_iff. exists (c, j). split; [reflexivity|].
    apply list_elem_of_In. exact H1. }
  split.
  - rewrite <- (length_map fst s), <- (length_seq (length sizes) 0).
    apply NoDup_incl_length; [apply seq_NoDup|].
    intros c Hin. apply in_seq in Hin.
    destruct (lookup_lt_is_Some_2 sizes c ltac:(lia)) as [size Hs].
    apply (Hc c size Hs).
  - apply Forall_forall. intros x Hx.
    apply list_elem_of_lookup in Hx as [c Hs]. apply (Hc c x Hs).
Qed.

Lemma covering_sequence (sizes : list Z) (n : nat) :
  sizes <> [] -> Forall (fun x => 0 < x) sizes ->
  exists s : list (nat * nat),
    length s = (length sizes + n)%nat
    /\ List.Forall (fun a => In a (concat (tagged_classes sizes))) s
    /\ covers_all (tagged_classes sizes) s = true.
Proof.
  intros Hne Hpos.
  set (s := map (fun c => (c, 0%nat)) (seq 0 (length sizes))
            ++ replicate n (0%nat, 0%nat)).
  assert (Hin : forall c, (c < length sizes)%nat ->
                  exists cls, tagged_classes sizes !! c = Some cls
                              /\ (c, 0%nat) ∈ cls).
  { intros c Hc.
    destruct (lookup_lt_is_Some_2 sizes c Hc) as [size Hs].
    exists (map (pair c) (seq 0 (Z.to_nat size))). split.
    - unfold tagged_classes. rewrite list_lookup_imap, Hs. reflexivity.
    - apply list_elem_of_In, in_map, in_seq.
      eapply Forall_lookup_1 in Hpos; [|exact Hs]. simpl in Hpos. lia. }
  assert (Hpool : forall c, (c < length sizes)%nat ->
                    In (c, 0%nat) (concat (tagged_classes sizes))).
  { intros c Hc. destruct (Hin c Hc) as [cls [H1 H2]].
    apply in_concat. exists cls. split.
    - apply list_elem_of_In, list_elem_of_lookup. eexists; exact H1.
    - apply list_elem_of_In. exact H2. }
  assert (H0 : (0 < length sizes)%nat)
    by (destruct sizes; [congruence|simpl; lia]).
  exists s. split; [|split].
  - subst s. rewrite length_app, length_map, length_seq, length_replicate.
    reflexivity.
  - subst s. apply List.Forall_app. split.
    + apply List.Forall_forall. intros a Ha.
      apply in_map_iff in Ha as [c [<- Hc]]. apply in_seq in Hc.
      apply Hpool. lia.
    + apply List.Forall_forall. intros a Ha.
      apply list_elem_of_In, elem_of_replicate in Ha as [-> _].
      apply Hpool. exact H0.
  - unfold covers_all. apply forallb_forall. intros cls Hcls.
    apply list_elem_of_In, list_elem_of_lookup in Hcls as [c Hc].
    pose proof (lookup_lt_Some _ _ _ Hc) as Hlt.
    unfold tagged_classes in Hlt. rewrite length_imap in Hlt.
    destruct (Hin c Hlt) as [cls' [H1 H2]].
    rewrite Hc in H1. inversion H1; subst cls'.
    apply hits_spec. exists (c, 0%nat). split; [|exact H2].
    subst s. apply elem_of_app. left.
    apply list_elem_of_In, in_map_iff. exists c. split; [reflexivity|].
    apply in_seq. lia.
Qed.

Lemma valid_count_facts (L : Z) (sizes : list Z) :
  0 <= L -> Forall (fun x => 0 <= x) sizes ->
  0 <= inclusion_exclusion L sizes <= sum_list sizes ^ L
  /\ (L < Z.of_nat (length sizes) -> inclusion_exclusion L sizes = 0)
  /\ (sizes <> [] ->
      (0 < inclusion_exclusion L sizes
       <-> Z.of_nat (length sizes) <= L /\ Forall (fun x => 0 < x) sizes)).
Proof.
  intros HL Hnn.
  rewrite inclusion_exclusion_count by assumption.
  set (classes := tagged_classes sizes).
  set (all := all_seqs (Z.to_nat L) (concat classes)).
  assert (Hall : Z.of_nat (length all) = sum_list sizes ^ L).
  { subst all. rewrite length_all_seqs, length_concat_sizes.
    subst classes. rewrite tagged_classes_sizes, Z2Nat.id by assumption.
    reflexivity. }
  assert (Hmem : forall s, In s (List.filter (covers_all classes) all) ->
                   Z.of_nat (length sizes) <= L
                   /\ Forall (fun x => 0 < x) sizes).
  { intros s Hs. apply List.filter_In in Hs as [Hs Hc].
    apply all_seqs_length in Hs.
    apply covers_all_tags in Hc as [H1 H2]. split; [lia|exact H2]. }
  split; [|split].
  - pose proof (List.filter_length_le (covers_all classes) all). lia.
  - intros Hlt.
    destruct (List.filter (covers_all classes) all) as [|s l] eqn:E;
      [reflexivity|].
    destruct (Hmem s ltac:(left; reflexivity)). lia.
  - intros Hne. split.
    + intros Hpos.
      destruct (List.filter (covers_all classes) all) as [|s l] eqn:E;
        [simpl in Hpos; lia|].
      apply (Hmem s). left. reflexivity.
    + intros [Hk Hp].
      destruct (covering_sequence sizes (Z.to_nat L - length sizes) Hne Hp)
        as [s [Hl [Hin Hc]]].
      assert (Hs : In s (List.filter (covers_all classes) all)).
      { apply List.filter_In. split; [|exact Hc].
        subst all. replace (Z.to_nat L) with (length s) by lia.
        apply all_seqs_complete. exact Hin. }
      destruct (List.filter (covers_all classes) all); [destruct Hs|].
      simpl. lia.
Qed.

(** For a non-negative length and non-negative sizes,
    [countValidSequences] returns a count between [0] and [N^L], where [N]
    is the sum of the sizes; the count is [0] when there are fewer positions
    than classes; and, when there is a class, it is positive exactly when
    there are at least as many positions as classes and no class is
    empty. *)
Theorem countValidSequences_bounds (L : Z) (sizes : list Z) :
  0 <= L -> Forall (fun x => 0 <= x) sizes ->
  exists T,
    countValidSequences L sizes = Ok T
    /\ 0 <= T <= sum_list sizes ^ L
    /\ (L < Z.of_nat (length sizes) -> T = 0)
    /\ (sizes <> [] ->
        (0 < T
         <-> Z.of_nat (length sizes) <= L /\ Forall (fun x => 0 < x) sizes)).
Proof.
  intros HL Hnn. exists (inclusion_exclusion L sizes). split.
  - rewrite inclusion_exclusion_pie. apply countValidSequences_pie; assumption.
  - apply valid_count_facts; assumption.
Qed.

Lemma countValidSequences_bounds_witness :
  (0 <= 3 /\ Forall (fun x => 0 <= x) [26; 26; 10; 32])
  /\ exists T,
       countValidSequences 3 [26; 26; 10; 32] = Ok T
       /\ 0 <= T <= sum_list [26; 26; 10; 32] ^ 3
       /\ (3 < Z.of_nat (length [26; 26; 10; 32]) -> T = 0)
       /\ ([26; 26; 10; 32] <> [] ->
           (0 < T
            <-> Z.of_nat (length [26; 26; 10; 32]) <= 3
                /\ Forall (fun x => 0 < x) [26; 26; 10; 32])).
Proof.
  assert (H3 : 0 <= 3) by lia.
  assert (Hs : Forall (fun x => 0 <= x) [26; 26; 10; 32])
    by (repeat constructor; lia).
  split; [split; assumption|].
  exact (countValidSequences_bounds 3 [26; 26; 10; 32] H3 Hs).
Defined.

(** ** The recurrence behind the unranking *)

Lemma lor_bit_bound (mask : Z) (c k : nat) :
  (c < k)%nat -> 0 <= mask < 2 ^ Z.of_nat k ->
  0 <= Z.lor mask (2 ^ Z.of_nat c) < 2 ^ Z.of_nat k.
Proof.
  intros Hc Hm.
  assert (Hp : 0 < 2 ^ Z.of_nat c) by (apply Z.pow_pos_nonneg; lia).
  assert (Hnn : 0 <= Z.lor mask (2 ^ Z.of_nat c)) by (apply Z.lor_nonneg; lia).
  split; [exact Hnn|].
  assert (Hpos : 0 < Z.lor mask (2 ^ Z.of_nat c)).
  { destruct (Z.eq_dec (Z.lor mask (2 ^ Z.of_nat c)) 0) as [E|]; [|lia].
    apply Z.lor_eq_0_iff in E. lia. }
  apply Z.log2_lt_pow2; [exact Hpos|].
  rewrite Z.log2_lor by lia.
  rewrite Z.log2_pow2 by lia.
  destruct (Z.eq_dec mask 0) as [->|Hm0].
  - change (Z.log2 0) with 0. lia.
  - assert (Z.log2 mask < Z.of_nat k) by (apply Z.log2_lt_pow2; lia). lia.
Qed.

Lemma js_or_bit (mask : Z) (c k : nat) :
  (k <= 30)%nat -> (c < k)%nat -> 0 <= mask < 2 ^ Z.of_nat k ->
  js_or mask (js_shl 1 (Z.of_nat c)) = Z.lor mask (2 ^ Z.of_nat c).
Proof.
  intros Hk Hc Hm.
  pose proof (lor_bit_bound mask c k Hc Hm) as Hb.
  pose proof (pow2_lt_31 k Hk) as Hk31.
  pose proof (pow2_lt_31 c ltac:(lia)) as Hc31.
  rewrite js_shl_1 by lia. unfold js_or.
  rewrite (ToInt32_small mask), (ToInt32_small (2 ^ Z.of_nat c)) by lia.
  apply ToInt32_small. lia.
Qed.

Lemma needed_classes_or (sizes : list Z) (mask : Z) (c : nat) :
  needed_classes sizes (Z.lor mask (2 ^ Z.of_nat c))
  = satisfy c (needed_classes sizes mask).
Proof.
  unfold needed_classes, satisfy. apply list_eq. intros i.
  rewrite list_lookup_imap.
  destruct (Nat.eq_dec i c) as [->|Hne].
  - rewrite list_lookup_alter_eq, list_lookup_imap.
    destruct (sizes !! c); simpl; [|reflexivity].
    rewrite Z.lor_spec, Z.pow2_bits_eqb, Z.eqb_refl, orb_true_r by lia.
    reflexivity.
  - rewrite list_lookup_alter_ne, list_lookup_imap by congruence.
    destruct (sizes !! i); simpl; [|reflexivity].
    rewrite Z.lor_spec, Z.pow2_bits_eqb by lia.
    assert (E : (Z.of_nat c =? Z.of_nat i) = false) by (apply Z.eqb_neq; lia).
    rewrite E, orb_false_r. reflexivity.
Qed.

Lemma map_fst_needed_classes (sizes : list Z) (mask : Z) :
  map fst (needed_classes sizes mask) = sizes.
Proof.
  unfold needed_classes. apply list_eq. intros i.
  rewrite map_fmap, list_lookup_fmap, list_lookup_imap.
  destruct (sizes !! i); reflexivity.
Qed.

Lemma sum_list_imap_zip (sizes : list Z) (f : nat -> Z) :
  forall (start : nat),
    sum_list (imap (fun c s => s * f (start + c)%nat) sizes)
    = sum_list (zip_with Z.mul sizes (map f (seq start (length sizes)))).
Proof.
  induction sizes as [|s sizes IH]; intros start; [reflexivity|].
  cbn [imap length seq map zip_with]. rewrite !sum_list_cons.
  rewrite Nat.add_0_r. f_equal.
  rewrite <- IH. f_equal. apply imap_ext. intros i x _. simpl.
  f_equal. f_equal. lia.
Qed.

Lemma remaining_count_succ (R : Z) (sizes : list Z) (mask : Z) :
  0 <= R ->
  remaining_count (R + 1) sizes mask
  = sum_list
      (zip_with Z.mul sizes
         (map (fun c => remaining_count R sizes
                          (Z.lor mask (2 ^ Z.of_nat c)))
            (seq 0 (length sizes)))).
Proof.
  intros HR. unfold remaining_count at 1.
  rewrite pie_succ by exact HR.
  rewrite map_fst_needed_classes, Z.sub_diag, Z.mul_0_l, Z.add_0_l.
  rewrite <- (sum_list_imap_zip sizes
                (fun c => remaining_count R sizes
                            (Z.lor mask (2 ^ Z.of_nat c))) 0).
  f_equal. apply list_eq. intros i.
  rewrite !list_lookup_imap.
  assert (E : needed_classes sizes mask !! i
              = (fun s => (s, negb (Z.testbit mask (Z.of_nat i))))
                  <$> sizes !! i).
  { unfold needed_classes. apply list_lookup_imap. }
  rewrite E.
  destruct (sizes !! i) as [s|]; simpl; [|reflexivity].
  unfold remaining_count. rewrite needed_classes_or. reflexivity.
Qed.

(** For at most [30] classes, a mask in range and non-negative arguments:
    the count for [remLen + 1] further positions is the sum over the classes
    [c] of [sizes[c]] times the count for [remLen] positions once the bit of
    [c] is set in the mask — the blocks into which the unranking loop splits
    the ranks. *)
Theorem countRemaining_recurrence (R : Z) (sizes : list Z) (mask : Z) :
  0 <= R -> Forall (fun x => 0 <= x) sizes -> (length sizes <= 30)%nat ->
  0 <= mask < 2 ^ Z.of_nat (length sizes) ->
  exists ways,
    Forall2
      (fun c w =>
         countRemaining R sizes
           (ANum (js_or mask (js_shl 1 (Z.of_nat c)))) = Ok w)
      (seq 0 (length sizes)) ways
    /\ countRemaining (R + 1) sizes (ANum mask)
       = Ok (sum_list (zip_with Z.mul sizes ways)).
Proof.
  intros HR Hnn Hk Hmask.
  exists (map (fun c => remaining_count R sizes (Z.lor mask (2 ^ Z.of_nat c)))
            (seq 0 (length sizes))).
  split.
  - apply Forall2_fmap_r. apply Forall_Forall2_diag.
    apply Forall_forall. intros c Hc.
    apply list_elem_of_In, in_seq in Hc.
    rewrite (js_or_bit mask c (length sizes)) by (assumption || lia).
    apply countRemaining_spec; try assumption.
    apply lor_bit_bound; [lia|exact Hmask].
  - rewrite countRemaining_spec by (assumption || lia).
    rewrite remaining_count_succ by exact HR. reflexivity.
Qed.

Lemma countRemaining_recurrence_witness :
  (0 <= 2 /\ Forall (fun x => 0 <= x) [2; 3] /\ (length [2; 3] <= 30)%nat
   /\ 0 <= 1 < 2 ^ Z.of_nat (length [2; 3]))
  /\ exists ways,
       Forall2
         (fun c w =>
            countRemaining 2 [2; 3]
              (ANum (js_or 1 (js_shl 1 (Z.of_nat c)))) = Ok w)
         (seq 0 (length [2; 3])) ways
       /\ countRemaining (2 + 1) [2; 3] (ANum 1)
          = Ok (sum_list (zip_with Z.mul [2; 3] ways)).
Proof.
  assert (H2 : 0 <= 2) by lia.
  assert (Hs : Forall (fun x => 0 <= x) [2; 3]) by (repeat constructor; lia).
  assert (Hk : (length [2; 3] <= 30)%nat) by (simpl; lia).
  assert (Hm : 0 <= 1 < 2 ^ Z.of_nat (length [2; 3])) by (simpl; lia).
  split; [repeat split; assumption || lia|].
  exact (countRemaining_recurrence 2 [2; 3] 1 H2 Hs Hk Hm).
Defined.

(** ** What [countRemaining] rejects *)

Lemma js_and_0_l (x : Z) : js_and 0 x = 0.
Proof.
  unfold js_and. replace (ToInt32 0) with 0 by reflexivity.
  rewrite Z.land_0_l. reflexivity.
Qed.

Lemma missingOf_zero (sizes : list Z) : missingOf sizes 0 = (0, 0).
Proof.
  unfold missingOf. generalize (seq 0 (length sizes)) as l.
  induction l as [|i l IH]; [reflexivity|].
  cbn [fold_left]. rewrite js_and_0_l. exact IH.
Qed.

Lemma existsb_neg_true (sizes : list Z) :
  Exists (fun x => x < 0) sizes -> existsb (fun x => x <? 0) sizes = true.
Proof.
  intros H. apply Exists_exists in H as [x [Hx Hlt]].
  apply existsb_exists. exists x.
  split; [apply list_elem_of_In; exact Hx|apply Z.ltb_lt; exact Hlt].
Qed.

(** [countRemaining] throws [RangeError] on a negative [remLen], on a
    negative size, on a mask that is not an integer (an array), and, for at
    most [30] classes, on a mask outside [[0, 2^k)].  With [31] classes
    [(1 << 31) - 1] is negative and every mask is rejected.  With [32]
    classes [1 << 32] is [1]: the only mask accepted is [0], for which the
    function returns [N^remLen], as if no class were required. *)
Theorem countRemaining_rejects (R : Z) (sizes : list Z) :
  (forall m, R < 0 -> countRemaining R sizes m = Throw RangeError)
  /\ (forall m,
         Exists (fun x => x < 0) sizes ->
         countRemaining R sizes m = Throw RangeError)
  /\ (forall arr, countRemaining R sizes (AArray arr) = Throw RangeError)
  /\ ((length sizes <= 30)%nat ->
      forall mask,
        mask < 0 \/ 2 ^ Z.of_nat (length sizes) <= mask ->
        countRemaining R sizes (ANum mask) = Throw RangeError)
  /\ (length sizes = 31%nat ->
      forall mask, countRemaining R sizes (ANum mask) = Throw RangeError)
  /\ (length sizes = 32%nat ->
      (forall mask,
          mask <> 0 -> countRemaining R sizes (ANum mask) = Throw RangeError)
      /\ (0 <= R -> Forall (fun x => 0 <= x) sizes ->
          countRemaining R sizes (ANum 0) = Ok (sum_list sizes ^ R))).
Proof.
  unfold countRemaining.
  split; [|split; [|split; [|split; [|split]]]].
  - intros m HR.
    assert (E : (R <? 0) = true) by (apply Z.ltb_lt; exact HR).
    rewrite E. reflexivity.
  - intros m Hneg. rewrite (existsb_neg_true _ Hneg).
    destruct (R <? 0); reflexivity.
  - intros arr. destruct (R <? 0); [reflexivity|].
    destruct (existsb _ sizes); reflexivity.
  - intros Hk mask Hmask.
    destruct (R <? 0); [reflexivity|].
    destruct (existsb _ sizes); [reflexivity|].
    rewrite js_shl_1 by lia.
    assert (E : (mask <? 0) || (2 ^ Z.of_nat (length sizes) - 1 <? mask)
                = true).
    { apply orb_true_iff. destruct Hmask; [left|right]; apply Z.ltb_lt; lia. }
    rewrite E. reflexivity.
  - intros Hk mask. rewrite Hk.
    destruct (R <? 0); [reflexivity|].
    destruct (existsb _ sizes); [reflexivity|].
    change (js_shl 1 (Z.of_nat 31) - 1) with (- 2 ^ 31 - 1).
    assert (E : (mask <? 0) || (- 2 ^ 31 - 1 <? mask) = true).
    { apply orb_true_iff. destruct (Z.ltb_spec mask 0); [left; reflexivity|].
      right. apply Z.ltb_lt. lia. }
    rewrite E. reflexivity.
  - intros Hk. rewrite Hk.
    change (js_shl 1 (Z.of_nat 32) - 1) with 0. split.
    + intros mask Hmask.
      destruct (R <? 0); [reflexivity|].
      destruct (existsb _ sizes); [reflexivity|].
      assert (E : (mask <? 0) || (0 <? mask) = true).
      { apply orb_true_iff. destruct (Z.ltb_spec mask 0); [left; reflexivity|].
        right. apply Z.ltb_lt. lia. }
      rewrite E. reflexivity.
    + intros HR Hnn.
      assert (E : (R <? 0) = false) by (apply Z.ltb_ge; exact HR).
      rewrite E, (existsb_neg_false _ Hnn).
      change ((0 <? 0) || (0 <? 0)) with false. cbv iota.
      change (js_xor 0 0) with 0. change (Z.to_nat 0) with 0%nat.
      cbn [submaskLoop]. rewrite missingOf_zero. cbv iota beta.
      rewrite Z.sub_0_r, reduce_sum_sum_list.
      assert (E2 : (sum_list sizes <? 0) = false).
      { apply Z.ltb_ge. apply sum_list_nonneg. exact Hnn. }
      rewrite E2. reflexivity.
Qed.

(** ** The entropy of the guaranteed-inclusion sampler *)

Lemma SFltb_zero_asym (x : spec_float) :
  SFltb (S754_zero false) x = true -> SFltb x (S754_zero false) = false.
Proof.
  destruct x as [[|]|[|]| |[|] m e]; simpl; intros H;
    try discriminate H; reflexivity.
Qed.

Lemma Math_max_0_not_below (x : float) :
  PrimFloat.ltb (Math_max 0%float x) 0%float = false.
Proof.
  unfold Math_max.
  replace (PrimFloat.is_nan 0%float) with false by reflexivity.
  destruct (PrimFloat.is_nan x) eqn:Hnan.
  - rewrite FloatAxioms.ltb_spec. unfold PrimFloat.is_nan in Hnan.
    rewrite FloatAxioms.eqb_spec in Hnan.
    destruct (Prim2SF x) as [[|]|[|]| |[|] m e]; try reflexivity;
      exfalso; unfold SFeqb, SFcompare in Hnan;
      rewrite ?Z.compare_refl, ?Pos.compare_cont_refl in Hnan;
      discriminate Hnan.
  - destruct (PrimFloat.ltb 0%float x) eqn:Hlt.
    + rewrite FloatAxioms.ltb_spec in *.
      replace (Prim2SF 0%float) with (S754_zero false) in * by reflexivity.
      apply SFltb_zero_asym. exact Hlt.
    + replace (get_sign 0%float) with false by reflexivity.
      rewrite andb_false_r. reflexivity.
Qed.

(** Whatever the [Math] functions return,
    [calculateShannonEntropyGuaranteed] never returns a value below zero (a
    number that is not negative, or [NaN]); and it returns [0] when there is
    no class, when the sizes sum to [0] or less, when [L] is below the
    number of classes, or when a size is [0] or less. *)
Theorem calculateShannonEntropyGuaranteed_not_negative (math : MathLib)
    (L : Z) (sizes : list Z) :
  PrimFloat.ltb (calculateShannonEntropyGuaranteed math L sizes) 0%float
  = false
  /\ (sizes = [] \/ sum_list sizes <= 0 \/ L < Z.of_nat (length sizes)
      \/ Exists (fun s => s <= 0) sizes ->
      calculateShannonEntropyGuaranteed math L sizes = 0%float).
Proof.
  unfold calculateShannonEntropyGuaranteed.
  rewrite reduce_sum_sum_list.
  destruct ((Z.of_nat (length sizes) =? 0) || (sum_list sizes <=? 0)
            || (L <? Z.of_nat (length sizes))) eqn:E1.
  { split; reflexivity. }
  destruct (L <? 0) eqn:E2; [split; reflexivity|].
  destruct (existsb (fun s => s <=? 0) sizes) eqn:E3; [split; reflexivity|].
  split; [apply Math_max_0_not_below|].
  intros H. exfalso.
  apply orb_false_iff in E1 as [E1 E1c].
  apply orb_false_iff in E1 as [E1a E1b].
  apply Z.eqb_neq in E1a. apply Z.leb_gt in E1b. apply Z.ltb_ge in E1c.
  destruct H as [->|[H|[H|H]]]; [simpl in E1a; lia|lia|lia|].
  apply Exists_exists in H as [x [Hx Hle]].
  assert (existsb (fun s => s <=? 0) sizes = true); [|congruence].
  apply existsb_exists. exists x.
  split; [apply list_elem_of_In; exact Hx|apply Z.leb_le; exact Hle].
Qed.

(** ** [escapeHtml] *)

Lemma replaceAll_app (p : N) (r s t : ustring) :
  replaceAll p r (s ++ t) = replaceAll p r s ++ replaceAll p r t.
Proof. unfold replaceAll. apply flat_map_app. Qed.

Lemma escapeHtml_units (v : jsvalue) :
  escapeHtml v = flat_map escapeUnit (text_of v).
Proof.
  unfold escapeHtml. induction (text_of v) as [|c s IH]; [reflexivity|].
  change (c :: s) with ([c] ++ s).
  rewrite !replaceAll_app, IH. cbn [flat_map]. f_equal.
  unfold escapeUnit.
  destruct (N.eqb_spec c 38) as [->|H38]; [reflexivity|].
  destruct (N.eqb_spec c 60) as [->|H60]; [reflexivity|].
  destruct (N.eqb_spec c 62) as [->|H62]; [reflexivity|].
  destruct (N.eqb_spec c 34) as [->|H34]; [reflexivity|].
  destruct (N.eqb_spec c 39) as [->|H39]; [reflexivity|].
  unfold replaceAll. cbn [flat_map app].
  repeat match goal with
         | |- context [N.eqb c ?k] =>
           let E := fresh in
           assert (E : N.eqb c k = false) by (apply N.eqb_neq; assumption);
           rewrite E; clear E; cbn [flat_map app]
         end.
  reflexivity.
Qed.

Lemma escapeUnit_cases (c : N) :
  (c = 38%N \/ c = 60%N \/ c = 62%N \/ c = 34%N \/ c = 39%N)
  \/ (escapeUnit c = [c] /\ c <> 38%N /\ c <> 60%N /\ c <> 62%N
      /\ c <> 34%N /\ c <> 39%N).
Proof.
  unfold escapeUnit.
  destruct (N.eqb_spec c 38); [auto|].
  destruct (N.eqb_spec c 60); [auto|].
  destruct (N.eqb_spec c 62); [auto 6|].
  destruct (N.eqb_spec c 34); [auto 6|].
  destruct (N.eqb_spec c 39); [auto 7|].
  right. auto 7.
Qed.

Lemma escapeUnit_inj (c d : N) (s t : ustring) :
  escapeUnit c ++ s = escapeUnit d ++ t -> c = d /\ s = t.
Proof.
  destruct (escapeUnit_cases c) as [Hc|[Ec Hc]];
    destruct (escapeUnit_cases d) as [Hd|[Ed Hd]].
  - destruct Hc as [->|[->|[->|[->| ->]]]];
      destruct Hd as [->|[->|[->|[->| ->]]]];
      vm_compute; intros H; inversion H; split; reflexivity.
  - rewrite Ed. destruct Hc as [->|[->|[->|[->| ->]]]];
      vm_compute; intros H; inversion H; subst; exfalso; tauto.
  - rewrite Ec. destruct Hd as [->|[->|[->|[->| ->]]]];
      vm_compute; intros H; inversion H; subst; exfalso; tauto.
  - rewrite Ec, Ed. intros H. inversion H. split; reflexivity.
Qed.

Lemma flat_map_escapeUnit_inj (s t : ustring) :
  flat_map escapeUnit s = flat_map escapeUnit t -> s = t.
Proof.
  revert t. induction s as [|c s IH]; intros [|d t]; cbn [flat_map].
  - reflexivity.
  - intros H. exfalso. symmetry in H. apply app_eq_nil in H as [H _].
    destruct (escapeUnit_cases d) as [Hd|[Ed _]].
    + destruct Hd as [->|[->|[->|[->| ->]]]]; vm_compute in H; discriminate.
    + rewrite Ed in H. discriminate.
  - intros H. exfalso. apply app_eq_nil in H as [H _].
    destruct (escapeUnit_cases c) as [Hc|[Ec _]].
    + destruct Hc as [->|[->|[->|[->| ->]]]]; vm_compute in H; discriminate.
    + rewrite Ec in H. discriminate.
  - intros H. apply escapeUnit_inj in H as [-> H]. f_equal. apply IH. exact H.
Qed.

Lemma escapeUnit_safe (c : N) :
  Forall (fun x => x <> 60%N /\ x <> 62%N /\ x <> 34%N /\ x <> 39%N)
    (escapeUnit c).
Proof.
  destruct (escapeUnit_cases c) as [Hc|[Ec Hc]].
  - destruct Hc as [->|[->|[->|[->| ->]]]]; vm_compute;
      repeat constructor; discriminate.
  - rewrite Ec. repeat constructor; tauto.
Qed.

(** [escapeHtml] rewrites each code unit on its own: the five passes of
    [replaceAll] amount to one, so an entity it writes is never escaped
    again, and it distributes over concatenation.  Its result holds none of
    [<], [>], the double quote and the apostrophe.  It loses nothing: two
    texts with the same result are equal.  [escapeAttr] moreover leaves no
    line feed. *)
Theorem escapeHtml_safe :
  (forall v, escapeHtml v = flat_map escapeUnit (text_of v))
  /\ (forall s t,
         escapeHtml (VStr (s ++ t))
         = escapeHtml (VStr s) ++ escapeHtml (VStr t))
  /\ (forall v,
         Forall (fun x => x <> 60%N /\ x <> 62%N /\ x <> 34%N /\ x <> 39%N)
           (escapeHtml v))
  /\ (forall v w, escapeHtml v = escapeHtml w -> text_of v = text_of w)
  /\ (forall v,
         Forall (fun x => x <> 60%N /\ x <> 62%N /\ x <> 34%N /\ x <> 39%N
                          /\ x <> 10%N)
           (escapeAttr v)).
Proof.
  split; [exact escapeHtml_units|].
  split.
  { intros s t. rewrite !escapeHtml_units. cbn [text_of]. apply flat_map_app. }
  assert (Hsafe : forall v,
             Forall (fun x => x <> 60%N /\ x <> 62%N /\ x <> 34%N
                              /\ x <> 39%N) (escapeHtml v)).
  { intros v. rewrite escapeHtml_units.
    induction (text_of v) as [|c s IH]; cbn [flat_map]; [constructor|].
    apply Forall_app. split; [apply escapeUnit_safe|exact IH]. }
  split; [exact Hsafe|]. split.
  - intros v w. rewrite !escapeHtml_units. apply flat_map_escapeUnit_inj.
  - intros v. unfold escapeAttr. specialize (Hsafe v).
    induction Hsafe as [|x l Hx _ IH]; [constructor|].
    unfold replaceAll. cbn [flat_map]. apply Forall_app. split; [|exact IH].
    destruct (N.eqb_spec x 10) as [->|Hne].
    + vm_compute. repeat constructor; discriminate.
    + repeat constructor; tauto.
Qed.

(** ** [isTooSimple] *)

Lemma runOfThree_spec (a b c : N) :
  runOfThree (Some (Z.of_N a)) (Some (Z.of_N b)) (Some (Z.of_N c)) = true
  <-> simple_run a b c.
Proof.
  unfold runOfThree, simple_run, num_eq. cbn [fmap option_fmap option_map].
  rewrite !orb_true_iff, !andb_true_iff, !Z.eqb_eq. split.
  - intros [[H|H]|H]; [left; lia|right; left; lia|right; right; lia].
  - intros [H|[H|[-> ->]]]; [left; left; lia|left; right; lia|right; lia].
Qed.

Lemma simpleLoop_spec (str : ustring) (indices : list nat) :
  simpleLoop str indices = true
  <-> exists i, In i indices
                /\ runOfThree (charCodeAt str i) (charCodeAt str (i + 1))
                     (charCodeAt str (i + 2)) = true.
Proof.
  induction indices as [|i rest IH]; simpl.
  - split; [discriminate|intros [i [[] _]]].
  - destruct (runOfThree _ _ _) eqn:E.
    + split; [intros _; exists i; auto|reflexivity].
    + rewrite IH. split.
      * intros [j [Hj Hr]]. exists j. auto.
      * intros [j [[<-|Hj] Hr]]; [congruence|]. exists j. auto.
Qed.

Lemma isTooSimple_spec (str : ustring) :
  isTooSimple str = true
  <-> exists (i : nat) (a b c : N),
        str !! i = Some a /\ str !! (i + 1)%nat = Some b
        /\ str !! (i + 2)%nat = Some c /\ simple_run a b c.
Proof.
  unfold isTooSimple. split.
  - destruct (Nat.ltb_spec (length str) 3) as [|Hlen]; [discriminate|].
    intros H. apply simpleLoop_spec in H as [i [Hi Hr]].
    apply in_seq in Hi.
    destruct (lookup_lt_is_Some_2 str i ltac:(lia)) as [a Ha].
    destruct (lookup_lt_is_Some_2 str (i + 1) ltac:(lia)) as [b Hb].
    destruct (lookup_lt_is_Some_2 str (i + 2) ltac:(lia)) as [c Hc].
    exists i, a, b, c. repeat (split; [assumption|]).
    unfold charCodeAt in Hr. rewrite Ha, Hb, Hc in Hr.
    apply runOfThree_spec. exact Hr.
  - intros [i [a [b [c [Ha [Hb [Hc Hr]]]]]]].
    pose proof (lookup_lt_Some _ _ _ Hc) as Hlt.
    destruct (Nat.ltb_spec (length str) 3) as [|Hlen]; [lia|].
    apply simpleLoop_spec. exists i. split; [apply in_seq; lia|].
    unfold charCodeAt. rewrite Ha, Hb, Hc.
    apply runOfThree_spec. exact Hr.
Qed.

(** [isTooSimple(str)] is true exactly when three consecutive code units of
    [str] go up by one, go down by one, or are equal; so it is false on a
    string of fewer than three code units, and a string that holds a too
    simple one is too simple. *)
Theorem isTooSimple_runs :
  (forall str,
      isTooSimple str = true
      <-> exists (i : nat) (a b c : N),
            str !! i = Some a /\ str !! (i + 1)%nat = Some b
            /\ str !! (i + 2)%nat = Some c /\ simple_run a b c)
  /\ (forall str, (length str < 3)%nat -> isTooSimple str = false)
  /\ (forall before str after,
         isTooSimple str = true ->
         isTooSimple (before ++ str ++ after) = true).
Proof.
  split; [exact isTooSimple_spec|]. split.
  - intros str Hlen. unfold isTooSimple.
    destruct (Nat.ltb_spec (length str) 3); [reflexivity|lia].
  - intros before str after H.
    apply isTooSimple_spec in H as [i [a [b [c [Ha [Hb [Hc Hr]]]]]]].
    assert (Hl : forall j x, str !! j = Some x ->
                   (before ++ str ++ after) !! (length before + j)%nat
                   = Some x).
    { intros j x Hj. rewrite lookup_app_r by lia.
      replace (length before + j - length before)%nat with j by lia.
      rewrite lookup_app_l by (eapply lookup_lt_Some; exact Hj). exact Hj. }
    apply isTooSimple_spec. exists (length before + i)%nat, a, b, c.
    rewrite <- !Nat.add_assoc.
    split; [apply Hl; exact Ha|]. split; [apply Hl; exact Hb|].
    split; [apply Hl; exact Hc|exact Hr].
Qed.

(** ** Lists of selectors and of URL patterns *)

(** *** [trim] *)

Lemma trimStartU_head (s : ustring) :
  trimStartU s = []
  \/ exists c t, trimStartU s = c :: t /\ isSpace c = false.
Proof.
  induction s as [|c s IH]; simpl; [left; reflexivity|].
  destruct (isSpace c) eqn:E; [exact IH|]. right. exists c, s. auto.
Qed.

Lemma trimStartU_snoc (l : ustring) (c : N) :
  isSpace c = false -> trimStartU (l ++ [c]) = trimStartU l ++ [c].
Proof.
  intros Hc. induction l as [|x l IH]; simpl; [rewrite Hc; reflexivity|].
  destruct (isSpace x); [exact IH|reflexivity].
Qed.

Lemma trimStartU_idem (s : ustring) : trimStartU (trimStartU s) = trimStartU s.
Proof.
  destruct (trimStartU_head s) as [->|[c [t [-> Hc]]]]; [reflexivity|].
  simpl. rewrite Hc. reflexivity.
Qed.

Lemma trimEndU_cons (c : N) (t : ustring) :
  isSpace c = false -> trimEndU (c :: t) = c :: trimEndU t.
Proof.
  intros Hc. unfold trimEndU. cbn [rev].
  rewrite trimStartU_snoc by exact Hc. rewrite rev_app_distr. reflexivity.
Qed.

Lemma trimEndU_idem (s : ustring) : trimEndU (trimEndU s) = trimEndU s.
Proof.
  unfold trimEndU. rewrite rev_involutive, trimStartU_idem. reflexivity.
Qed.

Lemma trim_idem (s : ustring) : trim (trim s) = trim s.
Proof.
  unfold trim.
  destruct (trimStartU_head s) as [->|[c [t [-> Hc]]]]; [reflexivity|].
  rewrite trimEndU_cons by exact Hc. cbn [trimStartU]. rewrite Hc.
  rewrite trimEndU_cons by exact Hc. rewrite trimEndU_idem. reflexivity.
Qed.

(** *** [cleanList] *)

Lemma filter_all {A : Type} (f : A -> bool) (l : list A) :
  Forall (fun x => f x = true) l -> List.filter f l = l.
Proof.
  induction 1 as [|x l Hx _ IH]; simpl; [reflexivity|].
  rewrite Hx, IH. reflexivity.
Qed.

Lemma map_trim_fixed (l : list ustring) :
  Forall (fun s => trim s = s) l -> map trimmed (map VStr l) = l.
Proof.
  induction 1 as [|x l Hx _ IH]; simpl; [reflexivity|].
  unfold trimmed at 1. cbn [text_of]. rewrite Hx, IH. reflexivity.
Qed.

Lemma clean_entries (raws : list jsvalue) :
  Forall (fun s => nonEmpty s = true /\ trim s = s)
    (List.filter nonEmpty (map trimmed raws)).
Proof.
  apply Forall_forall. intros s Hs.
  apply list_elem_of_In, List.filter_In in Hs as [Hs Hne].
  split; [exact Hne|].
  apply in_map_iff in Hs as [v [<- _]]. apply trim_idem.
Qed.

Lemma cleanList_cases (arr : option (list jsvalue)) :
  (cleanList arr = [[]]
   /\ List.filter nonEmpty (map trimmed (default [] arr)) = [])
  \/ (cleanList arr = List.filter nonEmpty (map trimmed (default [] arr))
      /\ cleanList arr <> []).
Proof.
  unfold cleanList. cbv zeta.
  destruct (List.filter nonEmpty (map trimmed (default [] arr))) as [|x l];
    [left; split; reflexivity|right; split; [reflexivity|discriminate]].
Qed.

Lemma nonEmpty_false (s : ustring) : nonEmpty s = false <-> s = [].
Proof.
  unfold nonEmpty. destruct s; simpl; split; intros H;
    try reflexivity; discriminate.
Qed.

Lemma no_entry_left (raws : list jsvalue) :
  List.filter nonEmpty (map trimmed raws) = []
  <-> Forall (fun v => trimmed v = []) raws.
Proof.
  induction raws as [|v raws IH]; simpl.
  - split; [constructor|reflexivity].
  - destruct (nonEmpty (trimmed v)) eqn:E.
    + split; [discriminate|]. intros H. inversion H as [|? ? Hv _]; subst.
      rewrite Hv in E. discriminate.
    + apply nonEmpty_false in E. rewrite IH. split.
      * intros H. constructor; assumption.
      * intros H. inversion H; assumption.
Qed.

Lemma entry_left (raws : list jsvalue) :
  Exists (fun v => trimmed v <> []) raws ->
  List.filter nonEmpty (map trimmed raws) <> [].
Proof.
  intros Hex Hnil. apply no_entry_left in Hnil.
  apply Exists_exists in Hex as [v [Hin Hv]].
  rewrite Forall_forall in Hnil. apply Hv, Hnil, Hin.
Qed.

(** [cleanList] never returns an empty array.  It returns [[""]] exactly
    when its argument is not an array or holds no entry that is non-empty
    once trimmed; when there is such an entry it returns those entries,
    trimmed, in their order, and none of them is empty.  Every entry
    returned is trimmed; and cleaning a cleaned list changes nothing. *)
Theorem cleanList_normal (arr : option (list jsvalue)) :
  cleanList arr <> []
  /\ (cleanList arr = [[]]
      <-> Forall (fun v => trimmed v = []) (default [] arr))
  /\ (Exists (fun v => trimmed v <> []) (default [] arr) ->
      cleanList arr = List.filter nonEmpty (map trimmed (default [] arr))
      /\ Forall (fun s => s <> []) (cleanList arr))
  /\ Forall (fun s => trim s = s) (cleanList arr)
  /\ cleanList (Some (map VStr (cleanList arr))) = cleanList arr
  /\ cleanList None = [[]].
Proof.
  pose proof (clean_entries (default [] arr)) as Hent.
  destruct (cleanList_cases arr) as [[E Hnil]|[E Hne]].
  - rewrite E. split; [discriminate|].
    split; [split; [intros _; apply no_entry_left; exact Hnil|reflexivity]|].
    split.
    { intros Hex. exfalso. exact (entry_left _ Hex Hnil). }
    split; [repeat constructor|]. split; reflexivity.
  - split; [exact Hne|]. rewrite <- E in Hent.
    assert (Hall : Forall (fun s => s <> []) (cleanList arr)).
    { eapply Forall_impl; [exact Hent|]. intros s [Hs _] ->. discriminate. }
    split.
    { split.
      - intros E1. rewrite E1 in Hall. inversion Hall as [|? ? Hx _]; subst.
        exfalso. apply Hx. reflexivity.
      - intros Hnil. apply no_entry_left in Hnil. rewrite <- E in Hnil.
        contradiction. }
    split; [intros _; split; [exact E|exact Hall]|].
    split; [eapply Forall_impl; [exact Hent|]; intros s [_ Hs]; exact Hs|].
    split; [|reflexivity].
    unfold cleanList at 1. cbv zeta. cbn [default from_option id].
    rewrite map_trim_fixed
      by (eapply Forall_impl; [exact Hent|]; intros s [_ Hs]; exact Hs).
    rewrite filter_all
      by (eapply Forall_impl; [exact Hent|]; intros s [Hs _]; exact Hs).
    destruct (cleanList arr); [congruence|reflexivity].
Qed.

(** *** Sets in insertion order *)

Lemma set_add_elem (set : list ustring) (x y : ustring) :
  x ∈ set_add set y <-> x ∈ set \/ x = y.
Proof.
  unfold set_add. destruct (bool_decide_reflect (y ∈ set)) as [Hy|Hy].
  - split; [auto|]. intros [H| ->]; assumption.
  - rewrite elem_of_app, list_elem_of_singleton. reflexivity.
Qed.

Lemma fold_set_add_elem (l : list ustring) :
  forall (set : list ustring) (x : ustring),
    x ∈ fold_left set_add l set <-> x ∈ set \/ x ∈ l.
Proof.
  induction l as [|y l IH]; intros set x; cbn [fold_left].
  - rewrite elem_of_nil. tauto.
  - rewrite IH, set_add_elem, elem_of_cons. tauto.
Qed.

Lemma fold_set_add_NoDup (l : list ustring) :
  forall set, NoDup set -> NoDup (fold_left set_add l set).
Proof.
  induction l as [|y l IH]; intros set Hnd; cbn [fold_left]; [exact Hnd|].
  apply IH. unfold set_add.
  destruct (bool_decide_reflect (y ∈ set)) as [Hy|Hy]; [exact Hnd|].
  apply NoDup_app. split; [exact Hnd|]. split; [|apply NoDup_singleton].
  intros x Hx Hx'. apply list_elem_of_singleton in Hx'. subst x. exact (Hy Hx).
Qed.

Lemma fold_set_add_absorb (l : list ustring) (set : list ustring) :
  Forall (fun x => x ∈ set) l -> fold_left set_add l set = set.
Proof.
  induction 1 as [|y l Hy _ IH]; cbn [fold_left]; [reflexivity|].
  unfold set_add at 2. rewrite bool_decide_eq_true_2 by exact Hy. exact IH.
Qed.

Lemma fold_set_add_fresh (l : list ustring) :
  forall set, NoDup (set ++ l) -> fold_left set_add l set = set ++ l.
Proof.
  induction l as [|y l IH]; intros set Hnd; cbn [fold_left].
  - rewrite app_nil_r. reflexivity.
  - apply NoDup_app in Hnd as [H1 [H2 H3]].
    assert (Hy : y ∉ set) by (intros Hy; apply (H2 y Hy); left).
    unfold set_add. rewrite bool_decide_eq_false_2 by exact Hy.
    rewrite IH; [rewrite <- app_assoc; reflexivity|].
    rewrite <- app_assoc. apply NoDup_app. split; [exact H1|].
    split; [exact H2|exact H3].
Qed.

Lemma set_entries (raws : list jsvalue) (set : list ustring) :
  Forall (fun s => nonEmpty s = true /\ trim s = s) set ->
  Forall (fun s => nonEmpty s = true /\ trim s = s)
    (fold_left set_add (List.filter nonEmpty (map trimmed raws)) set).
Proof.
  intros Hset. apply Forall_forall. intros x Hx.
  apply fold_set_add_elem in Hx as [Hx|Hx].
  - eapply Forall_forall in Hset; [exact Hset|exact Hx].
  - pose proof (clean_entries raws) as H.
    eapply Forall_forall in H; [exact H|exact Hx].
Qed.

Lemma nonEmpty_true (s : ustring) : nonEmpty s = true <-> s <> [].
Proof.
  unfold nonEmpty. destruct s; simpl; split; congruence || discriminate.
Qed.

Lemma clean_elem (raws : list jsvalue) (t : ustring) :
  t ∈ List.filter nonEmpty (map trimmed raws)
  <-> t <> [] /\ exists v, v ∈ raws /\ trimmed v = t.
Proof.
  rewrite list_elem_of_In, List.filter_In, in_map_iff, nonEmpty_true.
  split.
  - intros [[v [Hv Hin]] Hne]. split; [exact Hne|].
    exists v. split; [apply list_elem_of_In; exact Hin|exact Hv].
  - intros [Hne [v [Hin Hv]]]. split; [|exact Hne].
    exists v. split; [exact Hv|apply list_elem_of_In; exact Hin].
Qed.

(** *** [mergeSelectors] *)

Lemma filter_cleanList (arr : option (list jsvalue)) :
  List.filter nonEmpty (cleanList arr)
  = List.filter nonEmpty (map trimmed (default [] arr)).
Proof.
  destruct (cleanList_cases arr) as [[E1 E2]|[E _]].
  - rewrite E1, E2. reflexivity.
  - rewrite E. apply filter_all.
    eapply Forall_impl; [apply clean_entries|]. intros s [H _]. exact H.
Qed.

Lemma mergeSelectors_cases (oldList newList : option (list jsvalue)) :
  (mergeSelectors oldList newList = [[]]
   /\ mergedSet oldList newList = []
   /\ List.filter nonEmpty (map trimmed (default [] oldList)) = []
   /\ List.filter nonEmpty (map trimmed (default [] newList)) = [])
  \/ (mergeSelectors oldList newList = mergedSet oldList newList
      /\ mergedSet oldList newList <> []).
Proof.
  unfold mergeSelectors. cbv zeta. rewrite filter_cleanList.
  fold (mergedSet oldList newList).
  destruct (mergedSet oldList newList) as [|x l] eqn:E;
    [left|right; split; [reflexivity|discriminate]].
  assert (Hnone : forall t, ~ (t ∈ List.filter nonEmpty
                                     (map trimmed (default [] oldList))
                               \/ t ∈ List.filter nonEmpty
                                        (map trimmed (default [] newList)))).
  { intros t Ht.
    assert (Hin : t ∈ mergedSet oldList newList).
    { unfold mergedSet. rewrite !fold_set_add_elem. tauto. }
    rewrite E in Hin. inversion Hin. }
  assert (Eo : List.filter nonEmpty (map trimmed (default [] oldList)) = []).
  { destruct (List.filter nonEmpty (map trimmed (default [] oldList)))
      as [|t l]; [reflexivity|].
    exfalso. apply (Hnone t). left. left. }
  assert (En : List.filter nonEmpty (map trimmed (default [] newList)) = []).
  { destruct (List.filter nonEmpty (map trimmed (default [] newList)))
      as [|t l]; [reflexivity|].
    exfalso. apply (Hnone t). right. left. }
  split; [|auto]. cbn [length Nat.eqb].
  unfold cleanList. cbv zeta. rewrite Eo. reflexivity.
Qed.

Lemma mergedSet_facts (oldList newList : option (list jsvalue)) :
  NoDup (mergedSet oldList newList)
  /\ Forall (fun s => nonEmpty s = true /\ trim s = s)
       (mergedSet oldList newList).
Proof.
  unfold mergedSet. split.
  - apply fold_set_add_NoDup, fold_set_add_NoDup. constructor.
  - apply set_entries, set_entries. constructor.
Qed.

(** [mergeSelectors] never returns an empty array.  It returns [[""]] when
    neither list holds an entry that is non-empty once trimmed; otherwise
    its result has no repetition and only trimmed, non-empty entries, which
    are exactly the trimmed non-empty entries of the two lists.  Merging
    the same new list into the result again changes nothing. *)
Theorem mergeSelectors_merged (oldList newList : option (list jsvalue)) :
  mergeSelectors oldList newList <> []
  /\ (mergeSelectors oldList newList = [[]]
      \/ NoDup (mergeSelectors oldList newList)
         /\ Forall (fun s => s <> [] /\ trim s = s)
              (mergeSelectors oldList newList))
  /\ (forall t,
         t <> [] ->
         (t ∈ mergeSelectors oldList newList
          <-> (exists v, v ∈ default [] oldList /\ trimmed v = t)
              \/ (exists v, v ∈ default [] newList /\ trimmed v = t)))
  /\ mergeSelectors (Some (map VStr (mergeSelectors oldList newList))) newList
     = mergeSelectors oldList newList.
Proof.
  destruct (mergedSet_facts oldList newList) as [Hnd Hent].
  assert (Hmem : forall t,
             t ∈ mergedSet oldList newList
             <-> t <> []
                 /\ ((exists v, v ∈ default [] oldList /\ trimmed v = t)
                     \/ (exists v, v ∈ default [] newList /\ trimmed v = t))).
  { intros t. unfold mergedSet. rewrite !fold_set_add_elem, !clean_elem.
    rewrite elem_of_nil. tauto. }
  destruct (mergeSelectors_cases oldList newList)
    as [[E [Es [Eo En]]]|[E Hne]].
  - rewrite E. split; [discriminate|]. split; [left; reflexivity|]. split.
    + intros t Ht. rewrite list_elem_of_singleton. split; [congruence|].
      intros H. exfalso.
      assert (Hin : t ∈ mergedSet oldList newList) by (apply Hmem; auto).
      rewrite Es in Hin. inversion Hin.
    + unfold mergeSelectors. cbv zeta. rewrite filter_cleanList.
      cbn [default from_option id map].
      replace (trimmed (VStr [])) with (@nil N) by reflexivity.
      cbn [List.filter nonEmpty length Nat.eqb negb fold_left].
      rewrite En. reflexivity.
  - rewrite E. split; [exact Hne|]. split.
    { right. split; [exact Hnd|].
      eapply Forall_impl; [exact Hent|]. intros s [H1 H2].
      split; [apply nonEmpty_true; exact H1|exact H2]. }
    split.
    + intros t Ht. rewrite Hmem. tauto.
    + assert (Hfix : List.filter nonEmpty
                       (map trimmed (map VStr (mergedSet oldList newList)))
                     = mergedSet oldList newList).
      { rewrite map_trim_fixed
          by (eapply Forall_impl; [exact Hent|]; intros s [_ H]; exact H).
        apply filter_all.
        eapply Forall_impl; [exact Hent|]. intros s [H _]. exact H. }
      unfold mergeSelectors. cbv zeta. rewrite filter_cleanList.
      cbn [default from_option id]. rewrite Hfix.
      rewrite (fold_set_add_fresh _ []) by exact Hnd. cbn [app].
      rewrite fold_set_add_absorb.
      * destruct (mergedSet oldList newList); [congruence|reflexivity].
      * apply Forall_forall. intros t Ht. unfold mergedSet.
        apply fold_set_add_elem. right. exact Ht.
Qed.

(** *** [getUrlPatterns] *)

Lemma pushPattern_set_add (found : list ustring) (raw : jsvalue) :
  pushPattern found raw
  = fold_left set_add (List.filter nonEmpty [trimmed raw]) found.
Proof.
  unfold pushPattern. cbv zeta. cbn [List.filter].
  destruct (nonEmpty (trimmed raw)); cbn [andb fold_left]; [|reflexivity].
  unfold set_add. destruct (bool_decide (trimmed raw ∈ found)); reflexivity.
Qed.

Lemma fold_pushPattern (raws : list jsvalue) :
  forall found,
    fold_left pushPattern raws found
    = fold_left set_add (List.filter nonEmpty (map trimmed raws)) found.
Proof.
  induction raws as [|raw raws IH]; intros found; [reflexivity|].
  cbn [fold_left map]. rewrite IH, pushPattern_set_add.
  cbn [List.filter]. destruct (nonEmpty (trimmed raw)); reflexivity.
Qed.

Lemma getUrlPatterns_set (rec : option UrlFields) :
  getUrlPatterns rec
  = fold_left set_add (List.filter nonEmpty (map trimmed (pushed rec))) [].
Proof.
  destruct rec as [r|]; [|reflexivity].
  unfold getUrlPatterns, pushed. cbv zeta.
  rewrite map_app, List.filter_app, fold_left_app, fold_pushPattern.
  destruct (truthy (f_urlPattern r)); [|reflexivity].
  apply pushPattern_set_add.
Qed.

Lemma getUrlPatterns_facts (rec : option UrlFields) :
  getUrlPatterns None = []
  /\ NoDup (getUrlPatterns rec)
  /\ Forall (fun s => s <> [] /\ trim s = s) (getUrlPatterns rec)
  /\ (forall t,
         t ∈ getUrlPatterns rec
         <-> t <> [] /\ exists v, v ∈ pushed rec /\ trimmed v = t)
  /\ getUrlPatterns
       (Some {| f_urlPatterns := Some (map VStr (getUrlPatterns rec));
                f_urlPattern := VFalsy |})
     = getUrlPatterns rec.
Proof.
  split; [reflexivity|].
  assert (Hnd : NoDup (getUrlPatterns rec)).
  { rewrite getUrlPatterns_set. apply fold_set_add_NoDup. constructor. }
  assert (Hent : Forall (fun s => nonEmpty s = true /\ trim s = s)
                   (getUrlPatterns rec)).
  { rewrite getUrlPatterns_set. apply set_entries. constructor. }
  split; [exact Hnd|]. split.
  { eapply Forall_impl; [exact Hent|]. intros s [H1 H2].
    split; [apply nonEmpty_true; exact H1|exact H2]. }
  split.
  - intros t. rewrite getUrlPatterns_set, fold_set_add_elem, clean_elem.
    rewrite elem_of_nil. tauto.
  - rewrite (getUrlPatterns_set (Some _)). unfold pushed.
    cbn [f_urlPatterns f_urlPattern truthy default from_option id].
    rewrite app_nil_r.
    rewrite map_trim_fixed
      by (eapply Forall_impl; [exact Hent|]; intros s [_ H]; exact H).
    rewrite filter_all
      by (eapply Forall_impl; [exact Hent|]; intros s [H _]; exact H).
    apply (fold_set_add_fresh _ []). exact Hnd.
Qed.

(** [getUrlPatterns] returns no pattern for a falsy record.  Its result has
    no repetition and only trimmed, non-empty entries: exactly the trimmed
    non-empty entries of [urlPatterns] (when it is an array) and of a truthy
    [urlPattern].  Reading the patterns of a record whose [urlPatterns] is
    that result, with no [urlPattern], gives the same result. *)
Theorem getUrlPatterns_normal (rec : option UrlFields) :
  getUrlPatterns None = []
  /\ NoDup (getUrlPatterns rec)
  /\ Forall (fun s => s <> [] /\ trim s = s) (getUrlPatterns rec)
  /\ (forall t,
         t ∈ getUrlPatterns rec
         <-> t <> [] /\ exists v, v ∈ pushed rec /\ trimmed v = t)
  /\ getUrlPatterns
       (Some {| f_urlPatterns := Some (map VStr (getUrlPatterns rec));
                f_urlPattern := VFalsy |})
     = getUrlPatterns rec.
Proof. apply getUrlPatterns_facts. Qed.

(** *** [upgradeRecord] *)

Lemma selectorsOrBlank_idem (x : option (list jsvalue)) :
  selectorsOrBlank (Some (selectorsOrBlank x)) = selectorsOrBlank x.
Proof. destruct x as [[|v l]|]; reflexivity. Qed.

Lemma selectorsOrBlank_cons (x : option (list jsvalue)) :
  exists v l, selectorsOrBlank x = v :: l.
Proof. destruct x as [[|v l]|]; eexists _, _; reflexivity. Qed.

(** Provided [uid()] returns a non-empty string, a record returned by
    [upgradeRecord] has a truthy [id], non-empty arrays of account and
    password selectors, an array of other fields, no [urlPattern], and as
    [urlPatterns] an array of distinct, trimmed, non-empty strings; and
    upgrading it again returns it unchanged. *)
Theorem upgradeRecord_normal {Other Rest : Type} (fresh : ustring)
    (emptyRest : Rest) (rec : option (StoredRecord Other Rest)) :
  fresh <> [] ->
  truthy (r_id (upgradeRecord fresh emptyRest rec)) = true
  /\ (exists v l,
         r_accountSelectors (upgradeRecord fresh emptyRest rec)
         = Some (v :: l))
  /\ (exists v l,
         r_passwordSelectors (upgradeRecord fresh emptyRest rec)
         = Some (v :: l))
  /\ is_Some (r_others (upgradeRecord fresh emptyRest rec))
  /\ r_urlPattern (upgradeRecord fresh emptyRest rec) = VFalsy
  /\ (exists patterns,
         r_urlPatterns (upgradeRecord fresh emptyRest rec)
         = Some (map VStr patterns)
         /\ NoDup patterns
         /\ Forall (fun s => s <> [] /\ trim s = s) patterns)
  /\ (forall fresh',
         upgradeRecord fresh' emptyRest
           (Some (upgradeRecord fresh emptyRest rec))
         = upgradeRecord fresh emptyRest rec).
Proof.
  intros Hfresh.
  assert (Hf : nonEmpty fresh = true) by (apply nonEmpty_true; exact Hfresh).
  destruct rec as [r|].
  - cbn [upgradeRecord r_id r_accountSelectors r_passwordSelectors r_others
         r_urlPatterns r_urlPattern r_rest].
    set (fields := Some {| f_urlPatterns := r_urlPatterns r;
                           f_urlPattern := r_urlPattern r |}).
    destruct (getUrlPatterns_facts fields) as [_ [Hnd [Hent [_ Hidem]]]].
    assert (Hid : truthy (if truthy (r_id r) then r_id r else VStr fresh)
                  = true).
    { destruct (truthy (r_id r)) eqn:E; [exact E|exact Hf]. }
    split; [exact Hid|].
    split; [destruct (selectorsOrBlank_cons (r_accountSelectors r))
              as [v [l ->]]; eauto|].
    split; [destruct (selectorsOrBlank_cons (r_passwordSelectors r))
              as [v [l ->]]; eauto|].
    split; [eexists; reflexivity|]. split; [reflexivity|].
    split; [exists (getUrlPatterns fields); auto|].
    intros fresh'. rewrite Hid, !selectorsOrBlank_idem, Hidem. reflexivity.
  - cbn [upgradeRecord makeEmptyRecord r_id r_accountSelectors
         r_passwordSelectors r_others r_urlPatterns r_urlPattern r_rest
         truthy].
    split; [exact Hf|]. split; [eauto|]. split; [eauto|].
    split; [eexists; reflexivity|]. split; [reflexivity|].
    split; [exists []; repeat split; constructor|].
    intros fresh'. rewrite Hf. reflexivity.
Qed.

Lemma upgradeRecord_normal_witness :
  codes "a1" <> []
  /\ truthy (r_id (upgradeRecord (Other := unit) (codes "a1") tt None))
     = true
  /\ (forall fresh',
         upgradeRecord (Other := unit) fresh' tt
           (Some (upgradeRecord (codes "a1") tt None))
         = upgradeRecord (codes "a1") tt None).
Proof.
  assert (H : codes "a1" <> []) by (vm_compute; discriminate).
  split; [exact H|].
  destruct (upgradeRecord_normal (Other := unit) (codes "a1") tt None H)
    as [H1 [_ [_ [_ [_ [_ H7]]]]]].
  split; assumption.
Defined.
